(** * Momentum conservation, symmetry orbits and the nested-array codec of
      [pyscf/pbc/lib/kpts_helper.py]

    A shallow embedding of the k-point helper module and the properties of
    its functions.  NumPy's dense arrays are modelled by their shape and
    their entries; the scalar arithmetic of the k-point coordinates is an
    interface ([Arith]) with one exact instance over the rationals. *)

From Stdlib Require Import ZArith QArith Qround Qabs Lia Bool List String.
From stdpp Require Import base decidable option list strings sorting.

Close Scope Q_scope.
Open Scope nat_scope.
Set Warnings "-register-all".

(** ** Scalar arithmetic of k-point coordinates *)

(** The operations [get_kconserv], [get_kconserv3] and [unique] apply to the
    coordinates: [+], [-], [*], [abs], [numpy.rint], [<], and the two
    tolerances ([1e-9], written in the source, and [KPT_DIFF_TOL], read from
    the configuration with default [1e-6]). *)
Class Arith (F : Type) := {
  fzero : F;
  fadd : F -> F -> F;
  fsub : F -> F -> F;
  fmul : F -> F -> F;
  fabs : F -> F;
  frint : F -> F;
  fltb : F -> F -> bool;
  tol_1e_9 : F;
  KPT_DIFF_TOL : F
}.

(** Exact rational arithmetic.  [numpy.rint] rounds to the nearest integer,
    halfway cases to the even one. *)
Module QArithmetic.

Definition Qltb (x y : Q) : bool := negb (Qle_bool y x).

Definition Qrint (x : Q) : Q :=
  let f := Qfloor x in
  let d := Qminus x (inject_Z f) in
  if Qltb d (1 # 2)%Q then inject_Z f
  else if Qltb (1 # 2)%Q d then inject_Z (f + 1)
  else if Z.even f then inject_Z f else inject_Z (f + 1).

#[export] Instance Q_arith : Arith Q := {|
  fzero := 0%Q;
  fadd := Qplus;
  fsub := Qminus;
  fmul := Qmult;
  fabs := Qabs;
  frint := Qrint;
  fltb := Qltb;
  tol_1e_9 := (1 # 1000000000)%Q;
  KPT_DIFF_TOL := (1 # 1000000)%Q
|}.

End QArithmetic.
Export QArithmetic.

(** [numpy.linalg.norm(v) < tolerance] for the entries [v] of an array: the
    square root of the sum of the squares is below the tolerance. *)
Class Linalg (F : Type) := {
  norm_below : list F -> F -> bool
}.

(** Over the rationals the test is decided without the square root: the
    tolerance is positive and the sum of the squares is below its square. *)
#[export] Instance Q_linalg : Linalg Q := {|
  norm_below v tolerance :=
    Qltb 0%Q tolerance
    && Qltb (fold_left (fun acc x => Qplus acc (Qmult x x)) v 0%Q)
            (Qmult tolerance tolerance)
|}.

(** ** Exceptions *)

(** The exceptions the module raises, by their Python class, with the
    constant part of their message. *)
Inductive exception : Type :=
| ValueError (msg : string)
| IndexError (msg : string)
| TypeError (msg : string)
| AssertionError (msg : string)
| NotImplementedError (msg : string).

(** The outcome of a call: a value, or the exception it raised. *)
Inductive result (A : Type) : Type :=
| Ok (a : A)
| Raise (e : exception).
Arguments Ok {A} _.
Arguments Raise {A} _.

#[export] Instance result_bind : MBind result :=
fun A B (k : A -> result B) (r : result A) =>
  match r with
  | Ok a => k a
  | Raise e => Raise e
  end.

#[export] Instance result_ret : MRet result := fun A (a : A) => Ok a.

(** The values of a list of calls made from left to right, or the first
    exception. *)
Fixpoint collect {A : Type} (rs : list (result A)) : result (list A) :=
match rs with
| [] => Ok []
| r :: rs' => a ← r; l ← collect rs'; Ok (a :: l)
end.

(** A [for] loop over [items] that updates the state [s] and stops at the
    first exception. *)
Section ForLoop.
Context {A S : Type} (body : S -> A -> result S).

Fixpoint for_each (items : list A) (s : S) : result S :=
match items with
| [] => Ok s
| i :: rest => s' ← body s i; for_each rest s'
end.

End ForLoop.

(** ** Dense arrays *)

(** An [ndarray] is a shape and the entry at each index tuple.  Entries at
    index tuples outside the shape are never read by the code. *)
Record ndarray (A : Type) := NDArray {
  shape : list nat;
  item : list nat -> A
}.
Arguments NDArray {A} _ _.
Arguments shape {A} _.
Arguments item {A} _ _.

Module Numpy.

(** [numpy.zeros(shape)] *)
Definition zeros (shp : list nat) : ndarray nat := NDArray shp (fun _ => 0).
Definition zeros_bool (shp : list nat) : ndarray bool :=
  NDArray shp (fun _ => false).

(** [arr[idx] = v] *)
Definition setitem {A} (arr : ndarray A) (idx : list nat) (v : A) : ndarray A :=
  NDArray (shape arr) (fun j => if decide (j = idx) then v else item arr j).

(** [arr[mask] = v] for a boolean mask of the shape of [arr] *)
Definition setmask {A} (arr : ndarray A) (mask : list nat -> bool) (v : A)
  : ndarray A :=
  NDArray (shape arr) (fun j => if mask j then v else item arr j).

(** [numpy.prod] of a shape *)
Definition prod (shp : list nat) : nat := fold_right Nat.mul 1 shp.

(** The position of an index tuple in row-major order. *)
Definition ravel_multi_index (idx shp : list nat) : nat :=
fold_left (fun flat '(i, d) => flat * d + i) (zip idx shp) 0.

(** The index tuple at a position in row-major order. *)
Fixpoint unravel_index (flat : nat) (shp : list nat) : list nat :=
match shp with
| [] => []
| d :: rest => flat / prod rest :: unravel_index (flat mod prod rest) rest
end.

(** The index tuples of a shape in row-major order. *)
Fixpoint ndindex (shp : list nat) : list (list nat) :=
match shp with
| [] => [[]]
| d :: rest => flat_map (fun i => map (cons i) (ndindex rest)) (seq 0 d)
end.

(** [arr.ravel()] *)
Definition ravel {A} (arr : ndarray A) : list A :=
map (item arr) (ndindex (shape arr)).

(** The position of axis [m] in [axes]. *)
Fixpoint position (m : nat) (axes : list nat) : nat :=
match axes with
| [] => 0
| ax :: axes' => if decide (ax = m) then 0 else S (position m axes')
end.

(** [arr.transpose(axes)]: axis [k] of the result is axis [axes[k]] of
    [arr]; [axes] has to be a permutation of the axes of [arr]. *)
Definition transpose {A} (arr : ndarray A) (axes : list nat)
  : result (ndarray A) :=
let ndim := length (shape arr) in
if decide (length axes = ndim /\ NoDup axes /\ Forall (fun ax => ax < ndim) axes)
then
  Ok (NDArray (map (fun ax => nth ax (shape arr) 0) axes)
        (fun idx => item arr (map (fun m => nth (position m axes) idx 0)
                                  (seq 0 ndim))))
else Raise (ValueError "axes don't match array").

(** Broadcasting of two shapes of the same length: the lengths of an axis
    agree, or one of them is [1]. *)
Definition broadcast_dim (d1 d2 : nat) : option nat :=
if decide (d1 = d2) then Some d1
else if decide (d1 = 1) then Some d2
else if decide (d2 = 1) then Some d1
else None.

Fixpoint broadcast_shapes (shp1 shp2 : list nat) : option (list nat) :=
match shp1, shp2 with
| [], [] => Some []
| d1 :: rest1, d2 :: rest2 =>
    d ← broadcast_dim d1 d2; rest ← broadcast_shapes rest1 rest2;
    Some (d :: rest)
| _, _ => None
end.

(** The index into an operand of shape [shp] for the index [idx] into the
    broadcast result: [0] along the axes of length [1]. *)
Definition broadcast_index (shp idx : list nat) : list nat :=
zip_with (fun d i => if decide (d = 1) then 0 else i) shp idx.

(** [x + y] for arrays with the same number of axes; shapes that do not
    broadcast raise [ValueError]. *)
Definition add {F} `{Arith F} (x y : ndarray F) : result (ndarray F) :=
match broadcast_shapes (shape x) (shape y) with
| Some shp =>
    Ok (NDArray shp
          (fun idx => fadd (item x (broadcast_index (shape x) idx))
                           (item y (broadcast_index (shape y) idx))))
| None => Raise (ValueError "operands could not be broadcast together")
end.

(** [arr.reshape(new_shape)] *)
Definition reshape {A} (arr : ndarray A) (new_shape : list nat)
  : result (ndarray A) :=
if decide (prod (shape arr) = prod new_shape) then
  Ok (NDArray new_shape
        (fun idx => item arr (unravel_index (ravel_multi_index idx new_shape)
                                            (shape arr))))
else Raise (ValueError "cannot reshape array").

End Numpy.
Import Numpy.

(** ** Vectors with three components *)

Section Vec3.
Context {F : Type} `{Arith F}.

Definition vec3 : Type := F * F * F.

Definition vmap (f : F -> F) (v : vec3) : vec3 :=
  let '(a, b, c) := v in (f a, f b, f c).
Definition vzip (f : F -> F -> F) (u v : vec3) : vec3 :=
  let '(a, b, c) := u in let '(a', b', c') := v in (f a a', f b b', f c c').

Definition vadd := vzip fadd.
Definition vsub := vzip fsub.
Definition vabs := vmap fabs.
Definition vrint := vmap frint.
Definition vzero : vec3 := (fzero, fzero, fzero).

(** Sum of the three components, left to right. *)
Definition vsum (v : vec3) : F :=
  let '(a, b, c) := v in fadd (fadd a b) c.

(** [sum_x v[x] * row[x]] *)
Definition vdot (v row : vec3) : F :=
  let '(a, b, c) := v in let '(a', b', c') := row in
  fadd (fadd (fmul a a') (fmul b b')) (fmul c c').

(** A 3x3 matrix by its rows [a[0]], [a[1]], [a[2]]. *)
Definition mat3 : Type := vec3 * vec3 * vec3.

(** [einsum('x,wx->w', v, a)] *)
Definition matvec (a : mat3) (v : vec3) : vec3 :=
  let '(r0, r1, r2) := a in (vdot v r0, vdot v r1, vdot v r2).

(** [kpts[i]] for [i] below [len(kpts)] *)
Definition kpt_at (kpts : list vec3) (i : nat) : vec3 := nth i kpts vzero.

End Vec3.
Arguments vec3 F : clear implicits.
Arguments mat3 F : clear implicits.

(** ** [get_kconserv] *)

Section KConserv.
Context {F : Type} `{Arith F}.

(** [enumerate(l)] *)
Definition enumerate {A} (l : list A) : list (nat * A) := imap pair l.

(** [kvMLK = kpts[:,None,None,:] - kpts[:,None,:] + kpts], the row at
    [k,l,m]. *)
Definition kvMLK (kpts : list (vec3 F)) (k l m : nat) : vec3 F :=
  vadd (vsub (kpt_at kpts k) (kpt_at kpts l)) (kpt_at kpts m).

(** [kvMLKN = einsum('klmx,wx->mlkw', kvMLK - kvN, a)]: the operand's axes
    are named [k,l,m], the result's [m,l,k], so that the row at
    [i0,i1,i2] of the result comes from the row at [i2,i1,i0] of [kvMLK]. *)
Definition kvMLKN (a : mat3 F) (kpts : list (vec3 F)) (kvN : vec3 F)
    (i0 i1 i2 : nat) : vec3 F :=
  matvec a (vsub (kvMLK kpts i2 i1 i0) kvN).

(** [einsum('klmw->mlk', abs(kvMLKN - kvMLKN_int))]: the entry at
    [j0,j1,j2] is the sum over [w] of the operand's row at [j2,j1,j0]. *)
Definition residual_sum (a : mat3 F) (kpts : list (vec3 F)) (kvN : vec3 F)
    (j0 j1 j2 : nat) : F :=
  let v := kvMLKN a kpts kvN j2 j1 j0 in
  vsum (vabs (vsub v (vrint v))).

(** [mask = einsum(...) < 1e-9], a boolean array of shape [(nkpts,)*3] *)
Definition kconserv_mask (a : mat3 F) (kpts : list (vec3 F)) (kvN : vec3 F)
    (idx : list nat) : bool :=
  match idx with
  | [j0; j1; j2] =>
      let nkpts := length kpts in
      bool_decide (j0 < nkpts) && bool_decide (j1 < nkpts)
      && bool_decide (j2 < nkpts)
      && fltb (residual_sum a kpts kvN j0 j1 j2) tol_1e_9
  | _ => false
  end.

(** One turn of the loop over [enumerate(kpts)]: [kconserv[mask] = N]. *)
Definition kconserv_step (a : mat3 F) (kpts : list (vec3 F))
    (kconserv : ndarray nat) (e : nat * vec3 F) : ndarray nat :=
  setmask kconserv (kconserv_mask a kpts e.2) e.1.

(** The argument [a] is [cell.lattice_vectors() / (2*np.pi)]. *)
Definition get_kconserv (a : mat3 F) (kpts : list (vec3 F)) : ndarray nat :=
  let nkpts := length kpts in
  fold_left (kconserv_step a kpts) (enumerate kpts)
            (zeros [nkpts; nkpts; nkpts]).

(** The test that candidate [N] passes at the triple [(p,q,r)]: the sum
    over the three components of the distances of
    [(kpts[p] - kpts[q] + kpts[r] - kpts[N]) . a] to the nearest integers is
    below [1e-9]. *)
Definition conserves (a : mat3 F) (kpts : list (vec3 F)) (p q r N : nat)
  : bool :=
  fltb (residual_sum a kpts (kpt_at kpts N) p q r) tol_1e_9.

(** The test as the specification words it: every component of the
    residual is below [1e-9]. *)
Definition conserves_componentwise (a : mat3 F) (kpts : list (vec3 F))
    (p q r s : nat) : bool :=
  let v := matvec a (vsub (vadd (vsub (kpt_at kpts p) (kpt_at kpts q))
                                (kpt_at kpts r)) (kpt_at kpts s)) in
  let '(d0, d1, d2) := vabs (vsub v (vrint v)) in
  fltb d0 tol_1e_9 && fltb d1 tol_1e_9 && fltb d2 tol_1e_9.

End KConserv.

(** The conservation claim in the specification's words: whenever exactly
    one candidate [s] brings every component of the residual below [1e-9],
    the entry at [(p,q,r)] is [s]. *)
Definition picks_unique_componentwise (F : Type) `{Arith F} : Prop :=
  forall (a : mat3 F) (kpts : list (vec3 F)) (p q r s : nat),
    p < length kpts -> q < length kpts -> r < length kpts ->
    s < length kpts ->
    conserves_componentwise a kpts p q r s = true ->
    (forall s', s' < length kpts ->
                conserves_componentwise a kpts p q r s' = true -> s' = s) ->
    item (get_kconserv a kpts) [p; q; r] = s.

(** Concrete lattices and k-point lists over the rationals. *)
Module Grids.

Definition identity3 : mat3 Q :=
  ((1, 0, 0), (0, 1, 0), (0, 0, 1))%Q.

(** Two points of a 2x1x1 grid, in units where the lattice is the
    identity. *)
Definition grid2 : list (vec3 Q) :=
  [ (0, 0, 0); (1 # 2, 0, 0) ]%Q.

(** A list that is not closed under [k_p - k_q + k_r]. *)
Definition open2 : list (vec3 Q) :=
  [ (0, 0, 0); (3 # 10, 0, 0) ]%Q.

(** Two points that differ by a lattice vector. *)
Definition doubled : list (vec3 Q) :=
  [ (0, 0, 0); (1, 0, 0) ]%Q.

(** [k_1 - k_0 + k_1] misses [k_2] by [2^-31] in each component:
    every component of the residual is below [1e-9], their sum is not. *)
Definition skewed : list (vec3 Q) :=
  [ (0, 0, 0); (1 # 4, 0, 0);
    (1073741825 # 2147483648, 1 # 2147483648, 1 # 2147483648) ]%Q.

(** Three points in a chain: neighbours are within [1e-6] of each other,
    the two ends are not. *)
Definition chain : list (vec3 Q) :=
  [ (0, 0, 0); (6 # 10000000, 0, 0); (12 # 10000000, 0, 0) ]%Q.

(** The single point at the origin. *)
Definition gamma : list (vec3 Q) := [ (0, 0, 0) ]%Q.

(** The four points of a 2x2x1 grid. *)
Definition grid4 : list (vec3 Q) :=
  [ (0, 0, 0); (0, 1 # 2, 0); (1 # 2, 0, 0); (1 # 2, 1 # 2, 0) ]%Q.

End Grids.

(** ** [get_kconserv3] *)

Module KConserv3.
Section KConserv3.
Context {F : Type} `{Arith F}.

(** An entry of [kijkab]: a Python integer, or a sequence of indices
    (a [range], a list or an array). *)
Inductive index_group : Type :=
| Int (x : nat)
| Indices (xs : list nat).

(** [isinstance(x, (int,np.int))] *)
Definition is_int (x : index_group) : bool :=
match x with Int _ => true | Indices _ => false end.

(** [np.size(x)] *)
Definition size (x : index_group) : nat :=
match x with Int _ => 1 | Indices xs => length xs end.

(** [kpts[i]], which raises [IndexError] from [len(kpts)] on *)
Definition row (kpts : list (vec3 F)) (i : nat) : result (vec3 F) :=
match kpts !! i with
| Some kpt => Ok kpt
| None => Raise (IndexError "index is out of bounds")
end.

(** [kpts[x].reshape(-1,3)] *)
Definition select (kpts : list (vec3 F)) (x : index_group)
  : result (list (vec3 F)) :=
match x with
| Int i => kpt ← row kpts i; Ok [kpt]
| Indices xs => collect (map (row kpts) xs)
end.

(** [kv_kab = kpts_k[:,None,None,:] - kpts_a[:,None,:] - kpts_b], the row
    at [k,a,b] *)
Definition kv_kab (kpts_k kpts_a kpts_b : list (vec3 F)) (k a b : nat)
  : vec3 F :=
vsub (vsub (kpt_at kpts_k k) (kpt_at kpts_a a)) (kpt_at kpts_b b).

(** [mask] for given [kpti], [kptj] and [kptc], as a mask on the whole of
    [kconserv] that selects the entries [i,j,k,a,b] with [mask[k,a,b]]. *)
Definition mask (a : mat3 F) (kpts_k kpts_a kpts_b : list (vec3 F))
    (i j : nat) (kpti kptj kptc : vec3 F) (idx : list nat) : bool :=
match idx with
| [i'; j'; k; a'; b] =>
    let kv_ijkab := vadd (vadd (kv_kab kpts_k kpts_a kpts_b k a' b) kpti) kptj in
    let s := matvec a (vsub kv_ijkab kptc) in
    let s_int := vrint s in
    bool_decide (i' = i) && bool_decide (j' = j)
    && bool_decide (k < length kpts_k) && bool_decide (a' < length kpts_a)
    && bool_decide (b < length kpts_b)
    && fltb (vsum (vabs (vsub s s_int))) tol_1e_9
| _ => false
end.

(** The three nested loops. *)
Definition fill (a : mat3 F) (kpts kpts_i kpts_j kpts_k kpts_a kpts_b
    : list (vec3 F)) (kconserv : ndarray nat) : ndarray nat :=
fold_left (fun kconserv '(i, kpti) =>
  fold_left (fun kconserv '(j, kptj) =>
    fold_left (fun kconserv '(c, kptc) =>
      setmask kconserv (mask a kpts_k kpts_a kpts_b i j kpti kptj kptc) c)
      (enumerate kpts) kconserv)
    (enumerate kpts_j) kconserv)
  (enumerate kpts_i) kconserv.

(** [[shape[i] for i, x in enumerate(kijkab) if not isinstance(x, (int,np.int))]] *)
Definition new_shape (kijkab : list index_group) (shape : list nat)
  : list nat :=
flat_map (fun '(i, x) => if is_int x then [] else [nth i shape 0])
         (enumerate kijkab).

Definition get_kconserv3 (a : mat3 F) (kpts : list (vec3 F))
    (kijkab : list index_group) : result (ndarray nat) :=
selected ← collect (map (select kpts) kijkab);
match selected with
| [kpts_i; kpts_j; kpts_k; kpts_a; kpts_b] =>
    let shape := map size kijkab in
    let kconserv := zeros shape in
    let kconserv := fill a kpts kpts_i kpts_j kpts_k kpts_a kpts_b kconserv in
    reshape kconserv (new_shape kijkab shape)
| _ => Raise (ValueError "wrong number of values to unpack")
end.

(** Every index of an entry of [kijkab] is below [nkpts]. *)
Definition group_in_range (nkpts : nat) (x : index_group) : Prop :=
match x with
| Int i => i < nkpts
| Indices xs => Forall (fun i => i < nkpts) xs
end.

End KConserv3.
End KConserv3.

(** The claim on the shape in the specification's words: the shape is the
    sequence of the sizes of the five groups without those equal to [1]. *)
Definition singleton_axes_removed (F : Type) `{Arith F} : Prop :=
forall (a : mat3 F) (kpts : list (vec3 F))
       (kijkab : list KConserv3.index_group) (kconserv : ndarray nat),
  length kijkab = 5 ->
  KConserv3.get_kconserv3 a kpts kijkab = Ok kconserv ->
  shape kconserv
  = filter (fun d => d <> 1) (map KConserv3.size kijkab).

(** ** [check_kpt_antiperm_symmetry] *)

Section AntipermSymmetry.
Context {F : Type} `{Arith F} `{Linalg F}.

(** An index into a one-dimensional array: a Python integer or a Python
    float. *)
Inductive index : Type :=
| IntIndex (i : Z)
| FloatIndex (x : Q).

(** The position an index stands for in an array of length [len].  A
    negative integer counts from the end; an integer outside the array
    raises [IndexError], and so does every float, also one with an integral
    value. *)
Definition resolve_index (len : nat) (i : index) : result nat :=
match i with
| IntIndex i =>
    let i' := if (i <? 0)%Z then (i + Z.of_nat len)%Z else i in
    if (0 <=? i')%Z && (i' <? Z.of_nat len)%Z then Ok (Z.to_nat i')
    else Raise (IndexError "index is out of bounds")
| FloatIndex _ =>
    Raise (IndexError "only integers, slices (`:`), ellipsis (`...`), numpy.newaxis (`None`) and integer or boolean arrays are valid indices")
end.

(** [a[i]] read from a one-dimensional array *)
Definition getitem (a : list nat) (i : index) : result nat :=
k ← resolve_index (length a) i; Ok (nth k a 0).

(** [a[i] = v] *)
Definition setitem_at (a : list nat) (i : index) (v : nat)
  : result (list nat) :=
k ← resolve_index (length a) i; Ok (<[k := v]> a).

(** [a[i], a[j] = a[j], a[i]]: [a[j]] and [a[i]] are read, then [a[i]] and
    [a[j]] are written, in this order. *)
Definition swap_items (a : list nat) (i j : index) : result (list nat) :=
aj ← getitem a j; ai ← getitem a i; a ← setitem_at a i aj; setitem_at a j ai.

(** [/] is the true division of Python 3: [nparticles] is a float, here
    the exact quotient, also when [array_shape_len + 1] is a multiple of
    four, and with it [orb_idx1] and [orb_idx2] are floats.  The
    comparisons of the integers [idx1] and [idx2] with the float bound are
    exact.  The sign [(-1)**(abs(idx1 - idx2) + 1)] that the source
    computes is not used by it. *)
Definition check_kpt_antiperm_symmetry (array : ndarray F) (idx1 idx2 : Z)
    (tolerance : F) : result bool :=
if negb ((0 <=? idx1)%Z && (0 <=? idx2)%Z)
then Raise (AssertionError "") else
let array_shape_len := length (shape array) in
let nparticles := ((inject_Z (Z.of_nat array_shape_len) + 1) / 4)%Q in
if negb (Qltb (inject_Z idx1) (2 * nparticles - 1)%Q
         && Qltb (inject_Z idx2) (2 * nparticles - 1)%Q)
then Raise (AssertionError "") else
if Qltb 3%Q nparticles
then Raise (NotImplementedError
              "Currently set up for only up to 3 particle arrays.")
else
let kpt_idx1 := IntIndex idx1 in
let kpt_idx2 := IntIndex idx2 in
let orb_idx1 := FloatIndex ((2 * nparticles - 1) + inject_Z idx1)%Q in
let orb_idx2 := FloatIndex ((2 * nparticles - 1) + inject_Z idx2)%Q in
let out_array_indices := seq 0 array_shape_len in
out_array_indices ← swap_items out_array_indices kpt_idx1 kpt_idx2;
out_array_indices ← swap_items out_array_indices orb_idx1 orb_idx2;
transposed ← transpose array out_array_indices;
total ← add array transposed;
Ok (norm_below (ravel total) tolerance).

(** The permutation of [ndim] axes that swaps [i] with [j] and [k] with
    [l]. *)
Definition swap_axes (ndim i j k l : nat) : list nat :=
map (fun m => if decide (m = i) then j
              else if decide (m = j) then i
              else if decide (m = k) then l
              else if decide (m = l) then k
              else m)
    (seq 0 ndim).

End AntipermSymmetry.

(** Concrete arrays with rational entries. *)
Module Tensors.

(** Shape [(1,1,1,2,2,1,1)], the entry at orbital indices [(p,q,...)] is
    [p - q]. *)
Definition antisymmetric : ndarray Q :=
NDArray [1; 1; 1; 2; 2; 1; 1]
  (fun idx =>
     let p := Z.of_nat (nth 3 idx 0) in
     let q := Z.of_nat (nth 4 idx 0) in
     (inject_Z p - inject_Z q)%Q).

End Tensors.

(** ** [unique] *)

Module Unique.
Section Unique.
Context {F : Type} `{Arith F}.

(** [abs(u - v).sum()] *)
Definition l1_distance (u v : vec3 F) : F := vsum (vabs (vsub u v)).

(** The variables of the loop. *)
Record state := State {
  uniq_kpts : list (vec3 F);
  uniq_index : list nat;
  uniq_inverse : ndarray nat;
  seen : ndarray bool;
  n : nat
}.

(** [idx = abs(kpt-kpts).sum(axis=1) < KPT_DIFF_TOL], a boolean array of
    shape [(nkpts,)] *)
Definition idx (kpts : list (vec3 F)) (kpt : vec3 F) (j : list nat) : bool :=
  match j with
  | [j0] => bool_decide (j0 < length kpts)
            && fltb (l1_distance kpt (kpt_at kpts j0)) KPT_DIFF_TOL
  | _ => false
  end.

Definition init (kpts : list (vec3 F)) : state :=
  let nkpts := length kpts in
  State [] [] (zeros [nkpts]) (zeros_bool [nkpts]) 0.

(** One turn of the loop over [enumerate(kpts)]. *)
Definition step (kpts : list (vec3 F)) (st : state) (e : nat * vec3 F)
  : state :=
  let '(i, kpt) := e in
  if item (seen st) [i] then st
  else
    State (uniq_kpts st ++ [kpt])
          (uniq_index st ++ [i])
          (setmask (uniq_inverse st) (idx kpts kpt) (n st))
          (setmask (seen st) (idx kpts kpt) true)
          (S (n st)).

Definition unique (kpts : list (vec3 F))
  : list (vec3 F) * list nat * ndarray nat :=
  let st := fold_left (step kpts) (enumerate kpts) (init kpts) in
  (uniq_kpts st, uniq_index st, uniq_inverse st).

End Unique.
Arguments state F : clear implicits.
End Unique.

(** What holds of the loop variables of [unique] after the first [m]
    points: the counter is the number of representatives, every point
    marked as seen is mapped to a representative within the tolerance, and
    the points before [m] are marked. *)
Definition unique_inv {F : Type} `{Arith F} (kpts : list (vec3 F)) (m : nat)
    (st : Unique.state F) : Prop :=
  Unique.n st = length (Unique.uniq_kpts st)
  /\ (forall j, item (Unique.seen st) [j] = true ->
        exists rep,
          Unique.uniq_kpts st !! item (Unique.uniq_inverse st) [j] = Some rep
          /\ fltb (Unique.l1_distance rep (kpt_at kpts j)) KPT_DIFF_TOL = true)
  /\ (forall j, j < m -> item (Unique.seen st) [j] = true).

(** The claim on [unique] in the specification's words: for every input
    sequence and every position, the representative exists and is within
    the tolerance of the point. *)
Definition inverse_always_within_tolerance (F : Type) `{Arith F} : Prop :=
  forall (kpts : list (vec3 F)) (i : nat),
    i < length kpts ->
    let '(unique_kpts, _, inverse_map) := Unique.unique kpts in
    exists rep,
      unique_kpts !! item inverse_map [i] = Some rep
      /\ fltb (Unique.l1_distance rep (kpt_at kpts i)) KPT_DIFF_TOL = true.

(** Coordinates with the special values of floating-point numbers: the
    finite numbers, modelled exactly, the two infinities and not-a-number,
    with the arithmetic of IEEE 754 on the special values. *)
Module Extended.

Inductive number : Type :=
| Finite (q : Q)
| PInf
| NInf
| NaN.

Definition neg (x : number) : number :=
match x with
| Finite q => Finite (Qopp q)
| PInf => NInf
| NInf => PInf
| NaN => NaN
end.

(** [inf + (-inf)] is not a number. *)
Definition add (x y : number) : number :=
match x, y with
| NaN, _ | _, NaN => NaN
| PInf, NInf | NInf, PInf => NaN
| PInf, _ | _, PInf => PInf
| NInf, _ | _, NInf => NInf
| Finite a, Finite b => Finite (Qplus a b)
end.

Definition sub (x y : number) : number := add x (neg y).

(** The sign of a finite number: [-1], [0] or [1]. *)
Definition sign (q : Q) : Z := Z.sgn (Qnum q).

(** [inf * 0] is not a number. *)
Definition mul (x y : number) : number :=
let scale (positive : bool) (q : Q) :=
  match sign q with
  | Z0 => NaN
  | Zpos _ => if positive then PInf else NInf
  | Zneg _ => if positive then NInf else PInf
  end in
match x, y with
| NaN, _ | _, NaN => NaN
| Finite a, Finite b => Finite (Qmult a b)
| PInf, Finite b | Finite b, PInf => scale true b
| NInf, Finite b | Finite b, NInf => scale false b
| PInf, PInf | NInf, NInf => PInf
| PInf, NInf | NInf, PInf => NInf
end.

Definition abs (x : number) : number :=
match x with
| Finite q => Finite (Qabs q)
| PInf | NInf => PInf
| NaN => NaN
end.

Definition rint (x : number) : number :=
match x with
| Finite q => Finite (Qrint q)
| _ => x
end.

(** Every comparison with not-a-number is false. *)
Definition ltb (x y : number) : bool :=
match x, y with
| NaN, _ | _, NaN => false
| Finite a, Finite b => Qltb a b
| NInf, Finite _ | NInf, PInf | Finite _, PInf => true
| _, _ => false
end.

#[global] Instance number_arith : Arith number := {|
  fzero := Finite 0%Q;
  fadd := add;
  fsub := sub;
  fmul := mul;
  fabs := abs;
  frint := rint;
  fltb := ltb;
  tol_1e_9 := Finite (1 # 1000000000)%Q;
  KPT_DIFF_TOL := Finite (1 # 1000000)%Q
|}.

(** [[[0, 0, 0], [inf, 0, 0]]] *)
Definition with_infinity : list (vec3 number) :=
  [ (Finite 0%Q, Finite 0%Q, Finite 0%Q); (PInf, Finite 0%Q, Finite 0%Q) ].

End Extended.

(** ** [KptsHelper] *)

(** [collections.OrderedDict]: the items in the order of the first
    insertion of their keys. *)
Module OrderedDict.
Section OrderedDict.
Context {K V : Type} `{EqDecision K}.

Definition t : Type := list (K * V).

(** [d[k] = v] *)
Fixpoint set (d : t) (k : K) (v : V) : t :=
  match d with
  | [] => [(k, v)]
  | (k', v') :: d' =>
      if decide (k' = k) then (k, v) :: d' else (k', v') :: set d' k v
  end.

(** [d[k]] *)
Fixpoint get (d : t) (k : K) : option V :=
  match d with
  | [] => None
  | (k', v') :: d' => if decide (k' = k) then Some v' else get d' k
  end.

(** The value at [k] replaced by its image under [f]. *)
Fixpoint update (d : t) (k : K) (f : V -> V) : t :=
  match d with
  | [] => []
  | (k', v') :: d' =>
      if decide (k' = k) then (k', f v') :: d' else (k', v') :: update d' k f
  end.

Definition keys (d : t) : list K := map fst d.

End OrderedDict.
Arguments t K V : clear implicits.
End OrderedDict.

Module KptsHelper.

(** A tuple [(kp,kq,kr)] of k-point indices. *)
Definition triple : Type := nat * nat * nat.

(** The index [[kp,kq,kr]] into an array of shape [(nkpts,)*3]. *)
Definition index (kpt : triple) : list nat :=
  let '(kp, kq, kr) := kpt in [kp; kq; kr].

(** Modelled from the spec: [lib.cartesian_prod((temp,temp,temp))] with
    [temp = range(0,nkpts)] is defined outside this module; the triples
    are iterated in lexicographic [(p,q,r)] order. *)
Definition cartesian_prod (nkpts : nat) : list triple :=
  flat_map (fun p =>
    flat_map (fun q =>
      map (fun r => (p, q, r)) (seq 0 nkpts)) (seq 0 nkpts)) (seq 0 nkpts).

(** The variables the loop of [__init__] updates. *)
Record loop_state := LoopState {
  completed : ndarray bool;
  loop_operation : ndarray nat;
  loop_symm_map : OrderedDict.t triple (list triple)
}.

(** [self.symm_map[kpt].append(member)] *)
Definition append_member (symm_map : OrderedDict.t triple (list triple))
    (kpt member : triple) : OrderedDict.t triple (list triple) :=
  OrderedDict.update symm_map kpt (fun members => members ++ [member]).

(** The body of [for kpt in kptlist]. *)
Definition visit (kconserv : ndarray nat) (st : loop_state) (kpt : triple)
  : loop_state :=
  let '(kp, kq, kr) := kpt in
  if item (completed st) [kp; kq; kr] then st
  else
    let symm_map := OrderedDict.set (loop_symm_map st) kpt [] in
    let ks := item kconserv [kp; kq; kr] in

    let completed := setitem (completed st) [kp; kq; kr] true in
    let operation := setitem (loop_operation st) [kp; kq; kr] 0 in
    let symm_map := append_member symm_map kpt (kp, kq, kr) in

    let completed := setitem completed [kr; ks; kp] true in
    let operation := setitem operation [kr; ks; kp] 1 in
    let symm_map := append_member symm_map kpt (kr, ks, kp) in

    let completed := setitem completed [kq; kp; ks] true in
    let operation := setitem operation [kq; kp; ks] 2 in
    let symm_map := append_member symm_map kpt (kq, kp, ks) in

    let completed := setitem completed [ks; kr; kq] true in
    let operation := setitem operation [ks; kr; kq] 3 in
    let symm_map := append_member symm_map kpt (ks, kr, kq) in

    LoopState completed operation symm_map.

(** The attributes of a [KptsHelper] object. *)
Record t := Make {
  kconserv : ndarray nat;
  _operation : ndarray nat;
  symm_map : OrderedDict.t triple (list triple)
}.

(** [__init__] from the conservation array on. *)
Definition build (kconserv : ndarray nat) (nkpts : nat) : t :=
  let kptlist := cartesian_prod nkpts in
  let st := fold_left (visit kconserv) kptlist
              (LoopState (zeros_bool [nkpts; nkpts; nkpts])
                         (zeros [nkpts; nkpts; nkpts]) [])
  in
  Make kconserv (loop_operation st) (loop_symm_map st).

Definition __init__ {F : Type} `{Arith F} (a : mat3 F) (kpts : list (vec3 F))
  : t :=
  build (get_kconserv a kpts) (length kpts).

(** The three images of a triple under the conservation array, in the
    order in which [__init__] records them after the triple itself. *)
Definition orbit (kconserv : ndarray nat) (kpt : triple) : list triple :=
  let '(kp, kq, kr) := kpt in
  let ks := item kconserv [kp; kq; kr] in
  [(kp, kq, kr); (kr, ks, kp); (kq, kp, ks); (ks, kr, kq)].

(** A conservation array is orbit-closed when the index it gives for each
    of the three images of a triple leads back to the triple. *)
Definition orbit_closed (kconserv : ndarray nat) (nkpts : nat) : Prop :=
  forall kp kq kr, kp < nkpts -> kq < nkpts -> kr < nkpts ->
    let ks := item kconserv [kp; kq; kr] in
    ks < nkpts
    /\ item kconserv [kr; ks; kp] = kq
    /\ item kconserv [kq; kp; ks] = kr
    /\ item kconserv [ks; kr; kq] = kp.

Definition in_range (nkpts : nat) (kpt : triple) : Prop :=
  let '(kp, kq, kr) := kpt in kp < nkpts /\ kq < nkpts /\ kr < nkpts.

(** Orbit closure, decided by running through the triples. *)
Definition orbit_closedb (kconserv : ndarray nat) (nkpts : nat) : bool :=
  forallb (fun kpt : triple =>
    let '(kp, kq, kr) := kpt in
    let ks := item kconserv [kp; kq; kr] in
    (ks <? nkpts)
    && (item kconserv [kr; ks; kp] =? kq)
    && (item kconserv [kq; kp; ks] =? kr)
    && (item kconserv [ks; kr; kq] =? kp))
    (cartesian_prod nkpts).

(** A triple is non-degenerate when its three images all differ from
    it. *)
Definition nondegenerate (kconserv : ndarray nat) (kpt : triple) : Prop :=
  forall t, t ∈ tail (orbit kconserv kpt) -> t <> kpt.

(** What holds of the loop variables of [__init__] once the triples in
    [done] have been visited: the completed triples are those of the
    recorded orbits; each key is in range and maps to its orbit; no key
    is recorded twice; the visited triples are completed; the operation
    at a non-degenerate key is [0]; no key lies in the orbit of another
    key. *)
Definition loop_inv (kconserv : ndarray nat) (nkpts : nat)
    (done : list triple) (st : loop_state) : Prop :=
  let keys := OrderedDict.keys (loop_symm_map st) in
  (forall t, item (completed st) (index t) = true <->
             exists key, key ∈ keys /\ t ∈ orbit kconserv key)
  /\ (forall key members, (key, members) ∈ loop_symm_map st ->
        members = orbit kconserv key /\ in_range nkpts key)
  /\ NoDup keys
  /\ (forall t, t ∈ done -> item (completed st) (index t) = true)
  /\ (forall key, key ∈ keys -> nondegenerate kconserv key ->
        item (loop_operation st) (index key) = 0)
  /\ (forall k1 k2, k1 ∈ keys -> k2 ∈ keys -> k2 ∈ orbit kconserv k1 ->
        k1 = k2).

End KptsHelper.

(** The claims on the orbits in the specification's words. *)


(** The operation recorded at every key is [0]. *)
Definition operation_zero_at_keys (F : Type) `{Arith F} : Prop :=
  forall (a : mat3 F) (kpts : list (vec3 F)) (key : KptsHelper.triple),
    let h := KptsHelper.__init__ a kpts in
    key ∈ OrderedDict.keys (KptsHelper.symm_map h) ->
    item (KptsHelper._operation h) (KptsHelper.index key) = 0.

(** ** The nested-array codec *)

Module Codec.

(** The element types of the arrays. *)
Inductive dtype : Type := int64 | float64 | complex128.

#[export] Instance dtype_eq_dec : EqDecision dtype.
Proof. solve_decision. Defined.

#[export] Instance Q_eq_dec : EqDecision Q.
Proof. solve_decision. Defined.

(** An array element by its real and its imaginary part; the elements of
    [int64] and [float64] arrays have the imaginary part [0]. *)
Definition scalar : Type := Q * Q.

Definition Qtruncate (x : Q) : Q :=
inject_Z (if Qle_bool 0%Q x then Qfloor x else Qceiling x).

(** The nearest [float64] to a number.  A number of magnitude below
    [2**53] is kept: the integers of that magnitude are [float64] numbers,
    and the other numbers are only found in [float64] and [complex128]
    arrays, whose elements are [float64] numbers.  From [2**53] on the
    number is rounded to the nearest multiple of the unit in the last
    place, [2**(e-52)] for a number from [2**e] to [2**(e+1)], halfway
    cases to the even multiple.  (No element of an array reaches [2**1024],
    from where on the result would be infinite.) *)
Definition round_to_double (x : Q) : Q :=
if Qltb (Qabs x) (inject_Z (2 ^ 53)) then x
else
  let e := Z.log2 (Qfloor (Qabs x)) in
  let ulp := inject_Z (2 ^ (e - 52)) in
  let r := Qmult (Qrint (Qdiv x ulp)) ulp in
  if Qeq_bool r x then x else Qred r.

(** The conversion of a number to [int64] by the cast of C: the fraction
    is dropped; for a number outside the range of [int64] the cast gives
    the smallest [int64] on x86-64. *)
Definition to_int64 (x : Q) : Q :=
let t := Qtruncate x in
if Qle_bool (inject_Z (- 2 ^ 63)) t && Qltb t (inject_Z (2 ^ 63)) then t
else inject_Z (- 2 ^ 63).

(** The conversion of an element that is assigned into an array of the
    element type [t]: to [complex128] both parts are rounded to [float64]
    numbers; to [float64] the imaginary part is discarded and the real part
    rounded; to [int64] the imaginary part is discarded and the real part
    cast. *)
Definition astype (t : dtype) (x : scalar) : scalar :=
match t with
| complex128 => (round_to_double x.1, round_to_double x.2)
| float64 => (round_to_double x.1, 0%Q)
| int64 => (to_int64 x.1, 0%Q)
end.

(** The codec reads and writes arrays through [ravel()] and [reshape]: an
    array is kept as its element type, its shape and its entries in
    row-major order. *)
Record array : Type := Array {
  adtype : dtype;
  ashape : list nat;
  entries : list scalar
}.

(** [a.size] *)
Definition size (a : array) : nat := prod (ashape a).

(** [np.zeros(shape, dtype=dtype)] *)
Definition zeros (shape : list nat) (t : dtype) : array :=
Array t shape (replicate (prod shape) (0%Q, 0%Q)).

(** A one-dimensional array. *)
Record vector : Type := Vector {
  vdtype : dtype;
  vdata : list scalar
}.

(** [np.empty(total_size, dtype=dtype)]; without a [dtype] the elements
    are [float64].  The entries are overwritten before they are read. *)
Definition empty (total_size : nat) (t : option dtype) : vector :=
Vector (default float64 t) (replicate total_size (0%Q, 0%Q)).

(** [vector[offset:]] *)
Definition slice_from (v : vector) (offset : nat) : vector :=
Vector (vdtype v) (drop offset (vdata v)).

(** The data to flatten: an array, a list or tuple, or any other object. *)
Inductive nested : Type :=
| Leaf (a : array)
| Seq (items : list nested)
| Other.

(** The description of nested data: [dict(type="array", shape=...)],
    [dict(type="composite", shape=..., dtype=..., data=...)], a list or
    tuple of descriptions, a dict without the key ["type"], a dict with
    another type, or any other object. *)
Inductive structure : Type :=
| SArray (shape : list nat)
| SComposite (shape : list nat) (t : dtype) (data : structure)
| SSeq (items : list structure)
| SNoType
| SUnknownType
| SOther.

Fixpoint describe_nested (data : nested)
  : result (structure * nat * option dtype) :=
match data with
| Leaf a => Ok (SArray (ashape a), size a, Some (adtype a))
| Seq items =>
    r ← for_each
          (fun '(struct, total_size, dtype) i =>
             r ← describe_nested i;
             let '(i_struct, i_size, i_dtype) := r in
             let struct := struct ++ [i_struct] in
             let total_size := total_size + i_size in
             match dtype, i_dtype with
             | Some t, Some i_t =>
                 if decide (i_t <> t)
                 then Raise (ValueError
                               "Several different numpy dtypes encountered")
                 else Ok (struct, total_size, i_dtype)
             | _, _ => Ok (struct, total_size, i_dtype)
             end)
          items ([], 0, None);
    let '(struct, total_size, dtype) := r in
    Ok (SSeq struct, total_size, dtype)
| Other => Raise (ValueError "Unknown object to describe")
end.

(** [destination[offset:offset + size] = values]: the slice stops at the
    end of [destination]; values of another length than the slice are
    refused, except a single value, which is broadcast. *)
Definition assign_slice (destination : vector) (offset size : nat)
    (values : list scalar) : result vector :=
let n := length (vdata destination) in
let lo := offset `min` n in
let hi := (offset + size) `min` n in
if decide (length values = hi - lo) then
  Ok (Vector (vdtype destination)
        (take lo (vdata destination)
         ++ map (astype (vdtype destination)) values
         ++ drop hi (vdata destination)))
else if decide (length values = 1) then
  Ok (Vector (vdtype destination)
        (take lo (vdata destination)
         ++ flat_map (fun x => replicate (hi - lo) (astype (vdtype destination) x))
                     values
         ++ drop hi (vdata destination)))
else Raise (ValueError "could not broadcast input array").

(** The part of [nested_to_vector] that writes into [destination]; the
    array is updated in place and is returned here with the new offset. *)
Fixpoint store (data : nested) (destination : vector) (offset : nat)
  : result (vector * nat) :=
match data with
| Leaf a =>
    destination ← assign_slice destination offset (size a) (entries a);
    Ok (destination, offset + size a)
| Seq items =>
    for_each (fun '(destination, offset) i => store i destination offset)
             items (destination, offset)
| Other => Raise (ValueError "Unknown object to vectorize")
end.

(** Without a destination the result is the vector and the description,
    with a destination it is the new offset (and the updated destination). *)
Definition nested_to_vector (data : nested) (destination : option vector)
    (offset : nat) : result (vector * structure + vector * nat) :=
match destination with
| None =>
    r ← describe_nested data;
    let '(struct, total_size, dtype) := r in
    let destination := empty total_size dtype in
    r ← store data destination offset;
    Ok (inl (r.1, struct))
| Some destination =>
    r ← store data destination offset;
    Ok (inr (r.1, r.2))
end.

(** What [vector_to_nested] returns: the value, or the pair of the value
    and the number of elements used. *)
Inductive returned : Type :=
| Only (value : nested)
| WithSize (value : nested) (size : nat).

(** [destination[np.ix_( *destination_indexes)] = values]: the block of
    [destination] at the leading indexes is overwritten. *)
Definition assign_block (destination : array) (destination_indexes : list nat)
    (values : list scalar) : result array :=
let k := length destination_indexes in
let leading := take k (ashape destination) in
let block := prod (drop k (ashape destination)) in
if decide (Forall2 lt destination_indexes leading) then
  let start := ravel_multi_index destination_indexes leading * block in
  Ok (Array (adtype destination) (ashape destination)
        (take start (entries destination)
         ++ map (astype (adtype destination)) values
         ++ drop (start + block) (entries destination)))
else Raise (IndexError "index is out of bounds").

Fixpoint vector_to_nested (vector : vector) (struct : structure)
    (copy ensure_size_matches : bool) (destination : option array)
    (destination_indexes : list nat) : result returned :=
match struct with
| SNoType => Raise (ValueError "Missing 'type' key in structure")
| SArray shape =>
    let expected_size := prod shape in
    if ensure_size_matches
       && negb (bool_decide (length (vdata vector) = expected_size))
    then Raise (ValueError "Structure size mismatch")
    else if bool_decide (length (vdata vector) < expected_size)
    then Raise (ValueError "Additional vector elements are required")
    else
      (* [np.prod(())] is the float [1.0], which the slice
         [vector[:expected_size]] does not take as a bound *)
      match destination with
      | None =>
          if decide (shape = [])
          then Raise (TypeError "slice indices must be integers")
          else
            let a := Array (vdtype vector) shape
                       (take expected_size (vdata vector)) in
            if ensure_size_matches then Ok (Only (Leaf a))
            else Ok (WithSize (Leaf a) expected_size)
      | Some destination =>
          if decide (shape <> drop (length destination_indexes)
                                   (ashape destination))
          then Raise (ValueError "Composite array shape mismatch")
          else if decide (shape = [])
          then Raise (TypeError "slice indices must be integers")
          else
            destination ←
              assign_block destination destination_indexes
                (take expected_size (vdata vector));
            if ensure_size_matches then Ok (Only (Leaf destination))
            else Ok (WithSize (Leaf destination) expected_size)
      end
| SComposite shape dtype underlying_struct =>
    target ←
      match destination with
      | Some destination =>
          if decide (shape <> drop (length destination_indexes)
                                   (ashape destination))
          then Raise (ValueError "Composite array shape mismatch")
          else if decide (dtype <> adtype destination)
          then Raise (ValueError "Dtype mismatch")
          else Ok (destination, destination_indexes)
      | None => Ok (zeros shape dtype, [])
      end;
    vector_to_nested vector underlying_struct true ensure_size_matches
      (Some target.1) target.2
| SUnknownType => Raise (ValueError "Unknown structure type")
| SSeq items =>
    match destination with
    | None =>
        r ← for_each
              (fun '(offset, result) i =>
                 r ← vector_to_nested (slice_from vector offset) i copy false
                       None [];
                 match r with
                 | WithSize nested size =>
                     Ok (offset + size, result ++ [nested])
                 | Only _ => Raise (TypeError "cannot unpack the result")
                 end)
              items (0, []);
        let '(offset, result) := r in
        if ensure_size_matches then
          if decide (length (vdata vector) <> offset)
          then Raise (ValueError "additional elements found")
          else Ok (Only (Seq result))
        else Ok (WithSize (Seq result) offset)
    | Some destination =>
        match ashape destination !! length destination_indexes with
        | None => Raise (IndexError "tuple index out of range")
        | Some expected_len =>
            if decide (length items <> expected_len)
            then Raise (ValueError "Nested length mismatch")
            else
              match items with
              | [] =>
                  if ensure_size_matches then
                    if decide (length (vdata vector) <> 0)
                    then Raise (ValueError "additional elements found")
                    else Ok (Only (Leaf destination))
                  else Ok (WithSize (Leaf destination) 0)
              | element :: _ =>
                  (* the first turn of the loop, with [i = 0] and
                     [offset = 0]: the call returns a pair, which
                     [offset += ...] cannot add to an integer *)
                  r ← vector_to_nested (slice_from vector 0) element
                        true false (Some destination)
                        (destination_indexes ++ [0]);
                  Raise (TypeError
                    "unsupported operand type(s) for +=: 'int' and 'tuple'")
              end
        end
    end
| SOther => Raise (ValueError "Unknown object to compose")
end.

(** The element types of the array leaves, from left to right. *)
Fixpoint leaf_dtypes (data : nested) : list dtype :=
match data with
| Leaf a => [adtype a]
| Seq items => flat_map leaf_dtypes items
| Other => []
end.

(** Two elements are the same number. *)
Definition scalar_eqb (x y : scalar) : bool :=
Qeq_bool x.1 y.1 && Qeq_bool x.2 y.2.

Fixpoint list_eqb {A} (eqb : A -> A -> bool) (l1 l2 : list A) : bool :=
match l1, l2 with
| [], [] => true
| x1 :: l1', x2 :: l2' => eqb x1 x2 && list_eqb eqb l1' l2'
| _, _ => false
end.

(** Two nested structures have the same nesting and their arrays have the
    same shapes and, element by element, the same numbers. *)
Fixpoint nested_eqb (x y : nested) : bool :=
match x, y with
| Leaf a, Leaf b =>
    bool_decide (ashape a = ashape b)
    && list_eqb scalar_eqb (entries a) (entries b)
| Seq xs, Seq ys =>
    (fix all2 (xs ys : list nested) :=
       match xs, ys with
       | [], [] => true
       | x' :: xs', y' :: ys' => nested_eqb x' y' && all2 xs' ys'
       | _, _ => false
       end) xs ys
| Other, Other => true
| _, _ => false
end.

(** The number of elements of all leaves. *)
Fixpoint total_size (data : nested) : nat :=
match data with
| Leaf a => size a
| Seq items => list_sum (map total_size items)
| Other => 0
end.

(** The entries of all leaves, from left to right. *)
Fixpoint flatten (data : nested) : list scalar :=
match data with
| Leaf a => entries a
| Seq items => flat_map flatten items
| Other => []
end.

(** The description of data made of arrays and sequences. *)
Fixpoint structure_of (data : nested) : structure :=
match data with
| Leaf a => SArray (ashape a)
| Seq items => SSeq (map structure_of items)
| Other => SOther
end.

(** The data with every leaf converted to the element type [t]. *)
Fixpoint retype (t : dtype) (data : nested) : nested :=
match data with
| Leaf a => Leaf (Array t (ashape a) (map (astype t) (entries a)))
| Seq items => Seq (map (retype t) items)
| Other => Other
end.

(** The data is made of arrays and sequences only, and every array has at
    least one axis and as many entries as its shape says. *)
Fixpoint well_formed (data : nested) : bool :=
match data with
| Leaf a =>
    negb (bool_decide (ashape a = []))
    && bool_decide (length (entries a) = size a)
| Seq items => forallb well_formed items
| Other => false
end.

(** Every leaf has the element type [t] and holds elements of that type. *)
Fixpoint typed (t : dtype) (data : nested) : bool :=
match data with
| Leaf a =>
    bool_decide (adtype a = t)
    && forallb (fun x => bool_decide (astype t x = x)) (entries a)
| Seq items => forallb (typed t) items
| Other => true
end.

(** No sequence in the data is empty. *)
Fixpoint no_empty_sequence (data : nested) : bool :=
match data with
| Leaf _ => true
| Seq items =>
    negb (bool_decide (items = [])) && forallb no_empty_sequence items
| Other => true
end.

(** [vector_to_nested] applied to the two results of [nested_to_vector] *)
Definition round_trip (data : nested) : result returned :=
r ← nested_to_vector data None 0;
match r with
| inl (vector, struct) => vector_to_nested vector struct true true None []
| inr _ => Raise (TypeError "cannot unpack the result")
end.

End Codec.

(** Concrete nested data. *)
Module Samples.
Import Codec.

(** The real numbers [zs] as array elements. *)
Definition reals (zs : list Z) : list scalar :=
map (fun z => (inject_Z z, 0%Q)) zs.

(** The data of the tests: [((a, zeros(5)), (b,))] with [a] of shape
    [(3,1,4)] and [b] of shape [(9,)]. *)
Definition tested : nested :=
Seq [ Seq [ Leaf (Array float64 [3; 1; 4]
                    (reals [1; 2; 3; 4; 5; 6; 7; 8; 9; 10; 11; 12]%Z));
            Leaf (Array float64 [5] (reals [0; 0; 0; 0; 0]%Z)) ];
      Seq [ Leaf (Array float64 [9]
                    (reals [21; 22; 23; 24; 25; 26; 27; 28; 29]%Z)) ] ].

(** The description of the tests in which the first array is a composite
    of three arrays of shape [(1,4)]. *)
Definition tested_composite : structure :=
SSeq [ SSeq [ SComposite [3; 1; 4] float64
                (SSeq [SArray [1; 4]; SArray [1; 4]; SArray [1; 4]]);
              SArray [5] ];
       SSeq [ SArray [9] ] ].

(** [[numpy.array([1+2j]), []]] *)
Definition complex_then_empty : nested :=
Seq [ Leaf (Array complex128 [1] [(1%Q, 2%Q)]); Seq [] ].

(** [[numpy.array([1.5]), [], numpy.array([1])]] *)
Definition float_empty_int : nested :=
Seq [ Leaf (Array float64 [1] [((3 # 2)%Q, 0%Q)]);
      Seq [];
      Leaf (Array int64 [1] [(1%Q, 0%Q)]) ].

(** [[numpy.array([1.5]), numpy.array([1])]] *)
Definition float_int : nested :=
Seq [ Leaf (Array float64 [1] [((3 # 2)%Q, 0%Q)]);
      Leaf (Array int64 [1] [(1%Q, 0%Q)]) ].

(** [[numpy.array(5.)]], an array without axes *)
Definition zero_dimensional : nested :=
Seq [ Leaf (Array float64 [] [(5%Q, 0%Q)]) ].

End Samples.

(** ** Invariants of [unique] on its representatives *)

(** After the first [m] points: there are as many representatives as
    recorded indices; the representative [k] is the point at the recorded
    index, which is below [m]; the recorded indices increase; every point
    within the tolerance of a representative is marked as seen; no
    representative is within the tolerance of an earlier one. *)
Definition unique_inv_reps {F : Type} `{Arith F} (kpts : list (vec3 F))
    (m : nat) (st : Unique.state F) : Prop :=
  length (Unique.uniq_kpts st) = length (Unique.uniq_index st)
  /\ Unique.n st = length (Unique.uniq_kpts st)
  /\ (forall k j, Unique.uniq_index st !! k = Some j ->
        j < m /\ Unique.uniq_kpts st !! k = kpts !! j)
  /\ StronglySorted lt (Unique.uniq_index st)
  /\ (forall k r j, Unique.uniq_kpts st !! k = Some r -> j < length kpts ->
        fltb (Unique.l1_distance r (kpt_at kpts j)) KPT_DIFF_TOL = true ->
        item (Unique.seen st) [j] = true)
  /\ (forall a b ra rb, a < b ->
        Unique.uniq_kpts st !! a = Some ra ->
        Unique.uniq_kpts st !! b = Some rb ->
        fltb (Unique.l1_distance ra rb) KPT_DIFF_TOL = false).

(** Every representative is mapped to itself. *)
Definition unique_inv_self {F : Type} `{Arith F} (st : Unique.state F) : Prop :=
  forall k j, Unique.uniq_index st !! k = Some j ->
    item (Unique.uniq_inverse st) [j] = k.

(** ** [is_zero] and [member] *)

Section Member.
Context {F : Type} `{Arith F}.

(** [abs(np.asarray(kpt)).sum() < KPT_DIFF_TOL] *)
Definition is_zero (kpt : vec3 F) : bool :=
fltb (vsum (vabs kpt)) KPT_DIFF_TOL.

Definition gamma_point : vec3 F -> bool := is_zero.

(** [dk = np.einsum('ki->k', abs(kpts-kpt.ravel()))], the entry at a row *)
Definition dk (kpt row : vec3 F) : F := vsum (vabs (vsub row kpt)).

(** [np.where(dk < KPT_DIFF_TOL)[0]]: the positions of the rows within the
    tolerance, in increasing order. *)
Definition member (kpt : vec3 F) (kpts : list (vec3 F)) : list nat :=
map fst (filter (fun e => fltb (dk kpt e.2) KPT_DIFF_TOL = true)
                (enumerate kpts)).

End Member.

(** ** Invariants of [KptsHelper.__init__] for any conservation array *)

(** Once the triples in [done] have been visited: the completed triples are
    those of the recorded member lists; every key is a triple of k-point
    indices and maps to the list of itself and its three images; no key is
    recorded twice; the visited triples are completed. *)
Definition symm_map_inv (kconserv : ndarray nat) (nkpts : nat)
    (done : list KptsHelper.triple) (st : KptsHelper.loop_state) : Prop :=
  let keys := OrderedDict.keys (KptsHelper.loop_symm_map st) in
  (forall t, item (KptsHelper.completed st) (KptsHelper.index t) = true <->
             exists key, key ∈ keys /\ t ∈ KptsHelper.orbit kconserv key)
  /\ (forall key members, (key, members) ∈ KptsHelper.loop_symm_map st ->
        members = KptsHelper.orbit kconserv key
        /\ KptsHelper.in_range nkpts key)
  /\ NoDup keys
  /\ (forall t, t ∈ done ->
        item (KptsHelper.completed st) (KptsHelper.index t) = true).

(** The operation recorded at a member of the list of a key is a position
    of the member in that list. *)
Definition operation_inv (kconserv : ndarray nat)
    (st : KptsHelper.loop_state) : Prop :=
  forall key u,
    key ∈ OrderedDict.keys (KptsHelper.loop_symm_map st) ->
    u ∈ KptsHelper.orbit kconserv key ->
    KptsHelper.orbit kconserv key
      !! item (KptsHelper.loop_operation st) (KptsHelper.index u)
    = Some u.

(** ** [transform_symm] *)

(** [numpy.conj] of an element; conjugating twice gives the element
    back. *)
Class Conj (A : Type) := {
  conj : A -> A;
  conj_involutive : forall x, conj (conj x) = x
}.

(** Complex numbers by their real and imaginary parts. *)
#[export, refine] Instance complex_conj : Conj (Q * Q) := {|
  conj z := (z.1, Qopp z.2)
|}.
Proof.
  intros [re [n d]]. unfold Qopp. cbn. by rewrite Z.opp_involutive.
Defined.

(** [arr[idx]] for a tuple of as many indices as [arr] has axes, none of
    them negative: an index from the length of its axis on raises
    [IndexError]. *)
Definition getitem_nd {A} (arr : ndarray A) (idx : list nat) : result A :=
if decide (Forall2 lt idx (shape arr)) then Ok (item arr idx)
else Raise (IndexError "index is out of bounds").

(** [numpy.conj(arr)] *)
Definition conj_array {A} `{Conj A} (arr : ndarray A) : ndarray A :=
NDArray (shape arr) (fun idx => conj (item arr idx)).

(** The method returns [None] when the operation is none of [0] to [3]. *)
Definition transform_symm {A} `{Conj A} (self : KptsHelper.t)
    (eri_kpt : ndarray A) (kp kq kr : nat) : result (option (ndarray A)) :=
operation ← getitem_nd (KptsHelper._operation self) [kp; kq; kr];
if decide (operation = 0) then Ok (Some eri_kpt)
else if decide (operation = 1) then
  r ← transpose eri_kpt [2; 3; 0; 1]; Ok (Some r)
else if decide (operation = 2) then
  r ← transpose eri_kpt [1; 0; 3; 2]; Ok (Some (conj_array r))
else if decide (operation = 3) then
  r ← transpose eri_kpt [3; 2; 1; 0]; Ok (Some (conj_array r))
else Ok None.

(** ** [loop_kkk] *)

(** [itertools.product(range_nkpts, range_nkpts, range_nkpts)], as the
    list of the tuples it yields: the last index runs fastest. *)
Definition loop_kkk (nkpts : nat) : list (nat * nat * nat) :=
let range_nkpts := seq 0 nkpts in
kk ← range_nkpts; kl ← range_nkpts; km ← range_nkpts; [(kk, kl, km)].

(** A helper of complex tensors. *)
Module Eris.

(** Shape [(2,1,3,1)], the entry at [(p,q,r,s)] is [p + i r]. *)
Definition ramp : ndarray (Q * Q) :=
NDArray [2; 1; 3; 1]
  (fun idx => (inject_Z (Z.of_nat (nth 0 idx 0)),
               inject_Z (Z.of_nat (nth 2 idx 0)))).

End Eris.

(** ** What the codec reports and accepts *)

Module CodecShapes.
Import Codec.

(** The value of [dtype] when the loop of [describe_nested] ends: the
    element type reported for the last item, [None] for an empty
    sequence. *)
Fixpoint reported_dtype (data : nested) : option dtype :=
match data with
| Leaf a => Some (adtype a)
| Seq items => fold_left (fun _ i => reported_dtype i) items None
| Other => None
end.

(** A description made of array descriptions with at least one axis and
    of sequences. *)
Fixpoint plain (struct : structure) : bool :=
match struct with
| SArray shape => negb (bool_decide (shape = []))
| SSeq items => forallb plain items
| _ => false
end.

(** The number of elements a plain description stands for. *)
Fixpoint structure_size (struct : structure) : nat :=
match struct with
| SArray shape => prod shape
| SSeq items => list_sum (map structure_size items)
| _ => 0
end.

(** No sequence of a plain description is empty. *)
Fixpoint no_empty_list (struct : structure) : bool :=
match struct with
| SSeq items => negb (bool_decide (items = [])) && forallb no_empty_list items
| _ => true
end.

End CodecShapes.

(** What a restored value has to do with the description [struct] and the
    elements [xs] it was read from, in a vector of element type [t]. *)
Definition restored (t : Codec.dtype) (struct : Codec.structure)
    (xs : list Codec.scalar) (d : Codec.nested) : Prop :=
  Codec.structure_of d = struct
  /\ Codec.flatten d = xs
  /\ Codec.well_formed d = true
  /\ Forall (fun t' => t' = t) (Codec.leaf_dtypes d).

(** ** The entries of [get_kconserv3] *)

Module KConserv3Entries.
Section KConserv3Entries.
Context {F : Type} `{Arith F}.
Import KConserv3.

(** The k-point indices an entry of [kijkab] stands for. *)
Definition indices (x : index_group) : list nat :=
match x with Int i => [i] | Indices xs => xs end.

(** The index into the array before [reshape] for an index into the
    result: [0] along the axes of the entries given as an integer. *)
Fixpoint expand (kijkab : list index_group) (idx : list nat) : list nat :=
match kijkab with
| [] => []
| Int _ :: rest => 0 :: expand rest idx
| Indices _ :: rest =>
    match idx with
    | i :: idx' => i :: expand rest idx'
    | [] => 0 :: expand rest []
    end
end.

(** The test that candidate [kc] passes for the k-points with the indices
    [ki], [kj], [kk], [ka], [kb]: the sum over the three components of the
    distances of
    [(kpts[kk] - kpts[ka] - kpts[kb] + kpts[ki] + kpts[kj] - kpts[kc]) . a]
    to the nearest integers is below [1e-9]. *)
Definition conserves3 (a : mat3 F) (kpts : list (vec3 F))
    (ki kj kk ka kb kc : nat) : bool :=
let kv := vsub (vsub (kpt_at kpts kk) (kpt_at kpts ka)) (kpt_at kpts kb) in
let s := matvec a (vsub (vadd (vadd kv (kpt_at kpts ki)) (kpt_at kpts kj))
                        (kpt_at kpts kc)) in
fltb (vsum (vabs (vsub s (vrint s)))) tol_1e_9.

End KConserv3Entries.
End KConserv3Entries.


(** ** The order of the keys of [symm_map] *)

(** The order in which [lib.cartesian_prod] lists the triples: the first
    index that differs decides. *)
Definition lex_lt (s t : KptsHelper.triple) : Prop :=
  let '(p, q, r) := s in
  let '(p', q', r') := t in
  p < p' \/ (p = p' /\ (q < q' \/ (q = q' /\ r < r'))).

(** Every key comes before the other members of its list. *)
Definition keys_first (kconserv : ndarray nat) (st : KptsHelper.loop_state)
  : Prop :=
  forall key u,
    key ∈ OrderedDict.keys (KptsHelper.loop_symm_map st) ->
    u ∈ KptsHelper.orbit kconserv key ->
    u = key \/ lex_lt key u.

(** The keys are triples that have been visited, in the order of the
    visits. *)
Definition keys_increasing (done : list KptsHelper.triple)
    (st : KptsHelper.loop_state) : Prop :=
  StronglySorted lex_lt (OrderedDict.keys (KptsHelper.loop_symm_map st))
  /\ forall key, key ∈ OrderedDict.keys (KptsHelper.loop_symm_map st) ->
                 key ∈ done.

(** What holds of the loop variables of [unique] after the first [m]
    points when no two points are within the tolerance of each other: the
    representatives are the first [m] points, the point [j] is seen when
    [j] is below [m], and the points below [m] are mapped to
    themselves. *)
Definition unique_inv_separated {F : Type} `{Arith F} (kpts : list (vec3 F))
    (m : nat) (st : Unique.state F) : Prop :=
  Unique.uniq_kpts st = take m kpts
  /\ Unique.uniq_index st = seq 0 m
  /\ Unique.n st = m
  /\ (forall j, item (Unique.seen st) [j] = true <-> j < m)
  /\ (forall j, j < m -> item (Unique.uniq_inverse st) [j] = j).

(** * Properties *)

Lemma Qltb_lt (x y : Q) : Qltb x y = true <-> (x < y)%Q.
Proof.
  unfold Qltb. rewrite negb_true_iff.
  destruct (Qle_bool y x) eqn:E.
  - apply Qle_bool_iff in E. split; [discriminate|].
    intros Hlt. exfalso. exact (Qlt_not_le _ _ Hlt E).
  - split; [intros _|reflexivity].
    apply Qnot_le_lt. intros Hle. apply Qle_bool_iff in Hle. congruence.
Qed.

Section KConservFacts.
Context {F : Type} `{Arith F}.
Implicit Types (a : mat3 F) (kpts : list (vec3 F)).

Lemma enumerate_take_S {A} (l : list A) m x :
  l !! m = Some x ->
  take (S m) (enumerate l) = take m (enumerate l) ++ [(m, x)].
Proof.
  intros Hm. apply take_S_r. unfold enumerate.
  rewrite list_lookup_imap, Hm. reflexivity.
Qed.

Lemma kpt_at_lookup kpts m x : kpts !! m = Some x -> kpt_at kpts m = x.
Proof. intros Hm. unfold kpt_at. by apply nth_lookup_Some. Qed.

Lemma mask_conserves a kpts p q r N :
  p < length kpts -> q < length kpts -> r < length kpts ->
  kconserv_mask a kpts (kpt_at kpts N) [p; q; r] = conserves a kpts p q r N.
Proof.
  intros Hp Hq Hr. unfold kconserv_mask, conserves.
  rewrite !bool_decide_eq_true_2 by assumption. reflexivity.
Qed.

(** After the candidates below [m], an entry no candidate matched still
    holds its initial value. *)
Lemma kconserv_prefix_none a kpts kc0 p q r m :
  p < length kpts -> q < length kpts -> r < length kpts ->
  m <= length kpts ->
  (forall N, N < m -> conserves a kpts p q r N = false) ->
  item (fold_left (kconserv_step a kpts) (take m (enumerate kpts)) kc0)
       [p; q; r] = item kc0 [p; q; r].
Proof.
  intros Hp Hq Hr. induction m as [|m IH]; intros Hm Hnone.
  - reflexivity.
  - destruct (lookup_lt_is_Some_2 kpts m ltac:(lia)) as [x Hx].
    rewrite (enumerate_take_S _ _ _ Hx), fold_left_app.
    cbn [fold_left kconserv_step setmask item fst snd].
    rewrite <- (kpt_at_lookup _ _ _ Hx), mask_conserves by assumption.
    rewrite Hnone by lia. apply IH; [lia|]. intros N HN. apply Hnone. lia.
Qed.

(** After the candidates below [m], an entry holds the last candidate
    that matched. *)
Lemma kconserv_prefix_last a kpts kc0 p q r m N :
  p < length kpts -> q < length kpts -> r < length kpts ->
  m <= length kpts -> N < m ->
  conserves a kpts p q r N = true ->
  (forall M, N < M -> M < m -> conserves a kpts p q r M = false) ->
  item (fold_left (kconserv_step a kpts) (take m (enumerate kpts)) kc0)
       [p; q; r] = N.
Proof.
  intros Hp Hq Hr. induction m as [|m IH]; intros Hm HN Hyes Hlater.
  - lia.
  - destruct (lookup_lt_is_Some_2 kpts m ltac:(lia)) as [x Hx].
    rewrite (enumerate_take_S _ _ _ Hx), fold_left_app.
    cbn [fold_left kconserv_step setmask item fst snd].
    rewrite <- (kpt_at_lookup _ _ _ Hx), mask_conserves by assumption.
    destruct (decide (N = m)) as [->|Hne].
    + rewrite Hyes. reflexivity.
    + rewrite Hlater by lia. apply IH; [lia|lia|assumption|].
      intros M H1 H2. apply Hlater; lia.
Qed.

Lemma get_kconserv_fold a kpts :
  get_kconserv a kpts =
  fold_left (kconserv_step a kpts) (take (length kpts) (enumerate kpts))
            (zeros [length kpts; length kpts; length kpts]).
Proof.
  unfold get_kconserv. rewrite take_ge; [reflexivity|].
  unfold enumerate. rewrite length_imap. lia.
Qed.

End KConservFacts.

(** C9: when no candidate passes the residual test at a triple, the entry
    of [get_kconserv] at that triple is the value [0] the array was
    initialised with; no error is reported, and the entry is the same as
    the one returned wherever candidate [0] is the only one that passes. *)
Theorem get_kconserv_no_candidate
    {F : Type} `{Arith F} (a : mat3 F) (kpts : list (vec3 F)) (p q r : nat) :
  p < length kpts -> q < length kpts -> r < length kpts ->
  (forall N, N < length kpts -> conserves a kpts p q r N = false) ->
  item (get_kconserv a kpts) [p; q; r] = 0
  /\ forall (a' : mat3 F) (kpts' : list (vec3 F)) (p' q' r' : nat),
       p' < length kpts' -> q' < length kpts' -> r' < length kpts' ->
       conserves a' kpts' p' q' r' 0 = true ->
       (forall M, 0 < M -> M < length kpts' ->
                  conserves a' kpts' p' q' r' M = false) ->
       item (get_kconserv a' kpts') [p'; q'; r']
       = item (get_kconserv a kpts) [p; q; r].
Proof.
  intros Hp Hq Hr Hnone.
  assert (Hzero : item (get_kconserv a kpts) [p; q; r] = 0).
  { rewrite get_kconserv_fold, kconserv_prefix_none; auto. }
  split; [exact Hzero|].
  intros a' kpts' p' q' r' Hp' Hq' Hr' H0 Hlater.
  rewrite Hzero, get_kconserv_fold.
  apply kconserv_prefix_last; auto; lia.
Qed.

Lemma get_kconserv_no_candidate_witness :
  item (get_kconserv Grids.identity3 Grids.open2) [0; 1; 0] = 0.
Proof.
  apply (get_kconserv_no_candidate Grids.identity3 Grids.open2 0 1 0);
    [simpl; lia | simpl; lia | simpl; lia |].
  intros N HN. simpl in HN.
  destruct N as [|[|N]]; [vm_compute; reflexivity | vm_compute; reflexivity | lia].
Defined.

(** C10: when several candidates pass the residual test at a triple, the
    entry of [get_kconserv] is the largest of them: the candidates are
    tried in increasing order and each one that passes overwrites the
    entry. *)
Theorem get_kconserv_largest_candidate
    {F : Type} `{Arith F} (a : mat3 F) (kpts : list (vec3 F)) (p q r N : nat) :
  p < length kpts -> q < length kpts -> r < length kpts ->
  N < length kpts ->
  conserves a kpts p q r N = true ->
  (forall M, M < length kpts -> conserves a kpts p q r M = true -> M <= N) ->
  item (get_kconserv a kpts) [p; q; r] = N.
Proof.
  intros Hp Hq Hr HN Hyes Hmax.
  rewrite get_kconserv_fold. apply kconserv_prefix_last; auto.
  intros M H1 H2. destruct (conserves a kpts p q r M) eqn:E; [|reflexivity].
  specialize (Hmax M H2 E). lia.
Qed.

Lemma get_kconserv_largest_candidate_witness :
  conserves Grids.identity3 Grids.doubled 0 0 0 0 = true
  /\ conserves Grids.identity3 Grids.doubled 0 0 0 1 = true
  /\ item (get_kconserv Grids.identity3 Grids.doubled) [0; 0; 0] = 1.
Proof.
  split; [vm_compute; reflexivity|]. split; [vm_compute; reflexivity|].
  apply (get_kconserv_largest_candidate Grids.identity3 Grids.doubled 0 0 0 1);
    [simpl; lia | simpl; lia | simpl; lia | simpl; lia
    | vm_compute; reflexivity |].
  intros M HM _. simpl in HM. lia.
Defined.

(** C1, as the code has it: whenever exactly one candidate [s] brings the
    sum over the three components of the residual of
    [(kpts[p] - kpts[q] + kpts[r] - kpts[s]) . a] below [1e-9], the entry of
    [get_kconserv] at [(p,q,r)] is [s]. *)
Theorem get_kconserv_unique_candidate
    {F : Type} `{Arith F} (a : mat3 F) (kpts : list (vec3 F)) (p q r s : nat) :
  p < length kpts -> q < length kpts -> r < length kpts ->
  s < length kpts ->
  conserves a kpts p q r s = true ->
  (forall s', s' < length kpts -> conserves a kpts p q r s' = true -> s' = s) ->
  item (get_kconserv a kpts) [p; q; r] = s.
Proof.
  intros Hp Hq Hr Hs Hyes Huniq.
  rewrite get_kconserv_fold. apply kconserv_prefix_last; auto.
  intros M H1 H2. destruct (conserves a kpts p q r M) eqn:E; [|reflexivity].
  specialize (Huniq M H2 E). lia.
Qed.

Lemma get_kconserv_unique_candidate_witness :
  item (get_kconserv Grids.identity3 Grids.grid2) [1; 0; 0] = 1.
Proof.
  apply (get_kconserv_unique_candidate Grids.identity3 Grids.grid2 1 0 0 1);
    [simpl; lia | simpl; lia | simpl; lia | simpl; lia
    | vm_compute; reflexivity |].
  intros s' Hs'. simpl in Hs'.
  destruct s' as [|[|s']]; [vm_compute; discriminate | reflexivity | lia].
Defined.

(** C1, as the specification words it, fails: in [Grids.skewed] candidate
    [2] is the only one that brings every component of the residual at
    [(1,0,1)] below [1e-9], the three components sum to more than [1e-9],
    and the entry stays [0]. *)
Lemma get_kconserv_componentwise_counterexample :
  ~ picks_unique_componentwise Q.
Proof.
  intros Hclaim.
  specialize (Hclaim Grids.identity3 Grids.skewed 1 0 1 2).
  assert (Hentry : item (get_kconserv Grids.identity3 Grids.skewed) [1; 0; 1] = 0)
    by (vm_compute; reflexivity).
  rewrite Hentry in Hclaim.
  enough (0 = 2) by discriminate.
  apply Hclaim; [simpl; lia | simpl; lia | simpl; lia | simpl; lia
                | vm_compute; reflexivity |].
  intros s' Hs'. simpl in Hs'.
  destruct s' as [|[|[|s']]];
    [vm_compute; discriminate | vm_compute; discriminate | reflexivity | lia].
Qed.

(** ** [unique] *)

Section UniqueFacts.
Context {F : Type} `{Arith F}.
Implicit Types (kpts : list (vec3 F)) (st : Unique.state F).

Lemma unique_inv_init kpts : unique_inv kpts 0 (Unique.init kpts).
Proof.
  repeat split.
  - intros j Hj. discriminate Hj.
  - intros j Hj. lia.
Qed.

Lemma unique_inv_step kpts m x st :
  fltb (Unique.l1_distance x x) KPT_DIFF_TOL = true ->
  kpts !! m = Some x ->
  unique_inv kpts m st ->
  unique_inv kpts (S m) (Unique.step kpts st (m, x)).
Proof.
  intros Hrefl Hx (Hn & Hseen & Hdone).
  assert (Hm : m < length kpts) by (apply lookup_lt_is_Some; eauto).
  unfold Unique.step.
  destruct (item (Unique.seen st) [m]) eqn:Em.
  - repeat split; [exact Hn | exact Hseen |].
    intros j Hj. destruct (decide (j = m)) as [->|]; [exact Em|].
    apply Hdone. lia.
  - repeat split; cbn [Unique.n Unique.uniq_kpts Unique.uniq_inverse
                        Unique.seen setmask item].
    + rewrite length_app. simpl. lia.
    + intros j Hj. destruct (Unique.idx kpts x [j]) eqn:Ej.
      * exists x. split.
        -- rewrite Hn. apply list_lookup_middle. reflexivity.
        -- simpl in Ej. apply andb_true_iff in Ej. apply Ej.
      * destruct (Hseen j Hj) as (rep & Hrep & Hclose).
        exists rep. split; [|exact Hclose].
        apply lookup_app_l_Some. exact Hrep.
    + intros j Hj. destruct (Unique.idx kpts x [j]) eqn:Ej; [reflexivity|].
      destruct (decide (j = m)) as [->|]; [|apply Hdone; lia].
      simpl in Ej. rewrite bool_decide_eq_true_2 in Ej by exact Hm.
      rewrite (kpt_at_lookup _ _ _ Hx), Hrefl in Ej. discriminate Ej.
Qed.

Lemma unique_inv_prefix kpts m :
  (forall x, x ∈ kpts -> fltb (Unique.l1_distance x x) KPT_DIFF_TOL = true) ->
  m <= length kpts ->
  unique_inv kpts m
    (fold_left (Unique.step kpts) (take m (enumerate kpts)) (Unique.init kpts)).
Proof.
  intros Hrefl. induction m as [|m IH]; intros Hm.
  - apply unique_inv_init.
  - destruct (lookup_lt_is_Some_2 kpts m ltac:(lia)) as [x Hx].
    rewrite (enumerate_take_S _ _ _ Hx), fold_left_app.
    apply unique_inv_step; [|exact Hx|apply IH; lia].
    apply Hrefl. eapply list_elem_of_lookup_2. exact Hx.
Qed.

(** Every point is within the tolerance of the representative it is
    mapped to, as soon as every point is within the tolerance of itself. *)
Lemma unique_inverse_close kpts i :
  (forall x, x ∈ kpts -> fltb (Unique.l1_distance x x) KPT_DIFF_TOL = true) ->
  i < length kpts ->
  let '(unique_kpts, _, inverse_map) := Unique.unique kpts in
  exists rep,
    unique_kpts !! item inverse_map [i] = Some rep
    /\ fltb (Unique.l1_distance rep (kpt_at kpts i)) KPT_DIFF_TOL = true.
Proof.
  intros Hrefl Hi. unfold Unique.unique.
  pose proof (unique_inv_prefix kpts (length kpts) Hrefl (le_n _))
    as (_ & Hseen & Hdone).
  rewrite take_ge in Hseen, Hdone
    by (unfold enumerate; rewrite length_imap; lia).
  apply Hseen, Hdone, Hi.
Qed.

End UniqueFacts.

Lemma Q_l1_distance_refl (x : vec3 Q) :
  fltb (Unique.l1_distance x x) KPT_DIFF_TOL = true.
Proof.
  destruct x as [[a b] c].
  unfold Unique.l1_distance, vsum, vabs, vsub, vmap, vzip.
  cbn [fltb fadd fabs fsub KPT_DIFF_TOL Q_arith].
  apply Qltb_lt.
  assert (Hz : forall t : Q, (Qabs (t - t) == 0)%Q).
  { intros t. rewrite (Qabs_wd (t - t) 0); [reflexivity | ring]. }
  rewrite !Hz. reflexivity.
Qed.

(** C7, as the code has it: for every list of points of which each is
    within the tolerance of itself, as every point with finite coordinates
    is, and every position [i], the representative
    [unique_kpts[inverse_map[i]]] exists and the sum of the absolute
    differences of its components to those of [kpts[i]] is strictly below
    the tolerance. *)
Theorem unique_inverse_within_tolerance
    {F : Type} `{Arith F} (kpts : list (vec3 F)) (i : nat) :
  (forall x, x ∈ kpts -> fltb (Unique.l1_distance x x) KPT_DIFF_TOL = true) ->
  i < length kpts ->
  let '(unique_kpts, _, inverse_map) := Unique.unique kpts in
  exists rep,
    unique_kpts !! item inverse_map [i] = Some rep
    /\ fltb (Unique.l1_distance rep (kpt_at kpts i)) KPT_DIFF_TOL = true.
Proof.
  intros Hrefl Hi. by apply unique_inverse_close.
Qed.

Lemma unique_inverse_within_tolerance_witness :
  let '(unique_kpts, _, inverse_map) := Unique.unique Grids.chain in
  exists rep,
    unique_kpts !! item inverse_map [1] = Some rep
    /\ fltb (Unique.l1_distance rep (kpt_at Grids.chain 1)) KPT_DIFF_TOL = true.
Proof.
  apply (unique_inverse_within_tolerance Grids.chain 1).
  - intros x _. apply Q_l1_distance_refl.
  - simpl. lia.
Defined.

(** C7, as the specification words it, fails: in [[[0,0,0], [inf,0,0]]] the
    second point is not within the tolerance of itself, [inf - inf] being
    not a number; it is never marked as seen, its entry of the inverse map
    keeps the [0] of [numpy.zeros], and the first point is at an infinite
    distance of it. *)
Lemma unique_inverse_counterexample :
  ~ inverse_always_within_tolerance Extended.number.
Proof.
  intros Hclaim.
  specialize (Hclaim Extended.with_infinity 1 ltac:(simpl; lia)).
  assert (Hreps : (Unique.unique Extended.with_infinity).1.1
                  = Extended.with_infinity) by (vm_compute; reflexivity).
  assert (Hinv : item (Unique.unique Extended.with_infinity).2 [1] = 0)
    by (vm_compute; reflexivity).
  destruct (Unique.unique Extended.with_infinity) as [[reps first] inv].
  cbn [fst snd] in Hreps, Hinv. subst reps.
  destruct Hclaim as (rep & Hrep & Hclose).
  rewrite Hinv in Hrep. cbn in Hrep. injection Hrep as <-.
  vm_compute in Hclose. discriminate Hclose.
Qed.

(** The middle point of the chain is first attached to the first point and
    then moved to the last: it ends up with the second representative. *)
Example unique_chain :
  let '(unique_kpts, uniq_index, inverse_map) := Unique.unique Grids.chain in
  unique_kpts = [(0, 0, 0); (12 # 10000000, 0, 0)]%Q
  /\ uniq_index = [0; 2]
  /\ map (fun i => item inverse_map [i]) [0; 1; 2] = [0; 1; 1].
Proof. vm_compute. repeat split. Qed.

(** ** [KptsHelper] *)

Example build_grid2 :
  let h := KptsHelper.__init__ Grids.identity3 Grids.grid2 in
  KptsHelper.symm_map h =
    [ ((0,0,0), [(0,0,0); (0,0,0); (0,0,0); (0,0,0)]);
      ((0,0,1), [(0,0,1); (1,1,0); (0,0,1); (1,1,0)]);
      ((0,1,0), [(0,1,0); (0,1,0); (1,0,1); (1,0,1)]);
      ((0,1,1), [(0,1,1); (1,0,0); (1,0,0); (0,1,1)]);
      ((1,1,1), [(1,1,1); (1,1,1); (1,1,1); (1,1,1)]) ].
Proof. vm_compute. reflexivity. Qed.

Section OrderedDictFacts.
Context {K V : Type} `{EqDecision K}.
Implicit Types (d : OrderedDict.t K V).

Lemma od_set_fresh d k v :
  k ∉ OrderedDict.keys d -> OrderedDict.set d k v = d ++ [(k, v)].
Proof.
  induction d as [|[k' v'] d IH]; intros Hk; [reflexivity|].
  simpl in *. apply not_elem_of_cons in Hk as [Hne Hk].
  rewrite decide_False by congruence. by rewrite IH.
Qed.

Lemma od_update_last d k v f :
  k ∉ OrderedDict.keys d ->
  OrderedDict.update (d ++ [(k, v)]) k f = d ++ [(k, f v)].
Proof.
  induction d as [|[k' v'] d IH]; intros Hk; simpl in *.
  - by rewrite decide_True.
  - apply not_elem_of_cons in Hk as [Hne Hk].
    rewrite decide_False by congruence. by rewrite IH.
Qed.
End OrderedDictFacts.

Section OrbitFacts.
Import KptsHelper.
Variables (kc : ndarray nat) (n : nat).
Hypothesis Hclosed : orbit_closed kc n.

Lemma index_inj t t' : index t = index t' -> t = t'.
Proof. destruct t as [[? ?] ?], t' as [[? ?] ?]. simpl. congruence. Qed.

Lemma orbit_self k : k ∈ orbit kc k.
Proof. destruct k as [[p q] r]. simpl. left. Qed.

Lemma orbit_in_range k t : in_range n k -> t ∈ orbit kc k -> in_range n t.
Proof.
  destruct k as [[p q] r]. intros (Hp & Hq & Hr) Ht.
  destruct (Hclosed p q r Hp Hq Hr) as (Hs & _).
  simpl in Ht. rewrite !elem_of_cons, elem_of_nil in Ht.
  destruct Ht as [->|[->|[->|[->|Hf]]]]; simpl; tauto.
Qed.

Lemma orbit_perm k t :
  in_range n k -> t ∈ orbit kc k -> forall u, u ∈ orbit kc t <-> u ∈ orbit kc k.
Proof.
  destruct k as [[p q] r]. intros (Hp & Hq & Hr) Ht u.
  destruct (Hclosed p q r Hp Hq Hr) as (Hs & H1 & H2 & H3).
  simpl in Ht. rewrite !elem_of_cons, elem_of_nil in Ht.
  destruct Ht as [->|[->|[->|[->|Hf]]]]; [..|destruct Hf];
    simpl; rewrite ?H1, ?H2, ?H3, !elem_of_cons, !elem_of_nil; tauto.
Qed.
End OrbitFacts.

Section LoopFacts.
Import KptsHelper.
Variables (kc : ndarray nat) (n : nat).
Hypothesis Hclosed : orbit_closed kc n.

Lemma visit_completed st t :
  item (completed st) (index t) = true -> visit kc st t = st.
Proof. destruct t as [[p q] r]. simpl. intros ->. reflexivity. Qed.

Lemma visit_fresh st t :
  item (completed st) (index t) = false ->
  t ∉ OrderedDict.keys (loop_symm_map st) ->
  let st' := visit kc st t in
  loop_symm_map st' = loop_symm_map st ++ [(t, orbit kc t)]
  /\ (forall u, item (completed st') (index u) = true <->
                u ∈ orbit kc t \/ item (completed st) (index u) = true)
  /\ (forall u, u ∉ orbit kc t ->
        item (loop_operation st') (index u) = item (loop_operation st) (index u))
  /\ (nondegenerate kc t -> item (loop_operation st') (index t) = 0).
Proof.
  destruct t as [[p q] r]. intros Hc Hk. cbn zeta. unfold visit.
  cbn [index] in Hc. rewrite Hc.
  cbn [loop_symm_map completed loop_operation].
  split; [|split; [|split]].
  - unfold append_member.
    rewrite (od_set_fresh _ _ _ Hk).
    rewrite !(od_update_last _ _ _ _ Hk). reflexivity.
  - intros [[a b] c]. cbn [index orbit setitem item].
    rewrite !elem_of_cons, elem_of_nil.
    repeat case_decide; simplify_eq; try tauto.
    intuition congruence.
  - intros [[a b] c]. cbn [index orbit setitem item].
    rewrite !elem_of_cons, elem_of_nil. intros Hu.
    repeat case_decide; simplify_eq; tauto.
  - intros Hnd. cbn [index orbit setitem item].
    unfold nondegenerate in Hnd. cbn [orbit tail] in Hnd.
    repeat case_decide; simplify_eq; try reflexivity;
      exfalso; eapply Hnd; try reflexivity;
      rewrite !elem_of_cons;
      first [ left; congruence | right; left; congruence
            | right; right; left; congruence ].
Qed.
End LoopFacts.

Section LoopInvariant.
Import KptsHelper.
Variables (kc : ndarray nat) (n : nat).
Hypothesis Hclosed : orbit_closed kc n.

Lemma loop_inv_init :
  loop_inv kc n []
    (LoopState (zeros_bool [n; n; n]) (zeros [n; n; n]) []).
Proof.
  unfold loop_inv. cbn. split; [|split; [|split; [|split; [|split]]]].
  - intros t. split; [intros Hf; discriminate Hf|].
    intros (key & Hkey & _). by apply elem_of_nil in Hkey.
  - intros key members Hin. by apply elem_of_nil in Hin.
  - constructor.
  - intros t Ht. by apply elem_of_nil in Ht.
  - intros key Hkey. by apply elem_of_nil in Hkey.
  - intros k1 k2 Hk1. by apply elem_of_nil in Hk1.
Qed.

Lemma loop_inv_visit done st t :
  in_range n t ->
  loop_inv kc n done st ->
  loop_inv kc n (done ++ [t]) (visit kc st t).
Proof.
  intros Ht (Hcompl & Hmem & Hnodup & Hdone & Hop & Hsep).
  destruct (item (completed st) (index t)) eqn:Ec.
  - rewrite (visit_completed _ _ _ Ec).
    split; [exact Hcompl|]. split; [exact Hmem|]. split; [exact Hnodup|].
    split; [|split; [exact Hop|exact Hsep]].
    intros u Hu. apply elem_of_app in Hu as [Hu|Hu]; [by apply Hdone|].
      apply list_elem_of_singleton in Hu as ->. exact Ec.
  - assert (Hfresh : forall key, key ∈ OrderedDict.keys (loop_symm_map st) ->
                       (t ∉ orbit kc key) /\ (key ∉ orbit kc t)).
    { intros key Hkey.
      assert (Hnot : t ∉ orbit kc key).
      { intros Hin. assert (item (completed st) (index t) = true)
          by (apply Hcompl; eauto). congruence. }
      split; [exact Hnot|]. intros Hin. apply Hnot.
      apply (orbit_perm kc n Hclosed t key Ht Hin), orbit_self. }
    assert (Hk : t ∉ OrderedDict.keys (loop_symm_map st)).
    { intros Hin. apply (proj1 (Hfresh t Hin)), orbit_self. }
    destruct (visit_fresh kc st t Ec Hk) as (Hmap & Hc' & Hop' & Hop0).
    unfold loop_inv. rewrite Hmap. unfold OrderedDict.keys in *.
    rewrite map_app. cbn [map fst].
    split; [|split; [|split; [|split; [|split]]]].
    + intros u. rewrite Hc', Hcompl. split.
      * intros [Hu|(key & Hkey & Hu)].
        -- exists t. split; [apply elem_of_app; right; left|exact Hu].
        -- exists key. split; [apply elem_of_app; by left|exact Hu].
      * intros (key & Hkey & Hu). apply elem_of_app in Hkey as [Hkey|Hkey].
        -- right. eauto.
        -- apply list_elem_of_singleton in Hkey as ->. by left.
    + intros key members Hin. apply elem_of_app in Hin as [Hin|Hin].
      * by apply Hmem.
      * apply list_elem_of_singleton in Hin. by simplify_eq.
    + apply NoDup_app. split; [exact Hnodup|]. split.
      * intros key Hkey Hin. apply list_elem_of_singleton in Hin as ->.
        by apply Hk.
      * apply NoDup_singleton.
    + intros u Hu. apply Hc'. apply elem_of_app in Hu as [Hu|Hu].
      * right. by apply Hdone.
      * apply list_elem_of_singleton in Hu as ->. left. apply orbit_self.
    + intros key Hkey Hnd. apply elem_of_app in Hkey as [Hkey|Hkey].
      * rewrite Hop' by (apply (proj2 (Hfresh key Hkey))). by apply Hop.
      * apply list_elem_of_singleton in Hkey as ->. by apply Hop0.
    + intros k1 k2 Hk1 Hk2 Hin.
      apply elem_of_app in Hk1 as [Hk1|Hk1];
        apply elem_of_app in Hk2 as [Hk2|Hk2].
      * by apply Hsep.
      * apply list_elem_of_singleton in Hk2 as ->.
        exfalso. by apply (proj1 (Hfresh k1 Hk1)).
      * apply list_elem_of_singleton in Hk1 as ->.
        exfalso. by apply (proj2 (Hfresh k2 Hk2)).
      * apply list_elem_of_singleton in Hk1 as ->.
        apply list_elem_of_singleton in Hk2 as ->. reflexivity.
Qed.

Lemma loop_inv_fold ts : forall done st,
  (forall t, t ∈ ts -> in_range n t) ->
  loop_inv kc n done st ->
  loop_inv kc n (done ++ ts) (fold_left (visit kc) ts st).
Proof.
  induction ts as [|t ts IH]; intros done st Hts Hinv; simpl.
  - by rewrite app_nil_r.
  - rewrite (cons_middle t done ts), app_assoc. apply IH.
    + intros u Hu. apply Hts. by right.
    + apply loop_inv_visit; [|exact Hinv]. apply Hts. by left.
Qed.

Lemma cartesian_prod_spec t : t ∈ cartesian_prod n <-> in_range n t.
Proof.
  destruct t as [[p q] r]. unfold cartesian_prod, in_range.
  rewrite list_elem_of_In, in_flat_map. setoid_rewrite in_flat_map.
  setoid_rewrite in_map_iff. setoid_rewrite in_seq. split.
  - intros (p' & Hp & q' & Hq & r' & Heq & Hr). simplify_eq. lia.
  - intros (Hp & Hq & Hr). exists p. split; [lia|]. exists q. split; [lia|].
    exists r. split; [reflexivity|lia].
Qed.

Lemma run_loop_inv :
  loop_inv kc n (cartesian_prod n)
    (fold_left (visit kc) (cartesian_prod n)
       (LoopState (zeros_bool [n; n; n]) (zeros [n; n; n]) [])).
Proof.
  apply (loop_inv_fold (cartesian_prod n) []); [|apply loop_inv_init].
  intros t Ht. by apply cartesian_prod_spec.
Qed.
End LoopInvariant.

Lemma orbit_closedb_sound (kc : ndarray nat) (n : nat) :
  KptsHelper.orbit_closedb kc n = true -> KptsHelper.orbit_closed kc n.
Proof.
  unfold KptsHelper.orbit_closedb. rewrite forallb_forall.
  intros Hall kp kq kr Hp Hq Hr.
  specialize (Hall (kp, kq, kr)). cbn zeta beta iota in Hall.
  rewrite !andb_true_iff, Nat.ltb_lt, !Nat.eqb_eq in Hall.
  cbn zeta. apply and_assoc, and_assoc, Hall.
  apply list_elem_of_In, cartesian_prod_spec. simpl. auto.
Qed.

(** The entries of the conservation array are k-point indices: the reads
    and writes of [__init__] stay inside the arrays. *)
Lemma get_kconserv_in_range {F : Type} `{Arith F}
    (a : mat3 F) (kpts : list (vec3 F)) (p q r : nat) :
  p < length kpts ->
  item (get_kconserv a kpts) [p; q; r] < length kpts.
Proof.
  intros Hp. rewrite get_kconserv_fold.
  assert (Hgen : forall m, m <= length kpts ->
            item (fold_left (kconserv_step a kpts) (take m (enumerate kpts))
                    (zeros [length kpts; length kpts; length kpts])) [p; q; r]
            < length kpts).
  { induction m as [|m IH]; intros Hm; [simpl; lia|].
    destruct (lookup_lt_is_Some_2 kpts m ltac:(lia)) as [x Hx].
    rewrite (enumerate_take_S _ _ _ Hx), fold_left_app.
    cbn [fold_left kconserv_step setmask item fst snd].
    destruct (kconserv_mask a kpts x [p; q; r]); [lia|apply IH; lia]. }
  apply Hgen. lia.
Qed.

Section HelperFacts.
Context {F : Type} `{Arith F}.
Variables (a : mat3 F) (kpts : list (vec3 F)).
Hypothesis Hclosed :
  KptsHelper.orbit_closed (KptsHelper.kconserv (KptsHelper.__init__ a kpts))
    (length kpts).

Lemma init_inv :
  exists completed,
    KptsHelper.loop_inv (get_kconserv a kpts) (length kpts)
      (KptsHelper.cartesian_prod (length kpts))
      (KptsHelper.LoopState completed
         (KptsHelper._operation (KptsHelper.__init__ a kpts))
         (KptsHelper.symm_map (KptsHelper.__init__ a kpts))).
Proof.
  pose proof (run_loop_inv (get_kconserv a kpts) (length kpts) Hclosed) as Hinv.
  destruct (fold_left _ _ _) as [c o m] eqn:E in Hinv.
  exists c. unfold KptsHelper.__init__, KptsHelper.build.
  rewrite E. exact Hinv.
Qed.





Lemma init_operation key :
  key ∈ OrderedDict.keys (KptsHelper.symm_map (KptsHelper.__init__ a kpts)) ->
  KptsHelper.nondegenerate (get_kconserv a kpts) key ->
  item (KptsHelper._operation (KptsHelper.__init__ a kpts)) (KptsHelper.index key) = 0.
Proof.
  destruct init_inv as (c & _ & _ & _ & _ & Hop & _). apply Hop.
Qed.

End HelperFacts.




(** C4, as the code has it: when the conservation array is orbit-closed,
    the operation recorded at a key of [symm_map] whose three images all
    differ from it is [0]. *)
Theorem operation_zero_at_nondegenerate_keys
    {F : Type} `{Arith F} (a : mat3 F) (kpts : list (vec3 F))
    (key : KptsHelper.triple) :
  let h := KptsHelper.__init__ a kpts in
  KptsHelper.orbit_closed (KptsHelper.kconserv h) (length kpts) ->
  key ∈ OrderedDict.keys (KptsHelper.symm_map h) ->
  KptsHelper.nondegenerate (KptsHelper.kconserv h) key ->
  item (KptsHelper._operation h) (KptsHelper.index key) = 0.
Proof.
  intros h Hclosed Hkey Hnd. by apply init_operation.
Qed.

Lemma operation_zero_at_nondegenerate_keys_witness :
  item (KptsHelper._operation (KptsHelper.__init__ Grids.identity3 Grids.grid4))
       [0; 1; 2] = 0.
Proof.
  apply (operation_zero_at_nondegenerate_keys
           Grids.identity3 Grids.grid4 (0, 1, 2)).
  - apply orbit_closedb_sound. vm_compute. reflexivity.
  - vm_compute. repeat first [left | right].
  - intros t Ht. vm_compute in Ht.
    apply elem_of_cons in Ht as [->|Ht]; [discriminate|].
    apply elem_of_cons in Ht as [->|Ht]; [discriminate|].
    apply list_elem_of_singleton in Ht as ->. discriminate.
Defined.

(** C4, as the specification words it, fails: for the single point at the
    origin the key [(0,0,0)] is its own image under the three operations,
    and the operation recorded last, [3], stays. *)
Lemma operation_zero_counterexample : ~ operation_zero_at_keys Q.
Proof.
  intros Hclaim.
  specialize (Hclaim Grids.identity3 Grids.gamma (0, 0, 0)).
  assert (Hop : item (KptsHelper._operation
                        (KptsHelper.__init__ Grids.identity3 Grids.gamma))
                     [0; 0; 0] = 3) by (vm_compute; reflexivity).
  cbn zeta in Hclaim. cbn [KptsHelper.index] in Hclaim.
  rewrite Hop in Hclaim. enough (3 = 0) by discriminate.
  apply Hclaim. vm_compute. left.
Qed.

(** Without orbit closure a later orbit can overwrite the operation at a
    non-degenerate key: in [Grids.open2] the key [(0,1,0)] has three images
    different from it and ends with operation [3], written when [(1,0,1)]
    is visited. *)
Example operation_overwritten :
  let h := KptsHelper.__init__ Grids.identity3 Grids.open2 in
  KptsHelper.orbit (KptsHelper.kconserv h) (0, 1, 0)
  = [(0, 1, 0); (0, 0, 0); (1, 0, 0); (0, 0, 1)]
  /\ (0, 1, 0) ∈ OrderedDict.keys (KptsHelper.symm_map h)
  /\ KptsHelper.orbit (KptsHelper.kconserv h) (1, 0, 1)
     = [(1, 0, 1); (1, 0, 1); (0, 1, 0); (0, 1, 0)]
  /\ item (KptsHelper._operation h) [0; 1; 0] = 3.
Proof.
  vm_compute. repeat split. do 2 right. left.
Qed.

(** ** [get_kconserv3] *)

(** The example of the tests: four ranges and the integer [1]. *)
Example get_kconserv3_grid2 :
  let r := KConserv3.Indices [0; 1] in
  match KConserv3.get_kconserv3 Grids.identity3 Grids.grid2
          [r; r; KConserv3.Int 1; r; r] with
  | Ok kconserv =>
      shape kconserv = [2; 2; 2; 2]
      /\ item kconserv [0; 0; 0; 0] = 1
      /\ item kconserv [1; 0; 0; 0] = 0
      /\ item kconserv [1; 0; 1; 1] = 0
      /\ item kconserv [1; 1; 0; 1] = 0
  | Raise _ => False
  end.
Proof. vm_compute. repeat split. Qed.

Lemma enumerate_snoc {A} (l : list A) (x : A) :
  enumerate (l ++ [x]) = enumerate l ++ [(length l, x)].
Proof.
  unfold enumerate. rewrite imap_app. simpl. by rewrite Nat.add_0_r.
Qed.

Lemma collect_ok {A B} (f : A -> result B) (l : list A) :
  Forall (fun x => exists b, f x = Ok b) l ->
  exists bs, collect (map f l) = Ok bs /\ length bs = length l.
Proof.
  induction 1 as [|x l [b Hb] _ (bs & Hbs & Hlen)]; simpl.
  - by exists [].
  - exists (b :: bs). rewrite Hb, Hbs. simpl. by rewrite Hlen.
Qed.

Lemma fold_left_shape {A B} (f : ndarray A -> B -> ndarray A) (l : list B) :
  (forall arr b, shape (f arr b) = shape arr) ->
  forall arr, shape (fold_left f l arr) = shape arr.
Proof.
  intros Hf. induction l as [|b l IH]; intros arr; simpl; [reflexivity|].
  by rewrite IH, Hf.
Qed.

Section KConserv3Facts.
Context {F : Type} `{Arith F}.
Import KConserv3.

Lemma select_ok (kpts : list (vec3 F)) (x : index_group) :
  group_in_range (length kpts) x -> exists rows, select kpts x = Ok rows.
Proof.
  assert (Hrow : forall i, i < length kpts -> exists kpt, row kpts i = Ok kpt).
  { intros i Hi. unfold row.
    destruct (lookup_lt_is_Some_2 kpts i Hi) as [kpt ->]. by exists kpt. }
  destruct x as [i|xs]; simpl; intros Hx.
  - destruct (Hrow i Hx) as [kpt ->]. by exists [kpt].
  - destruct (collect_ok (row kpts) xs) as (rows & -> & _); [|by exists rows].
    eapply Forall_impl; [exact Hx|]. exact Hrow.
Qed.

Lemma fill_shape a kpts kpts_i kpts_j kpts_k kpts_a kpts_b kconserv :
  shape (fill a kpts kpts_i kpts_j kpts_k kpts_a kpts_b kconserv)
  = shape kconserv.
Proof.
  unfold fill. apply fold_left_shape. intros arr [i kpti].
  apply fold_left_shape. clear arr. intros arr [j kptj].
  apply fold_left_shape. clear arr. intros arr [c kptc]. reflexivity.
Qed.

Lemma new_shape_sizes (kijkab : list index_group) (rest : list nat) :
  new_shape kijkab (map size kijkab ++ rest)
  = map size (filter (fun x => negb (is_int x)) kijkab).
Proof.
  revert rest. induction kijkab as [|x l IH] using rev_ind; intros rest.
  - reflexivity.
  - unfold new_shape in *.
    rewrite enumerate_snoc, flat_map_app, map_app, <- app_assoc, IH.
    rewrite filter_app, map_app. f_equal. simpl.
    rewrite app_nil_r, app_nth2, length_map, Nat.sub_diag
      by (rewrite length_map; lia).
    destruct x as [i|xs]; reflexivity.
Qed.

Lemma prod_sizes_not_int (kijkab : list index_group) :
  prod (map size (filter (fun x => negb (is_int x)) kijkab))
  = prod (map size kijkab).
Proof.
  induction kijkab as [|[i|xs] l IH]; [reflexivity| |].
  - rewrite filter_cons_False by (simpl; auto).
    rewrite IH. unfold prod. simpl. lia.
  - rewrite filter_cons_True by (simpl; auto).
    unfold prod in *. simpl. by rewrite IH.
Qed.

End KConserv3Facts.

(** C6, as the code has it: for five index groups whose indices are all
    below [nkpts], [get_kconserv3] returns an array whose shape is the
    sequence of the sizes of the groups that are not given as a Python
    integer; a group given as a sequence keeps its axis, also when it has
    one element. *)
Theorem get_kconserv3_shape
    {F : Type} `{Arith F} (a : mat3 F) (kpts : list (vec3 F))
    (kijkab : list KConserv3.index_group) :
  length kijkab = 5 ->
  Forall (KConserv3.group_in_range (length kpts)) kijkab ->
  exists kconserv,
    KConserv3.get_kconserv3 a kpts kijkab = Ok kconserv
    /\ shape kconserv
       = map KConserv3.size
           (filter (fun x => negb (KConserv3.is_int x)) kijkab).
Proof.
  intros Hlen Hrange. unfold KConserv3.get_kconserv3.
  destruct (collect_ok (KConserv3.select kpts) kijkab)
    as (selected & -> & Hsel).
  { eapply Forall_impl; [exact Hrange|]. apply select_ok. }
  rewrite Hlen in Hsel.
  destruct selected as [|kpts_i [|kpts_j [|kpts_k [|kpts_a [|kpts_b [|]]]]]];
    try discriminate Hsel.
  cbn [mbind result_bind].
  pose proof (new_shape_sizes kijkab []) as Hnew. rewrite app_nil_r in Hnew.
  rewrite Hnew. unfold reshape.
  rewrite fill_shape. cbn [shape zeros].
  rewrite decide_True by (symmetry; apply prod_sizes_not_int).
  eexists. split; reflexivity.
Qed.

Lemma get_kconserv3_shape_witness :
  let r := KConserv3.Indices [0; 1] in
  exists kconserv,
    KConserv3.get_kconserv3 Grids.identity3 Grids.grid2
      [r; r; KConserv3.Int 1; KConserv3.Indices [0]; r] = Ok kconserv
    /\ shape kconserv = [2; 2; 1; 2].
Proof.
  apply (get_kconserv3_shape Grids.identity3 Grids.grid2
           [KConserv3.Indices [0; 1]; KConserv3.Indices [0; 1];
            KConserv3.Int 1; KConserv3.Indices [0]; KConserv3.Indices [0; 1]]).
  - reflexivity.
  - repeat constructor.
Defined.

(** C6, as the specification words it, fails: five groups given as the
    one-element sequence [[0]] yield the shape [(1,1,1,1,1)]. *)
Lemma get_kconserv3_singleton_counterexample : ~ singleton_axes_removed Q.
Proof.
  intros Hclaim.
  pose (kijkab := replicate 5 (KConserv3.Indices [0])).
  assert (Hshape :
    match KConserv3.get_kconserv3 Grids.identity3 Grids.gamma kijkab with
    | Ok kconserv => shape kconserv = [1; 1; 1; 1; 1]
    | Raise _ => False
    end) by (vm_compute; reflexivity).
  destruct (KConserv3.get_kconserv3 Grids.identity3 Grids.gamma kijkab)
    as [kconserv|e] eqn:Hk; [|exact Hshape].
  specialize (Hclaim Grids.identity3 Grids.gamma kijkab kconserv eq_refl Hk).
  rewrite Hshape in Hclaim. discriminate Hclaim.
Qed.

(** ** [check_kpt_antiperm_symmetry] *)

(** The bound of the second assertion, in integers: [idx] is below
    [2 * nparticles - 1] when [2 * idx + 1] is below the number of axes. *)
Lemma antiperm_bound (ndim : nat) (idx : Z) :
  Qltb (inject_Z idx) (2 * ((inject_Z (Z.of_nat ndim) + 1) / 4) - 1)%Q
  = (2 * idx + 1 <? Z.of_nat ndim)%Z.
Proof.
  destruct (2 * idx + 1 <? Z.of_nat ndim)%Z eqn:E.
  - apply Z.ltb_lt in E. apply Qltb_lt.
    unfold Qlt, Qminus, Qplus, Qdiv, Qmult, Qinv, Qopp, inject_Z. simpl. lia.
  - apply Z.ltb_ge in E. apply not_true_is_false. intros Hlt.
    apply Qltb_lt in Hlt. revert Hlt.
    unfold Qlt, Qminus, Qplus, Qdiv, Qmult, Qinv, Qopp, inject_Z. simpl. lia.
Qed.

(** More than three particles: [nparticles > 3] when there are at least
    twelve axes. *)
Lemma antiperm_particles (ndim : nat) :
  Qltb 3%Q ((inject_Z (Z.of_nat ndim) + 1) / 4)%Q = (11 <? Z.of_nat ndim)%Z.
Proof.
  destruct (11 <? Z.of_nat ndim)%Z eqn:E.
  - apply Z.ltb_lt in E. apply Qltb_lt.
    unfold Qlt, Qminus, Qplus, Qdiv, Qmult, Qinv, Qopp, inject_Z. simpl. lia.
  - apply Z.ltb_ge in E. apply not_true_is_false. intros Hlt.
    apply Qltb_lt in Hlt. revert Hlt.
    unfold Qlt, Qminus, Qplus, Qdiv, Qmult, Qinv, Qopp, inject_Z. simpl. lia.
Qed.

(** C5 fails on the code: the array of shape [(1,1,1,2,2,1,1)] with the
    entries [p - q] has [4*2-1] axes and is antisymmetric under the swap of
    the particles [0] and [1], so that the sum with its transpose has the
    norm [0] and the claim has the check return [True]; the code raises
    [IndexError], since [nparticles] is the float [2.0] and the orbital
    index [3.0] is no index of [out_array_indices]. *)
Theorem check_kpt_antiperm_symmetry_raises_index_error :
  length (shape Tensors.antisymmetric) = 4 * 2 - 1
  /\ match transpose Tensors.antisymmetric (swap_axes 7 0 1 3 4) with
     | Ok transposed =>
         match add Tensors.antisymmetric transposed with
         | Ok total => norm_below (ravel total) (1 # 100000000)%Q = true
         | Raise _ => False
         end
     | Raise _ => False
     end
  /\ check_kpt_antiperm_symmetry Tensors.antisymmetric 0 1 (1 # 100000000)%Q
     = Raise (IndexError "only integers, slices (`:`), ellipsis (`...`), numpy.newaxis (`None`) and integer or boolean arrays are valid indices").
Proof. split; [reflexivity|]. split; vm_compute; reflexivity. Qed.

(** ** The nested-array codec *)

Section CodecFacts.
Import Codec.

Lemma nested_induction (P : nested -> Prop) :
  (forall a, P (Leaf a)) ->
  (forall items, Forall P items -> P (Seq items)) ->
  P Other ->
  forall data, P data.
Proof.
  intros Hleaf Hseq Hother. fix IH 1. intros [a|items|].
  - apply Hleaf.
  - apply Hseq. induction items as [|i items IHitems]; constructor.
    + apply IH.
    + exact IHitems.
  - exact Hother.
Qed.

(** A description that is returned is the structure of the data and comes
    with the number of its elements. *)
Lemma describe_nested_structure (data : nested) :
  forall struct total dtype,
    describe_nested data = Ok (struct, total, dtype) ->
    struct = structure_of data /\ total = total_size data.
Proof.
  induction data as [a|items IH|] using nested_induction;
    intros struct total dtype Hd.
  - simpl in Hd. by simplify_eq.
  - cbn [describe_nested] in Hd.
    match type of Hd with
    | context [for_each ?f items ?init] =>
        set (body := f) in Hd;
        assert (Hloop : forall acc_s acc_t acc_d s' t' d',
                  for_each body items (acc_s, acc_t, acc_d) = Ok (s', t', d') ->
                  s' = acc_s ++ map structure_of items
                  /\ t' = acc_t + list_sum (map total_size items))
    end.
    { clear Hd. induction IH as [|i items Hi _ IHitems];
        intros acc_s acc_t acc_d s' t' d' Hloop.
      - simpl in Hloop. simplify_eq. by rewrite app_nil_r, Nat.add_0_r.
      - cbn [for_each] in Hloop.
        destruct (body (acc_s, acc_t, acc_d) i) as [[[s1 t1] d1]|e] eqn:Eb;
          [|discriminate Hloop].
        cbn [mbind result_bind] in Hloop.
        destruct (IHitems _ _ _ _ _ _ Hloop) as [-> ->].
        subst body. cbn beta iota in Eb.
        destruct (describe_nested i) as [[[si ti] di]|e] eqn:Ei;
          [|discriminate Eb].
        destruct (Hi _ _ _ eq_refl) as [-> ->].
        cbn [mbind result_bind] in Eb.
        assert (s1 = acc_s ++ [structure_of i] /\ t1 = acc_t + total_size i)
          as [-> ->].
        { destruct acc_d, di; try case_decide; by simplify_eq. }
        split; [by rewrite <- app_assoc|]. simpl. lia. }
    destruct (for_each body items ([], 0, None)) as [[[s' t'] d']|e] eqn:El;
      [|discriminate Hd].
    cbn [mbind result_bind] in Hd. simplify_eq.
    destruct (Hloop _ _ _ _ _ _ El) as [-> ->]. done.
  - discriminate Hd.
Qed.


Lemma forallb_Forall {A} (f : A -> bool) (l : list A) :
  forallb f l = true <-> Forall (fun x => f x = true) l.
Proof.
  induction l as [|x l IH]; simpl.
  - split; [constructor|reflexivity].
  - rewrite andb_true_iff, IH, Forall_cons. reflexivity.
Qed.

Lemma well_formed_leaf (a : array) :
  well_formed (Leaf a) = true -> length (entries a) = size a.
Proof.
  simpl. intros Hwf. apply andb_true_iff in Hwf as [_ Hlen].
  by apply bool_decide_eq_true_1 in Hlen.
Qed.

Lemma well_formed_axes (a : array) :
  well_formed (Leaf a) = true -> ashape a <> [].
Proof.
  simpl. intros Hwf. apply andb_true_iff in Hwf as [Hshape _].
  by apply negb_true_iff, bool_decide_eq_false_1 in Hshape.
Qed.

Lemma well_formed_seq (items : list nested) :
  well_formed (Seq items) = true ->
  Forall (fun i => well_formed i = true) items.
Proof. cbn [well_formed]. apply forallb_Forall. Qed.

Lemma total_size_flatten (data : nested) :
  well_formed data = true -> length (flatten data) = total_size data.
Proof.
  induction data as [a|items IH|] using nested_induction; intros Hwf.
  - by apply well_formed_leaf.
  - apply well_formed_seq in Hwf. cbn [flatten total_size].
    induction IH as [|i items Hi _ IHitems]; [reflexivity|].
    apply Forall_cons in Hwf as [Hwi Hwf]. simpl.
    rewrite length_app, Hi, IHitems by assumption. reflexivity.
  - discriminate Hwf.
Qed.

(** Storing writes the converted entries of the data over the part of the
    destination that starts at the offset. *)
Lemma store_writes (data : nested) :
  well_formed data = true ->
  forall t pre mid post,
    length mid = total_size data ->
    store data (Vector t (pre ++ mid ++ post)) (length pre)
    = Ok (Vector t (pre ++ map (astype t) (flatten data) ++ post),
          length pre + total_size data).
Proof.
  induction data as [a|items IH|] using nested_induction;
    intros Hwf t pre mid post Hmid.
  - apply well_formed_leaf in Hwf. cbn [store flatten total_size] in *.
    unfold assign_slice. cbn [vdata vdtype].
    rewrite !length_app, Hmid.
    rewrite (Nat.min_l (length pre)) by lia.
    rewrite (Nat.min_l (length pre + size a)) by lia.
    rewrite decide_True by lia. cbn [mbind result_bind].
    rewrite take_app_length.
    rewrite (app_assoc pre mid post), drop_app_length'
      by (rewrite length_app; lia).
    reflexivity.
  - apply well_formed_seq in Hwf. cbn [store flatten total_size] in *.
    revert t pre mid post Hmid Hwf.
    induction IH as [|i items Hi _ IHitems]; intros t pre mid post Hmid Hwf.
    + simpl in *. destruct mid; [|discriminate Hmid].
      by rewrite Nat.add_0_r.
    + apply Forall_cons in Hwf as [Hwi Hwf].
      change (list_sum (map total_size (i :: items)))
        with (total_size i + list_sum (map total_size items)) in *.
      cbn [for_each flat_map].
      rewrite <- (take_drop (total_size i) mid), <- (app_assoc _ _ post).
      rewrite (Hi Hwi) by (rewrite length_take; lia).
      cbn [mbind result_bind].
      replace (length pre + total_size i)
        with (length (pre ++ map (astype t) (flatten i)))
        by (rewrite length_app, length_map, total_size_flatten; done).
      rewrite (app_assoc pre).
      rewrite (IHitems t _ (drop (total_size i) mid) post);
        [|rewrite length_drop; lia|exact Hwf].
      rewrite length_app, length_map, total_size_flatten by done.
      rewrite map_app, <- !app_assoc. do 2 f_equal. lia.
  - discriminate Hwf.
Qed.

(** The loop of [vector_to_nested] over the descriptions of the items of
    a sequence, started behind the part [pre] of the vector. *)
Lemma vector_to_nested_items (items : list nested) (v : vector) (copy : bool) :
  Forall (fun i => forall rest,
            vector_to_nested
              (Vector (vdtype v) (map (astype (vdtype v)) (flatten i) ++ rest))
              (structure_of i) copy false None []
            = Ok (WithSize (retype (vdtype v) i) (total_size i))) items ->
  Forall (fun i => well_formed i = true) items ->
  forall pre result rest,
    vdata v = pre ++ map (astype (vdtype v)) (flat_map flatten items) ++ rest ->
    for_each
      (fun '(offset, result) i =>
         r ← vector_to_nested (slice_from v offset) i copy false None [];
         match r with
         | WithSize nested size => Ok (offset + size, result ++ [nested])
         | Only _ => Raise (TypeError "cannot unpack the result")
         end)
      (map structure_of items) (length pre, result)
    = Ok (length pre + list_sum (map total_size items),
          result ++ map (retype (vdtype v)) items).
Proof.
  intros IH Hwf. induction IH as [|i items Hi _ IHitems];
    intros pre result rest Hv.
  - simpl. by rewrite Nat.add_0_r, app_nil_r.
  - apply Forall_cons in Hwf as [Hwi Hwf].
    cbn [map for_each flat_map list_sum] in *.
    assert (Hcall :
      vector_to_nested (slice_from v (length pre)) (structure_of i) copy false
        None []
      = Ok (WithSize (retype (vdtype v) i) (total_size i))).
    { unfold slice_from.
      rewrite Hv, drop_app_length, map_app, <- app_assoc. apply Hi. }
    rewrite Hcall. cbn [mbind result_bind].
    rewrite map_app, <- app_assoc, app_assoc in Hv.
    specialize (IHitems Hwf (pre ++ map (astype (vdtype v)) (flatten i))
                  (result ++ [retype (vdtype v) i]) rest Hv).
    rewrite length_app, length_map, total_size_flatten in IHitems by done.
    rewrite IHitems.
    rewrite <- app_assoc. do 2 f_equal. simpl. lia.
Qed.

(** Restoring from a vector that starts with the converted entries of the
    data returns the data, converted, and the number of its elements. *)
Lemma vector_to_nested_reads (data : nested) :
  well_formed data = true ->
  forall t copy rest,
    vector_to_nested (Vector t (map (astype t) (flatten data) ++ rest))
      (structure_of data) copy false None []
    = Ok (WithSize (retype t data) (total_size data)).
Proof.
  induction data as [a|items IH|] using nested_induction;
    intros Hwf t copy rest.
  - pose proof (well_formed_axes _ Hwf) as Haxes.
    apply well_formed_leaf in Hwf.
    cbn [vector_to_nested structure_of flatten total_size retype vdata vdtype].
    fold (size a). cbn [andb].
    rewrite bool_decide_eq_false_2
      by (rewrite length_app, length_map; lia).
    rewrite decide_False by exact Haxes.
    rewrite take_app_length' by (by rewrite length_map).
    reflexivity.
  - pose proof (well_formed_seq _ Hwf) as Hwfs.
    cbn [vector_to_nested structure_of flatten total_size retype].
    assert (Hitems : Forall (fun i => forall rest,
              vector_to_nested (Vector t (map (astype t) (flatten i) ++ rest))
                (structure_of i) copy false None []
              = Ok (WithSize (retype t i) (total_size i))) items).
    { eapply Forall_impl; [apply Forall_and; split; [exact IH|exact Hwfs]|].
      intros i [Hi Hwi] rest'. by apply Hi. }
    pose proof (vector_to_nested_items items
                  (Vector t (map (astype t) (flat_map flatten items) ++ rest))
                  copy Hitems Hwfs [] [] rest eq_refl) as Hloop.
    cbn [length app vdtype] in Hloop. rewrite Hloop.
    reflexivity.
  - discriminate Hwf.
Qed.

(** Restoring with [ensure_size_matches] from the vector of the converted
    entries of the data returns the data, converted. *)
Lemma vector_to_nested_all (data : nested) :
  well_formed data = true ->
  forall t copy,
    vector_to_nested (Vector t (map (astype t) (flatten data)))
      (structure_of data) copy true None []
    = Ok (Only (retype t data)).
Proof.
  destruct data as [a|items|]; intros Hwf t copy.
  - pose proof (well_formed_axes _ Hwf) as Haxes.
    apply well_formed_leaf in Hwf.
    cbn [vector_to_nested structure_of flatten total_size retype vdata vdtype].
    fold (size a). rewrite length_map, Hwf.
    rewrite bool_decide_eq_true_2 by reflexivity. cbn [andb negb].
    rewrite bool_decide_eq_false_2 by lia.
    rewrite decide_False by exact Haxes.
    rewrite take_ge by (rewrite length_map; lia). reflexivity.
  - pose proof (well_formed_seq _ Hwf) as Hwfs.
    pose proof (total_size_flatten _ Hwf) as Hlen.
    cbn [vector_to_nested structure_of flatten total_size retype] in *.
    assert (Hitems : Forall (fun i => forall rest,
              vector_to_nested (Vector t (map (astype t) (flatten i) ++ rest))
                (structure_of i) copy false None []
              = Ok (WithSize (retype t i) (total_size i))) items).
    { eapply Forall_impl; [exact Hwfs|].
      intros i Hwi rest. by apply vector_to_nested_reads. }
    pose proof (vector_to_nested_items items
                  (Vector t (map (astype t) (flat_map flatten items)))
                  copy Hitems Hwfs [] [] []) as Hloop.
    cbn [length app vdtype vdata] in Hloop.
    rewrite Hloop by (by rewrite app_nil_r).
    cbn [mbind result_bind vdata].
    rewrite decide_False by (rewrite length_map; lia). reflexivity.
  - discriminate Hwf.
Qed.

Lemma retype_typed (t : dtype) (data : nested) :
  typed t data = true -> retype t data = data.
Proof.
  induction data as [a|items IH|] using nested_induction; intros Ht.
  - destruct a as [ta shp es]. cbn in *.
    apply andb_true_iff in Ht as [Hta Hes].
    apply bool_decide_eq_true_1 in Hta as ->.
    do 2 f_equal. apply forallb_Forall in Hes.
    induction Hes as [|x es Hx _ IHes]; [reflexivity|].
    apply bool_decide_eq_true_1 in Hx. simpl. by rewrite Hx, IHes.
  - cbn [typed retype] in *. f_equal. apply forallb_Forall in Ht.
    induction IH as [|i items Hi _ IHitems]; [reflexivity|].
    apply Forall_cons in Ht as [Hti Ht]. simpl. by rewrite Hi, IHitems.
  - reflexivity.
Qed.

(** What the round trip returns whenever the data can be described: the
    data with every leaf converted to the element type that
    [describe_nested] reports, [float64] when it reports none. *)
Theorem round_trip_retype (data : nested) struct total dtype :
  well_formed data = true ->
  describe_nested data = Ok (struct, total, dtype) ->
  round_trip data = Ok (Only (retype (default float64 dtype) data)).
Proof.
  intros Hwf Hd. unfold round_trip, nested_to_vector. rewrite Hd.
  destruct (describe_nested_structure _ _ _ _ Hd) as [-> ->].
  cbn [mbind result_bind]. unfold empty.
  pose proof (store_writes data Hwf (default float64 dtype) []
                (replicate (total_size data) (0%Q, 0%Q)) []
                (length_replicate _ _)) as Hstore.
  cbn [app length] in Hstore. rewrite !app_nil_r in Hstore.
  rewrite Hstore. cbn [mbind result_bind fst].
  by apply vector_to_nested_all.
Qed.

(** The round trip is exact when every leaf has the element type that
    [describe_nested] reports. *)
Theorem round_trip_exact (data : nested) struct total dtype :
  well_formed data = true ->
  describe_nested data = Ok (struct, total, dtype) ->
  typed (default float64 dtype) data = true ->
  round_trip data = Ok (Only data).
Proof.
  intros Hwf Hd Ht. rewrite (round_trip_retype _ _ _ _ Hwf Hd).
  by rewrite retype_typed.
Qed.

(** For data without an empty sequence, the element type that
    [describe_nested] reports is the element type of every leaf. *)
Lemma describe_nested_common_dtype (data : nested) :
  no_empty_sequence data = true ->
  forall struct total dtype,
    describe_nested data = Ok (struct, total, dtype) ->
    exists t, dtype = Some t /\ Forall (fun t' => t' = t) (leaf_dtypes data).
Proof.
  induction data as [a|items IH|] using nested_induction;
    intros Hne struct total dtype Hd.
  - simpl in Hd. simplify_eq. exists (adtype a). split; [done|].
    repeat constructor.
  - cbn [no_empty_sequence] in Hne. apply andb_true_iff in Hne as [Hnil Hne].
    apply negb_true_iff, bool_decide_eq_false_1 in Hnil.
    apply forallb_Forall in Hne.
    cbn [describe_nested leaf_dtypes] in *.
    match type of Hd with
    | context [for_each ?f items ?init] =>
        set (body := f) in Hd;
        assert (Hloop : forall acc_s acc_t acc_d s' t' d',
                  for_each body items (acc_s, acc_t, acc_d) = Ok (s', t', d') ->
                  (items = [] /\ d' = acc_d)
                  \/ exists t, d' = Some t
                       /\ Forall (fun t' => t' = t) (flat_map leaf_dtypes items)
                       /\ forall t0, acc_d = Some t0 -> t0 = t)
    end.
    { clear Hd Hnil. induction IH as [|i items Hi _ IHitems];
        intros acc_s acc_t acc_d s' t' d' Hloop.
      - simpl in Hloop. simplify_eq. by left.
      - right. apply Forall_cons in Hne as [Hni Hne].
        cbn [for_each] in Hloop.
        destruct (body (acc_s, acc_t, acc_d) i) as [[[s1 t1] d1]|e] eqn:Eb;
          [|discriminate Hloop].
        cbn [mbind result_bind] in Hloop.
        subst body. cbn beta iota in Eb.
        destruct (describe_nested i) as [[[si ti] di]|e] eqn:Ei;
          [|discriminate Eb].
        destruct (Hi Hni _ _ _ eq_refl) as (t & -> & Hleaves).
        cbn [mbind result_bind] in Eb.
        assert (d1 = Some t /\ forall t0, acc_d = Some t0 -> t0 = t)
          as [-> Hacc].
        { destruct acc_d as [t0|].
          - case_decide as Hneq; [discriminate Eb|].
            injection Eb as _ _ <-. split; [reflexivity|].
            intros t0' [= <-]. destruct (decide (t = t0)); congruence.
          - injection Eb as _ _ <-. split; [reflexivity|]. discriminate. }
        destruct (IHitems Hne _ _ _ _ _ _ Hloop)
          as [[-> ->]|(t2 & -> & Hrest & Hsame)].
        + exists t. split; [done|]. split; [|exact Hacc].
          simpl. by rewrite app_nil_r.
        + specialize (Hsame t eq_refl). subst t2.
          exists t. split; [done|]. split; [|exact Hacc].
          simpl. apply Forall_app. by split. }
    destruct (for_each body items ([], 0, None)) as [[[s' t'] d']|e] eqn:El;
      [|discriminate Hd].
    cbn [mbind result_bind] in Hd. simplify_eq.
    destruct (Hloop _ _ _ _ _ _ El) as [[-> _]|(t & -> & Hall & _)]; [done|].
    by exists t.
  - discriminate Hd.
Qed.

(** For data made of arrays and sequences the only exception of
    [describe_nested] is the one for different element types. *)
Lemma describe_nested_raises (data : nested) :
  well_formed data = true ->
  forall e,
    describe_nested data = Raise e ->
    e = ValueError "Several different numpy dtypes encountered".
Proof.
  induction data as [a|items IH|] using nested_induction; intros Hwf e Hd.
  - discriminate Hd.
  - apply well_formed_seq in Hwf. cbn [describe_nested] in Hd.
    match type of Hd with
    | context [for_each ?f items ?init] =>
        set (body := f) in Hd;
        assert (Hloop : forall acc e',
                  for_each body items acc = Raise e' ->
                  e' = ValueError "Several different numpy dtypes encountered")
    end.
    { clear Hd. induction IH as [|i items Hi _ IHitems]; intros acc e' Hloop.
      - discriminate Hloop.
      - apply Forall_cons in Hwf as [Hwi Hwf]. cbn [for_each] in Hloop.
        destruct (body acc i) as [acc1|e1] eqn:Eb.
        + cbn [mbind result_bind] in Hloop. by eapply IHitems.
        + cbn [mbind result_bind] in Hloop. simplify_eq.
          subst body. destruct acc as [[acc_s acc_t] acc_d].
          cbn beta iota in Eb.
          destruct (describe_nested i) as [[[si ti] di]|ei] eqn:Ei.
          * cbn [mbind result_bind] in Eb.
            destruct acc_d, di; try case_decide; by simplify_eq.
          * cbn [mbind result_bind] in Eb. simplify_eq. by apply Hi. }
    destruct (for_each body items ([], 0, None)) as [[[s' t'] d']|e'] eqn:El.
    + discriminate Hd.
    + cbn [mbind result_bind] in Hd. simplify_eq. by eapply Hloop.
  - discriminate Hwf.
Qed.

(** X15: data without an empty sequence in which two leaves differ in
    their element type is refused with the exception for different element
    types. *)
Theorem describe_nested_refuses_mixed_dtypes (data : nested) (t1 t2 : dtype) :
  well_formed data = true ->
  no_empty_sequence data = true ->
  t1 ∈ leaf_dtypes data -> t2 ∈ leaf_dtypes data -> t1 <> t2 ->
  describe_nested data
  = Raise (ValueError "Several different numpy dtypes encountered").
Proof.
  intros Hwf Hne H1 H2 Hneq.
  destruct (describe_nested data) as [[[struct total] dtype]|e] eqn:Hd.
  - destruct (describe_nested_common_dtype _ Hne _ _ _ Hd) as (t & _ & Hall).
    rewrite Forall_forall in Hall.
    rewrite (Hall _ H1), (Hall _ H2) in Hneq. done.
  - f_equal. by eapply describe_nested_raises.
Qed.

(** Data without an empty sequence whose leaves share the element type
    [t] is described, with the element type [t]. *)
Lemma describe_nested_typed (data : nested) (t : dtype) :
  well_formed data = true ->
  no_empty_sequence data = true ->
  typed t data = true ->
  describe_nested data = Ok (structure_of data, total_size data, Some t).
Proof.
  induction data as [a|items IH|] using nested_induction; intros Hwf Hne Ht.
  - cbn in Ht. apply andb_true_iff in Ht as [Hta _].
    apply bool_decide_eq_true_1 in Hta as <-. reflexivity.
  - apply well_formed_seq in Hwf.
    cbn [no_empty_sequence typed] in Hne, Ht.
    apply andb_true_iff in Hne as [Hnil Hne].
    apply negb_true_iff, bool_decide_eq_false_1 in Hnil.
    apply forallb_Forall in Hne. apply forallb_Forall in Ht.
    cbn [describe_nested structure_of total_size].
    match goal with
    | |- context [for_each ?f items ?init] =>
        set (body := f);
        assert (Hloop : forall acc_s acc_t acc_d,
                  acc_d = None \/ acc_d = Some t ->
                  for_each body items (acc_s, acc_t, acc_d)
                  = Ok (acc_s ++ map structure_of items,
                        acc_t + list_sum (map total_size items),
                        match items with [] => acc_d | _ => Some t end))
    end.
    { clear Hnil. induction IH as [|i items Hi _ IHitems];
        intros acc_s acc_t acc_d Hacc.
      - simpl. by rewrite app_nil_r, Nat.add_0_r.
      - apply Forall_cons in Hwf as [Hwi Hwf].
        apply Forall_cons in Hne as [Hni Hne].
        apply Forall_cons in Ht as [Hti Ht].
        cbn [for_each].
        assert (Hstep :
          body (acc_s, acc_t, acc_d) i
          = Ok (acc_s ++ [structure_of i], acc_t + total_size i, Some t)).
        { unfold body. cbn beta iota. rewrite (Hi Hwi Hni Hti).
          cbn [mbind result_bind].
          destruct Hacc as [->| ->]; [reflexivity|].
          by rewrite decide_False by (intros Hneq; by apply Hneq). }
        rewrite Hstep. cbn [mbind result_bind].
        rewrite (IHitems Hwf Hne Ht) by (by right).
        rewrite <- app_assoc. simpl.
        replace (acc_t + total_size i + list_sum (map total_size items))
          with (acc_t + (total_size i + list_sum (map total_size items)))
          by lia.
        by destruct items. }
    rewrite Hloop by (by left). cbn [mbind result_bind].
    by destruct items.
  - discriminate Hwf.
Qed.

(** X14: without an empty sequence the round trip of data whose leaves
    share one element type and hold elements of that type is exact. *)
Theorem round_trip_without_empty_sequence (data : nested) (t : dtype) :
  well_formed data = true ->
  no_empty_sequence data = true ->
  typed t data = true ->
  round_trip data = Ok (Only data).
Proof.
  intros Hwf Hne Ht.
  apply (round_trip_exact data _ _ (Some t) Hwf
           (describe_nested_typed data t Hwf Hne Ht)).
  exact Ht.
Qed.

End CodecFacts.

(** The first test: the description, the length of the vector and the
    restored data. *)
Example codec_test_1 :
  Codec.describe_nested Samples.tested
  = Ok (Codec.SSeq [ Codec.SSeq [Codec.SArray [3; 1; 4]; Codec.SArray [5]];
                     Codec.SSeq [Codec.SArray [9]] ],
        26, Some Codec.float64)
  /\ Codec.round_trip Samples.tested = Ok (Codec.Only Samples.tested).
Proof. split; vm_compute; reflexivity. Qed.

(** Two adjacent leaves of different element types are refused. *)
Example describe_nested_float_int :
  Codec.describe_nested Samples.float_int
  = Raise (ValueError "Several different numpy dtypes encountered").
Proof. vm_compute. reflexivity. Qed.

(** Restoring with a composite description ends in the [TypeError] of
    [offset += ...]: the call for the first part of the composite returns
    the pair of the destination and the size. *)
Example codec_test_composite :
  match Codec.nested_to_vector Samples.tested None 0 with
  | Ok (inl (vector, _)) =>
      Codec.vector_to_nested vector Samples.tested_composite true true None []
      = Raise (TypeError
                 "unsupported operand type(s) for +=: 'int' and 'tuple'")
  | _ => False
  end.
Proof. vm_compute. reflexivity. Qed.

(** An array without axes is flattened and is not restored. *)
Example codec_zero_dimensional :
  Codec.describe_nested Samples.zero_dimensional
  = Ok (Codec.SSeq [Codec.SArray []], 1, Some Codec.float64)
  /\ Codec.round_trip Samples.zero_dimensional
     = Raise (TypeError "slice indices must be integers").
Proof. split; vm_compute; reflexivity. Qed.

(** The conversions that an assignment makes: the [int64] number
    [2**53 + 1] becomes the [float64] number [2**53]; the [float64] number
    [1e19], which is outside the range of [int64], becomes the smallest
    [int64]; the [complex128] number [1.5+1j] becomes the [float64] number
    [1.5]. *)
Example astype_rounds :
  Codec.astype Codec.float64 (inject_Z (2 ^ 53 + 1), 0%Q)
  = (inject_Z (2 ^ 53), 0%Q)
  /\ Codec.astype Codec.int64 (inject_Z (10 ^ 19), 0%Q)
     = (inject_Z (- 2 ^ 63), 0%Q)
  /\ Codec.astype Codec.float64 ((3 # 2)%Q, 1%Q) = ((3 # 2)%Q, 0%Q).
Proof. repeat split; vm_compute; reflexivity. Qed.

(** C8 fails on the code: the data [[array([1.5]), [], array([1])]] has a
    [float64] and an [int64] leaf; the empty list between them resets the
    element type that [describe_nested] remembers, no error is raised, and
    the description comes with the element type [int64]. *)
Theorem describe_nested_accepts_mixed_dtypes :
  Codec.leaf_dtypes Samples.float_empty_int = [Codec.float64; Codec.int64]
  /\ Codec.describe_nested Samples.float_empty_int
     = Ok (Codec.SSeq [Codec.SArray [1]; Codec.SSeq []; Codec.SArray [1]],
           2, Some Codec.int64)
  /\ exists vector struct,
       Codec.nested_to_vector Samples.float_empty_int None 0
       = Ok (inl (vector, struct))
       /\ Codec.vdtype vector = Codec.int64.
Proof.
  split; [reflexivity|]. split; [vm_compute; reflexivity|].
  eexists _, _. split; [vm_compute; reflexivity|reflexivity].
Qed.

(** C2 fails on the code: the data [[array([1+2j]), []]] has one leaf, of
    element type [complex128]; the empty list after it makes
    [describe_nested] report no element type, the vector is allocated as
    [float64], and the restored array holds [1] where the data holds
    [1+2j]. *)
Theorem round_trip_drops_imaginary_part :
  Codec.leaf_dtypes Samples.complex_then_empty = [Codec.complex128]
  /\ Codec.describe_nested Samples.complex_then_empty
     = Ok (Codec.SSeq [Codec.SArray [1]; Codec.SSeq []], 1, None)
  /\ exists restored,
       Codec.round_trip Samples.complex_then_empty = Ok (Codec.Only restored)
       /\ restored
          = Codec.Seq [ Codec.Leaf (Codec.Array Codec.float64 [1] [(1%Q, 0%Q)]);
                        Codec.Seq [] ]
       /\ Codec.nested_eqb Samples.complex_then_empty restored = false.
Proof.
  split; [reflexivity|]. split; [vm_compute; reflexivity|].
  eexists. split; [vm_compute; reflexivity|]. split; reflexivity.
Qed.

(** ** More on [get_kconserv] *)

Lemma last_true (f : nat -> bool) (n N : nat) :
  N < n -> f N = true ->
  exists s, s < n /\ f s = true /\ forall M, s < M -> M < n -> f M = false.
Proof.
  induction n as [|n IH]; intros HN Hf; [lia|].
  destruct (f n) eqn:En.
  - exists n. split; [lia|]. split; [exact En|]. intros M H1 H2. lia.
  - destruct (decide (N = n)) as [->|Hne]; [congruence|].
    destruct (IH ltac:(lia) Hf) as (s & Hs & Hfs & Hlater).
    exists s. split; [lia|]. split; [exact Hfs|].
    intros M H1 H2. destruct (decide (M = n)) as [->|]; [exact En|].
    apply Hlater; lia.
Qed.

(** X1: whenever some candidate passes the residual test at a triple, the
    entry of [get_kconserv] at the triple is a k-point index that passes the
    test, and no larger index passes it. *)
Theorem get_kconserv_sound
    {F : Type} `{Arith F} (a : mat3 F) (kpts : list (vec3 F)) (p q r N : nat) :
  p < length kpts -> q < length kpts -> r < length kpts ->
  N < length kpts -> conserves a kpts p q r N = true ->
  let s := item (get_kconserv a kpts) [p; q; r] in
  s < length kpts
  /\ conserves a kpts p q r s = true
  /\ forall M, s < M -> M < length kpts -> conserves a kpts p q r M = false.
Proof.
  intros Hp Hq Hr HN Hyes.
  destruct (last_true (conserves a kpts p q r) (length kpts) N HN Hyes)
    as (s & Hs & Hfs & Hlater).
  cbn zeta.
  rewrite get_kconserv_fold,
    (kconserv_prefix_last a kpts _ p q r (length kpts) s) by auto.
  auto.
Qed.

Lemma get_kconserv_sound_witness :
  let s := item (get_kconserv Grids.identity3 Grids.grid4) [1; 2; 0] in
  s < 4
  /\ conserves Grids.identity3 Grids.grid4 1 2 0 s = true
  /\ forall M, s < M -> M < 4 ->
       conserves Grids.identity3 Grids.grid4 1 2 0 M = false.
Proof.
  apply (get_kconserv_sound Grids.identity3 Grids.grid4 1 2 0 3);
    [simpl; lia | simpl; lia | simpl; lia | simpl; lia | vm_compute; reflexivity].
Defined.

(** X2: every entry of [get_kconserv] at a triple of k-point indices is
    itself a k-point index, also where no candidate passes the test. *)
Theorem get_kconserv_entries_are_indices
    {F : Type} `{Arith F} (a : mat3 F) (kpts : list (vec3 F)) (p q r : nat) :
  p < length kpts -> q < length kpts -> r < length kpts ->
  item (get_kconserv a kpts) [p; q; r] < length kpts.
Proof. intros Hp _ _. by apply get_kconserv_in_range. Qed.

Lemma get_kconserv_entries_are_indices_witness :
  item (get_kconserv Grids.identity3 Grids.open2) [0; 1; 0] < 2.
Proof.
  apply (get_kconserv_entries_are_indices Grids.identity3 Grids.open2 0 1 0);
    simpl; lia.
Defined.

(** ** More on [unique] *)

Section UniqueRepresentatives.
Context {F : Type} `{Arith F}.
Implicit Types (kpts : list (vec3 F)) (st : Unique.state F).

Lemma unique_inv_reps_init kpts : unique_inv_reps kpts 0 (Unique.init kpts).
Proof.
  unfold unique_inv_reps. cbn.
  split; [reflexivity|]. split; [reflexivity|]. split.
  { intros k j Hk. by rewrite lookup_nil in Hk. }
  split; [constructor|]. split.
  { intros k r j Hk. by rewrite lookup_nil in Hk. }
  intros a b ra rb _ Ha. by rewrite lookup_nil in Ha.
Qed.

Lemma unique_inv_reps_step kpts m x st :
  kpts !! m = Some x ->
  unique_inv_reps kpts m st ->
  unique_inv_reps kpts (S m) (Unique.step kpts st (m, x)).
Proof.
  intros Hx (Hlen & Hn & Hidx & Hsorted & Hseen & Hpair).
  assert (Hm : m < length kpts) by (apply lookup_lt_is_Some; eauto).
  unfold Unique.step.
  destruct (item (Unique.seen st) [m]) eqn:Em.
  - split; [exact Hlen|]. split; [exact Hn|]. split.
    { intros k j Hk. destruct (Hidx k j Hk). split; [lia|done]. }
    split; [exact Hsorted|]. split; [exact Hseen|exact Hpair].
  - assert (Hfar : forall k r, Unique.uniq_kpts st !! k = Some r ->
               fltb (Unique.l1_distance r x) KPT_DIFF_TOL = false).
    { intros k r Hk.
      destruct (fltb (Unique.l1_distance r x) KPT_DIFF_TOL) eqn:Ef;
        [|reflexivity].
      rewrite <- (kpt_at_lookup _ _ _ Hx) in Ef.
      rewrite (Hseen k r m Hk Hm Ef) in Em. discriminate Em. }
    unfold unique_inv_reps.
    cbn [Unique.n Unique.uniq_kpts Unique.uniq_index Unique.uniq_inverse
         Unique.seen setmask item].
    split; [rewrite !length_app; simpl; lia|].
    split; [rewrite length_app; simpl; lia|]. split.
    { intros k j Hk. apply lookup_snoc_Some in Hk as [[Hlt Hk]|[-> <-]].
      - destruct (Hidx k j Hk) as [Hj Hrep]. split; [lia|].
        rewrite lookup_app_l by lia. exact Hrep.
      - split; [lia|]. rewrite <- Hlen, Hx. by apply list_lookup_middle. }
    split.
    { apply StronglySorted_app_2; [|exact Hsorted|repeat constructor].
      intros j1 j2 Hj1 Hj2. apply list_elem_of_singleton in Hj2 as ->.
      apply list_elem_of_lookup in Hj1 as [k Hk]. by destruct (Hidx k j1 Hk). }
    split.
    { intros k r j Hk Hj Hclose.
      destruct (Unique.idx kpts x [j]) eqn:Ej; [reflexivity|].
      apply lookup_snoc_Some in Hk as [[Hlt Hk]|[-> <-]].
      - by apply (Hseen k r j).
      - simpl in Ej. rewrite bool_decide_eq_true_2, Hclose in Ej by exact Hj.
        discriminate Ej. }
    intros a b ra rb Hab Ha Hb.
    apply lookup_snoc_Some in Hb as [[Hlt Hb]|[-> <-]].
    + rewrite lookup_app_l in Ha by lia. by apply (Hpair a b).
    + rewrite lookup_app_l in Ha by lia. by apply (Hfar a).
Qed.

Lemma unique_inv_reps_prefix kpts m :
  m <= length kpts ->
  unique_inv_reps kpts m
    (fold_left (Unique.step kpts) (take m (enumerate kpts)) (Unique.init kpts)).
Proof.
  induction m as [|m IH]; intros Hm.
  - apply unique_inv_reps_init.
  - destruct (lookup_lt_is_Some_2 kpts m ltac:(lia)) as [x Hx].
    rewrite (enumerate_take_S _ _ _ Hx), fold_left_app.
    apply unique_inv_reps_step; [exact Hx|apply IH; lia].
Qed.

Lemma unique_inv_reps_final kpts :
  unique_inv_reps kpts (length kpts)
    (fold_left (Unique.step kpts) (enumerate kpts) (Unique.init kpts)).
Proof.
  pose proof (unique_inv_reps_prefix kpts (length kpts) (le_n _)) as Hinv.
  rewrite take_ge in Hinv by (unfold enumerate; rewrite length_imap; lia).
  exact Hinv.
Qed.

Lemma sorted_below_length (l : list nat) (n : nat) :
  StronglySorted lt l -> Forall (fun j => j < n) l -> length l <= n.
Proof.
  revert n. induction l as [|j l IH] using rev_ind; intros n Hs Hb; [simpl; lia|].
  apply StronglySorted_app in Hs as (Hlt & Hs & _).
  apply Forall_app in Hb as [Hb Hj]. rewrite Forall_singleton in Hj.
  rewrite length_app. simpl.
  enough (length l <= j) by lia.
  apply IH; [exact Hs|]. apply Forall_forall. intros i Hi.
  apply Hlt; [exact Hi|]. by apply list_elem_of_singleton.
Qed.

End UniqueRepresentatives.

(** X3: [unique] returns as many representatives as first indices, at most
    as many as points; the representative [k] is the input point at
    [uniq_index[k]]; and the first indices increase, so that the
    representatives come in the order of their first occurrence. *)
Theorem unique_representatives
    {F : Type} `{Arith F} (kpts : list (vec3 F)) :
  let '(unique_kpts, uniq_index, _) := Unique.unique kpts in
  length unique_kpts = length uniq_index
  /\ length unique_kpts <= length kpts
  /\ (forall k j, uniq_index !! k = Some j ->
        j < length kpts /\ unique_kpts !! k = kpts !! j)
  /\ StronglySorted lt uniq_index.
Proof.
  unfold Unique.unique.
  destruct (unique_inv_reps_final kpts) as (Hlen & _ & Hidx & Hsorted & _).
  split; [exact Hlen|]. split; [|split; [exact Hidx|exact Hsorted]].
  rewrite Hlen. apply sorted_below_length; [exact Hsorted|].
  apply Forall_forall. intros j Hj.
  apply list_elem_of_lookup in Hj as [k Hk]. by destruct (Hidx k j Hk).
Qed.

(** X4: no representative returned by [unique] is within the tolerance of
    an earlier representative. *)
Theorem unique_representatives_apart
    {F : Type} `{Arith F} (kpts : list (vec3 F)) (a b : nat) (ra rb : vec3 F) :
  let '(unique_kpts, _, _) := Unique.unique kpts in
  a < b -> unique_kpts !! a = Some ra -> unique_kpts !! b = Some rb ->
  fltb (Unique.l1_distance ra rb) KPT_DIFF_TOL = false.
Proof.
  unfold Unique.unique.
  destruct (unique_inv_reps_final kpts) as (_ & _ & _ & _ & _ & Hpair).
  apply Hpair.
Qed.

Lemma unique_representatives_apart_witness :
  fltb (Unique.l1_distance (0, 0, 0) (12 # 10000000, 0, 0))%Q KPT_DIFF_TOL
  = false.
Proof.
  apply (unique_representatives_apart Grids.chain 0 1);
    [lia | reflexivity | reflexivity].
Defined.

Section UniqueSelf.
Context {F : Type} `{Arith F}.
Implicit Types (kpts : list (vec3 F)) (st : Unique.state F).

Hypothesis Hrefl :
  forall x : vec3 F, fltb (Unique.l1_distance x x) KPT_DIFF_TOL = true.
Hypothesis Hsym :
  forall x y : vec3 F,
    fltb (Unique.l1_distance x y) KPT_DIFF_TOL
    = fltb (Unique.l1_distance y x) KPT_DIFF_TOL.

Lemma unique_inv_self_step kpts m x st :
  kpts !! m = Some x ->
  unique_inv_reps kpts m st ->
  unique_inv_self st ->
  unique_inv_self (Unique.step kpts st (m, x)).
Proof.
  intros Hx (Hlen & Hn & Hidx & _ & Hseen & _) Hself.
  assert (Hm : m < length kpts) by (apply lookup_lt_is_Some; eauto).
  unfold Unique.step.
  destruct (item (Unique.seen st) [m]) eqn:Em; [exact Hself|].
  unfold unique_inv_self.
  cbn [Unique.uniq_index Unique.uniq_inverse setmask item].
  intros k j Hk. apply lookup_snoc_Some in Hk as [[Hlt Hk]|[-> <-]].
  - destruct (Hidx k j Hk) as [Hj Hrep].
    assert (Hjn : j < length kpts) by lia.
    destruct (lookup_lt_is_Some_2 kpts j Hjn) as [r Hr].
    rewrite Hr in Hrep.
    assert (Hfar : fltb (Unique.l1_distance r x) KPT_DIFF_TOL = false).
    { destruct (fltb (Unique.l1_distance r x) KPT_DIFF_TOL) eqn:Ef;
        [|reflexivity].
      rewrite <- (kpt_at_lookup _ _ _ Hx) in Ef.
      rewrite (Hseen k r m Hrep Hm Ef) in Em. discriminate Em. }
    simpl. rewrite (kpt_at_lookup _ _ _ Hr), Hsym, Hfar, andb_false_r.
    by apply Hself.
  - simpl. rewrite bool_decide_eq_true_2 by exact Hm.
    rewrite (kpt_at_lookup _ _ _ Hx), Hrefl. simpl. lia.
Qed.

Lemma unique_inv_self_prefix kpts m :
  m <= length kpts ->
  unique_inv_self
    (fold_left (Unique.step kpts) (take m (enumerate kpts)) (Unique.init kpts)).
Proof.
  induction m as [|m IH]; intros Hm.
  - intros k j Hk. simpl in Hk. by rewrite lookup_nil in Hk.
  - destruct (lookup_lt_is_Some_2 kpts m ltac:(lia)) as [x Hx].
    rewrite (enumerate_take_S _ _ _ Hx), fold_left_app.
    apply unique_inv_self_step; [exact Hx| |apply IH; lia].
    apply unique_inv_reps_prefix. lia.
Qed.

Lemma unique_inv_self_final kpts :
  unique_inv_self
    (fold_left (Unique.step kpts) (enumerate kpts) (Unique.init kpts)).
Proof.
  pose proof (unique_inv_self_prefix kpts (length kpts) (le_n _)) as Hinv.
  rewrite take_ge in Hinv by (unfold enumerate; rewrite length_imap; lia).
  exact Hinv.
Qed.

End UniqueSelf.

Lemma Q_l1_distance_sym (x y : vec3 Q) :
  Unique.l1_distance x y = Unique.l1_distance y x.
Proof.
  destruct x as [[a b] c], y as [[a' b'] c'].
  unfold Unique.l1_distance, vsum, vabs, vsub, vmap, vzip.
  cbn [fadd fabs fsub Q_arith].
  by rewrite (Qabs_Qminus a a'), (Qabs_Qminus b b'), (Qabs_Qminus c c').
Qed.

(** X5: for points with rational coordinates, [unique] maps every
    representative to itself: the entry of the inverse map at the first
    index of the representative [k] is [k]. *)
Theorem unique_representative_fixed (kpts : list (vec3 Q)) (k j : nat) :
  let '(_, uniq_index, inverse_map) := Unique.unique kpts in
  uniq_index !! k = Some j -> item inverse_map [j] = k.
Proof.
  unfold Unique.unique. apply unique_inv_self_final.
  - apply Q_l1_distance_refl.
  - intros x y. by rewrite Q_l1_distance_sym.
Qed.

Lemma unique_representative_fixed_witness :
  item (Unique.unique Grids.chain).2 [2] = 1.
Proof.
  apply (unique_representative_fixed Grids.chain 1 2). reflexivity.
Defined.

(** ** [is_zero] and [member] *)

Section MemberFacts.
Context {F : Type} `{Arith F}.

Lemma member_snoc (kpt : vec3 F) (kpts : list (vec3 F)) (row : vec3 F) :
  member kpt (kpts ++ [row])
  = member kpt kpts
    ++ (if fltb (dk kpt row) KPT_DIFF_TOL then [length kpts] else []).
Proof.
  unfold member. rewrite enumerate_snoc, filter_app, map_app. f_equal.
  destruct (fltb (dk kpt row) KPT_DIFF_TOL) eqn:E.
  - by rewrite filter_cons_True by exact E.
  - rewrite filter_cons_False; [done|]. simpl. congruence.
Qed.

Lemma member_lookup (kpt : vec3 F) (kpts : list (vec3 F)) (k : nat) :
  k ∈ member kpt kpts
  <-> exists row, kpts !! k = Some row
                  /\ fltb (dk kpt row) KPT_DIFF_TOL = true.
Proof.
  induction kpts as [|row kpts IH] using rev_ind.
  - split; [intros Hk; by apply elem_of_nil in Hk|].
    intros (row & Hrow & _). by rewrite lookup_nil in Hrow.
  - rewrite member_snoc, elem_of_app, IH. split.
    + intros [(r & Hr & Hclose)|Hk].
      * exists r. split; [|exact Hclose].
        apply lookup_app_l_Some. exact Hr.
      * destruct (fltb (dk kpt row) KPT_DIFF_TOL) eqn:E;
          [|by apply elem_of_nil in Hk].
        apply list_elem_of_singleton in Hk as ->.
        exists row. split; [by apply list_lookup_middle|exact E].
    + intros (r & Hr & Hclose).
      apply lookup_snoc_Some in Hr as [[_ Hr]|[-> <-]].
      * left. eauto.
      * right. rewrite Hclose. by apply list_elem_of_singleton.
Qed.

End MemberFacts.

(** X6: [member(kpt, kpts)] returns, in increasing order and without
    repetition, exactly the positions of the rows of [kpts] whose summed
    absolute difference to [kpt] is below the tolerance. *)
Theorem member_positions
    {F : Type} `{Arith F} (kpt : vec3 F) (kpts : list (vec3 F)) :
  StronglySorted lt (member kpt kpts)
  /\ forall k, k ∈ member kpt kpts
       <-> exists row, kpts !! k = Some row
                       /\ fltb (dk kpt row) KPT_DIFF_TOL = true.
Proof.
  split; [|apply member_lookup].
  induction kpts as [|row kpts IH] using rev_ind; [constructor|].
  rewrite member_snoc. apply StronglySorted_app_2; [|exact IH|].
  - intros k1 k2 Hk1 Hk2.
    apply member_lookup in Hk1 as (r & Hr & _).
    apply lookup_lt_Some in Hr.
    destruct (fltb (dk kpt row) KPT_DIFF_TOL); [|by apply elem_of_nil in Hk2].
    apply list_elem_of_singleton in Hk2 as ->. exact Hr.
  - destruct (fltb (dk kpt row) KPT_DIFF_TOL); repeat constructor.
Qed.

(** X7: for points with rational coordinates, the first index of the
    representative that [unique] assigns to the point [i] is among the
    positions that [member] returns for that point. *)
Theorem unique_representative_is_member (kpts : list (vec3 Q)) (i : nat) :
  i < length kpts ->
  let '(_, uniq_index, inverse_map) := Unique.unique kpts in
  exists j, uniq_index !! item inverse_map [i] = Some j
            /\ j ∈ member (kpt_at kpts i) kpts.
Proof.
  intros Hi.
  pose proof (unique_inverse_close kpts i
                (fun x _ => Q_l1_distance_refl x) Hi) as Hclose.
  unfold Unique.unique in *.
  destruct (unique_inv_reps_final kpts) as (Hlen & _ & Hidx & _).
  destruct Hclose as (rep & Hrep & Hclose).
  destruct (lookup_lt_is_Some_2 (Unique.uniq_index
              (fold_left (Unique.step kpts) (enumerate kpts)
                 (Unique.init kpts)))
              (item (Unique.uniq_inverse
                 (fold_left (Unique.step kpts) (enumerate kpts)
                    (Unique.init kpts))) [i])) as [j Hj].
  { rewrite <- Hlen. by eapply lookup_lt_Some. }
  exists j. split; [exact Hj|].
  destruct (Hidx _ _ Hj) as [_ Hsame]. rewrite Hrep in Hsame.
  apply member_lookup. exists rep. split; [done|]. exact Hclose.
Qed.

Lemma unique_representative_is_member_witness :
  exists j, (Unique.unique Grids.chain).1.2
              !! item (Unique.unique Grids.chain).2 [1] = Some j
            /\ j ∈ member (kpt_at Grids.chain 1) Grids.chain.
Proof.
  apply (unique_representative_is_member Grids.chain 1). simpl. lia.
Defined.

(** X8: for a vector with rational coordinates, [is_zero] accepts the
    difference of a vector with itself and refuses every vector that has a
    component of magnitude at least the tolerance. *)
Theorem is_zero_threshold :
  (forall v : vec3 Q, is_zero (vsub v v) = true)
  /\ (forall v : vec3 Q,
        (KPT_DIFF_TOL <= Qabs v.1.1 \/ KPT_DIFF_TOL <= Qabs v.1.2
         \/ KPT_DIFF_TOL <= Qabs v.2)%Q ->
        is_zero v = false).
Proof.
  split.
  - intros v. apply (Q_l1_distance_refl v).
  - intros [[a b] c] Hbig. cbn [fst snd] in Hbig.
    unfold is_zero, vsum, vabs, vmap. cbn [fltb fadd fabs Q_arith].
    destruct (Qltb (Qabs a + Qabs b + Qabs c) KPT_DIFF_TOL) eqn:E;
      [|reflexivity].
    apply Qltb_lt in E. exfalso.
    pose proof (Qabs_nonneg a). pose proof (Qabs_nonneg b).
    pose proof (Qabs_nonneg c).
    destruct Hbig as [Hbig|[Hbig|Hbig]];
      apply (Qlt_not_le _ _ E); eapply Qle_trans; try exact Hbig.
    + rewrite <- Qplus_assoc. rewrite <- (Qplus_0_r (Qabs a)) at 1.
      apply Qplus_le_r. rewrite <- (Qplus_0_r 0).
      by apply Qplus_le_compat.
    + rewrite <- (Qplus_0_l (Qabs b)) at 1. rewrite <- (Qplus_0_r (0 + Qabs b)).
      apply Qplus_le_compat; [|done]. by apply Qplus_le_compat; [|apply Qle_refl].
    + rewrite <- (Qplus_0_l (Qabs c)) at 1.
      apply Qplus_le_compat; [|apply Qle_refl].
      rewrite <- (Qplus_0_r 0). by apply Qplus_le_compat.
Qed.

(** ** More on [KptsHelper] *)

Section SymmMapAny.
Import KptsHelper.
Variables (kc : ndarray nat) (n : nat).

Lemma symm_map_inv_init :
  symm_map_inv kc n [] (LoopState (zeros_bool [n; n; n]) (zeros [n; n; n]) []).
Proof.
  unfold symm_map_inv. cbn. split; [|split; [|split]].
  - intros t. split; [intros Hf; discriminate Hf|].
    intros (key & Hkey & _). by apply elem_of_nil in Hkey.
  - intros key members Hin. by apply elem_of_nil in Hin.
  - constructor.
  - intros t Ht. by apply elem_of_nil in Ht.
Qed.

Lemma symm_map_inv_visit done st t :
  in_range n t ->
  symm_map_inv kc n done st ->
  symm_map_inv kc n (done ++ [t]) (visit kc st t).
Proof.
  intros Ht (Hcompl & Hmem & Hnodup & Hdone).
  destruct (item (completed st) (index t)) eqn:Ec.
  - rewrite (visit_completed _ _ _ Ec).
    split; [exact Hcompl|]. split; [exact Hmem|]. split; [exact Hnodup|].
    intros u Hu. apply elem_of_app in Hu as [Hu|Hu]; [by apply Hdone|].
    apply list_elem_of_singleton in Hu as ->. exact Ec.
  - assert (Hk : t ∉ OrderedDict.keys (loop_symm_map st)).
    { intros Hin.
      assert (item (completed st) (index t) = true)
        by (apply Hcompl; exists t; split; [exact Hin|apply orbit_self]).
      congruence. }
    destruct (visit_fresh kc st t Ec Hk) as (Hmap & Hc' & _ & _).
    unfold symm_map_inv. rewrite Hmap. unfold OrderedDict.keys in *.
    rewrite map_app. cbn [map fst].
    split; [|split; [|split]].
    + intros u. rewrite Hc', Hcompl. split.
      * intros [Hu|(key & Hkey & Hu)].
        -- exists t. split; [apply elem_of_app; right; left|exact Hu].
        -- exists key. split; [apply elem_of_app; by left|exact Hu].
      * intros (key & Hkey & Hu). apply elem_of_app in Hkey as [Hkey|Hkey].
        -- right. eauto.
        -- apply list_elem_of_singleton in Hkey as ->. by left.
    + intros key members Hin. apply elem_of_app in Hin as [Hin|Hin].
      * by apply Hmem.
      * apply list_elem_of_singleton in Hin. by simplify_eq.
    + apply NoDup_app. split; [exact Hnodup|]. split.
      * intros key Hkey Hin. apply list_elem_of_singleton in Hin as ->.
        by apply Hk.
      * apply NoDup_singleton.
    + intros u Hu. apply Hc'. apply elem_of_app in Hu as [Hu|Hu].
      * right. by apply Hdone.
      * apply list_elem_of_singleton in Hu as ->. left. apply orbit_self.
Qed.

Lemma symm_map_inv_fold ts : forall done st,
  (forall t, t ∈ ts -> in_range n t) ->
  symm_map_inv kc n done st ->
  symm_map_inv kc n (done ++ ts) (fold_left (visit kc) ts st).
Proof.
  induction ts as [|t ts IH]; intros done st Hts Hinv; simpl.
  - by rewrite app_nil_r.
  - rewrite (cons_middle t done ts), app_assoc. apply IH.
    + intros u Hu. apply Hts. by right.
    + apply symm_map_inv_visit; [|exact Hinv]. apply Hts. by left.
Qed.

(** The operations are written from [0] to [3]. *)
Lemma visit_operation_bound st t :
  (forall idx, item (loop_operation st) idx <= 3) ->
  forall idx, item (loop_operation (visit kc st t)) idx <= 3.
Proof.
  intros Hop idx. destruct t as [[p q] r]. unfold visit.
  destruct (item (completed st) [p; q; r]); [apply Hop|].
  cbn [loop_operation setitem item]. repeat case_decide; try lia. apply Hop.
Qed.

Lemma fold_operation_bound ts : forall st,
  (forall idx, item (loop_operation st) idx <= 3) ->
  forall idx, item (loop_operation (fold_left (visit kc) ts st)) idx <= 3.
Proof.
  induction ts as [|t ts IH]; intros st Hop; [exact Hop|]. simpl.
  apply IH. by apply visit_operation_bound.
Qed.

(** At a triple that starts a member list, the operation written at each
    member is a position of the member in the list. *)
Lemma visit_fresh_position st t :
  item (completed st) (index t) = false ->
  forall u, u ∈ orbit kc t ->
    orbit kc t !! item (loop_operation (visit kc st t)) (index u) = Some u.
Proof.
  destruct t as [[p q] r]. intros Hc [[a b] c] Hu. unfold visit.
  cbn [index] in Hc. rewrite Hc.
  cbn [loop_operation index orbit setitem item] in *.
  rewrite !elem_of_cons, elem_of_nil in Hu.
  repeat case_decide; simplify_eq; try reflexivity.
  exfalso. destruct Hu as [?|[?|[?|[?|[]]]]]; congruence.
Qed.

End SymmMapAny.

Section OperationPositions.
Import KptsHelper.
Variables (kc : ndarray nat) (n : nat).
Hypothesis Hclosed : orbit_closed kc n.

Lemma operation_inv_visit done st t :
  in_range n t ->
  loop_inv kc n done st ->
  operation_inv kc st ->
  operation_inv kc (visit kc st t).
Proof.
  intros Ht (Hcompl & Hmem & _) Hpos.
  destruct (item (completed st) (index t)) eqn:Ec.
  - by rewrite (visit_completed _ _ _ Ec).
  - assert (Hk : t ∉ OrderedDict.keys (loop_symm_map st)).
    { intros Hin.
      assert (item (completed st) (index t) = true)
        by (apply Hcompl; exists t; split; [exact Hin|apply orbit_self]).
      congruence. }
    destruct (visit_fresh kc st t Ec Hk) as (Hmap & _ & Hop' & _).
    intros key u Hkey Hu. rewrite Hmap in Hkey.
    unfold OrderedDict.keys in Hkey. rewrite map_app in Hkey.
    apply elem_of_app in Hkey as [Hkey|Hkey].
    + rewrite Hop'; [by apply Hpos|]. intros Hut.
      assert (Hr : in_range n key).
      { apply list_elem_of_fmap in Hkey as ([key' members] & -> & Hin).
        by destruct (Hmem _ _ Hin). }
      assert (item (completed st) (index t) = true); [|congruence].
      apply Hcompl. exists key. split; [exact Hkey|].
      apply (orbit_perm _ _ Hclosed key u Hr Hu).
      apply (orbit_perm _ _ Hclosed t u Ht Hut), orbit_self.
    + apply list_elem_of_singleton in Hkey as ->.
      by apply visit_fresh_position.
Qed.

Lemma operation_inv_fold ts : forall done st,
  (forall t, t ∈ ts -> in_range n t) ->
  loop_inv kc n done st ->
  operation_inv kc st ->
  operation_inv kc (fold_left (visit kc) ts st).
Proof.
  induction ts as [|t ts IH]; intros done st Hts Hinv Hpos; simpl.
  - exact Hpos.
  - apply (IH (done ++ [t])).
    + intros u Hu. apply Hts. by right.
    + apply (loop_inv_visit _ _ Hclosed); [|exact Hinv]. apply Hts. by left.
    + apply (operation_inv_visit done); [|exact Hinv|exact Hpos].
      apply Hts. by left.
Qed.

End OperationPositions.

Lemma fold_visit_shape (kc : ndarray nat) (ts : list KptsHelper.triple) :
  forall st,
    shape (KptsHelper.loop_operation (fold_left (KptsHelper.visit kc) ts st))
    = shape (KptsHelper.loop_operation st).
Proof.
  induction ts as [|t ts IH]; intros st; [reflexivity|]. simpl. rewrite IH.
  destruct t as [[p q] r]. unfold KptsHelper.visit.
  by destruct (item (KptsHelper.completed st) [p; q; r]).
Qed.

Lemma bind_length_const {A B} (f : A -> list B) (m : nat) (l : list A) :
  (forall x, length (f x) = m) -> length (l ≫= f) = length l * m.
Proof.
  intros Hf. induction l as [|x l IH]; [reflexivity|].
  rewrite bind_cons, length_app, Hf, IH. simpl. lia.
Qed.

(** X9: for every lattice and every list of k-points, also one that is not
    closed under momentum conservation, no key of [symm_map] is recorded
    twice, every key is a triple of k-point indices and is mapped to the
    list of itself and its three images [(kr,ks,kp)], [(kq,kp,ks)],
    [(ks,kr,kq)] in this order, [ks] being the entry of [kconserv] at the
    key, all of them triples of k-point indices, and every triple of
    k-point indices occurs in the list of at least one key. *)
Theorem symm_map_members
    {F : Type} `{Arith F} (a : mat3 F) (kpts : list (vec3 F)) :
  let nkpts := length kpts in
  let h := KptsHelper.__init__ a kpts in
  NoDup (OrderedDict.keys (KptsHelper.symm_map h))
  /\ (forall key members,
        (key, members) ∈ KptsHelper.symm_map h ->
        KptsHelper.in_range nkpts key
        /\ members = KptsHelper.orbit (KptsHelper.kconserv h) key
        /\ forall t, t ∈ members -> KptsHelper.in_range nkpts t)
  /\ (forall t, KptsHelper.in_range nkpts t ->
        exists key members,
          (key, members) ∈ KptsHelper.symm_map h /\ t ∈ members).
Proof.
  cbn zeta. unfold KptsHelper.__init__, KptsHelper.build.
  cbn [KptsHelper.symm_map KptsHelper.kconserv].
  pose proof (symm_map_inv_fold (get_kconserv a kpts) (length kpts)
                (KptsHelper.cartesian_prod (length kpts)) [] _
                (fun t Ht => proj1 (cartesian_prod_spec (length kpts) t) Ht)
                (symm_map_inv_init _ _))
    as (Hcompl & Hmem & Hnodup & Hdone).
  rewrite app_nil_l in Hdone.
  split; [exact Hnodup|]. split.
  - intros key members Hin. destruct (Hmem _ _ Hin) as [-> Hr].
    split; [exact Hr|]. split; [reflexivity|].
    destruct key as [[p q] r]. destruct Hr as (Hp & Hq & Hr).
    pose proof (get_kconserv_in_range a kpts p q r Hp) as Hs.
    intros t Ht. cbn [KptsHelper.orbit] in Ht.
    rewrite !elem_of_cons, elem_of_nil in Ht.
    destruct Ht as [->|[->|[->|[->|[]]]]]; simpl; tauto.
  - intros t Ht.
    apply cartesian_prod_spec, Hdone, Hcompl in Ht as (key & Hkey & Ht).
    apply list_elem_of_fmap in Hkey as ([key' members] & -> & Hin).
    exists key', members. split; [exact Hin|].
    by destruct (Hmem _ _ Hin) as [-> _].
Qed.

(** X10: when the conservation array is orbit-closed, the operation that
    [__init__] leaves at a triple of k-point indices is the position of the
    triple in the member list of its key: [0] for the key itself, [1] for
    [(kr,ks,kp)], [2] for [(kq,kp,ks)] and [3] for [(ks,kr,kq)], or the
    last of these positions that holds the triple. *)
Theorem operation_is_position
    {F : Type} `{Arith F} (a : mat3 F) (kpts : list (vec3 F))
    (t : KptsHelper.triple) :
  let nkpts := length kpts in
  let h := KptsHelper.__init__ a kpts in
  KptsHelper.orbit_closed (KptsHelper.kconserv h) nkpts ->
  KptsHelper.in_range nkpts t ->
  exists key members,
    (key, members) ∈ KptsHelper.symm_map h
    /\ members !! item (KptsHelper._operation h) (KptsHelper.index t) = Some t.
Proof.
  cbn zeta. unfold KptsHelper.__init__, KptsHelper.build.
  cbn [KptsHelper.symm_map KptsHelper.kconserv KptsHelper._operation].
  intros Hclosed Ht.
  pose proof (run_loop_inv _ _ Hclosed) as Hinv.
  assert (Hpos : operation_inv (get_kconserv a kpts)
            (fold_left (KptsHelper.visit (get_kconserv a kpts))
               (KptsHelper.cartesian_prod (length kpts))
               (KptsHelper.LoopState
                  (zeros_bool [length kpts; length kpts; length kpts])
                  (zeros [length kpts; length kpts; length kpts]) []))).
  { apply (operation_inv_fold _ _ Hclosed _ []).
    - intros u Hu. by apply cartesian_prod_spec.
    - apply loop_inv_init.
    - intros key u Hkey. by apply elem_of_nil in Hkey. }
  destruct Hinv as (Hcompl & Hmem & _ & Hdone & _).
  apply cartesian_prod_spec, Hdone, Hcompl in Ht as (key & Hkey & Ht).
  pose proof (Hpos key t Hkey Ht) as Hlook.
  apply list_elem_of_fmap in Hkey as ([key' members] & -> & Hin).
  exists key', members. split; [exact Hin|].
  by destruct (Hmem _ _ Hin) as [-> _].
Qed.

Lemma operation_is_position_witness :
  let h := KptsHelper.__init__ Grids.identity3 Grids.grid2 in
  exists key members,
    (key, members) ∈ KptsHelper.symm_map h
    /\ members !! item (KptsHelper._operation h) [1; 0; 1] = Some (1, 0, 1).
Proof.
  apply (operation_is_position Grids.identity3 Grids.grid2 (1, 0, 1)).
  - apply orbit_closedb_sound. vm_compute. reflexivity.
  - simpl. lia.
Defined.

Ltac by_decide :=
  match goal with |- ?P => exact (bool_decide_unpack P I) end.

(** X11: for a helper that [__init__] has built and a tensor with four
    axes, [transform_symm] returns a tensor with four axes at every triple
    of k-point indices: it does not fall through its four cases, and the
    transpositions are defined.  At three indices of which one is not
    below the number of k-points it raises [IndexError]. *)
Theorem transform_symm_returns
    {F : Type} `{Arith F} {A : Type} `{Conj A}
    (a : mat3 F) (kpts : list (vec3 F)) (eri_kpt : ndarray A)
    (kp kq kr : nat) :
  let h := KptsHelper.__init__ a kpts in
  length (shape eri_kpt) = 4 ->
  (KptsHelper.in_range (length kpts) (kp, kq, kr) ->
   exists r, transform_symm h eri_kpt kp kq kr = Ok (Some r)
             /\ length (shape r) = 4)
  /\ (~ KptsHelper.in_range (length kpts) (kp, kq, kr) ->
      transform_symm h eri_kpt kp kq kr
      = Raise (IndexError "index is out of bounds")).
Proof.
  cbn zeta. intros Hlen.
  assert (Hshape : shape (KptsHelper._operation (KptsHelper.__init__ a kpts))
                   = [length kpts; length kpts; length kpts]).
  { unfold KptsHelper.__init__, KptsHelper.build.
    cbn [KptsHelper._operation]. by rewrite fold_visit_shape. }
  assert (Hbound : item (KptsHelper._operation (KptsHelper.__init__ a kpts))
                     [kp; kq; kr] <= 3).
  { unfold KptsHelper.__init__, KptsHelper.build.
    cbn [KptsHelper._operation]. apply fold_operation_bound.
    intros idx. cbn. lia. }
  assert (Hrange : Forall2 lt [kp; kq; kr] [length kpts; length kpts; length kpts]
                   <-> KptsHelper.in_range (length kpts) (kp, kq, kr)).
  { cbn [KptsHelper.in_range]. split.
    - intros Hall. repeat (apply Forall2_cons_1 in Hall as [? Hall]). tauto.
    - intros (Hp & Hq & Hr). repeat constructor; assumption. }
  unfold transform_symm, getitem_nd. rewrite Hshape. split.
  - intros Hin. rewrite decide_True by (by apply Hrange).
    cbn [mbind result_bind].
    assert (Haxes : forall axes, length axes = 4 -> NoDup axes ->
              Forall (fun ax => ax < 4) axes ->
              exists r, transpose eri_kpt axes = Ok r /\ length (shape r) = 4).
    { intros axes H4 Hnd Hlt. unfold transpose. rewrite Hlen.
      rewrite decide_True by done. eexists. split; [reflexivity|].
      cbn [shape]. by rewrite length_map. }
    repeat case_decide; try lia.
    + eauto.
    + destruct (Haxes [2; 3; 0; 1]) as (r & -> & Hr);
        [reflexivity|by_decide|by_decide|].
      eauto.
    + destruct (Haxes [1; 0; 3; 2]) as (r & -> & Hr);
        [reflexivity|by_decide|by_decide|].
      cbn [mbind result_bind]. eauto.
    + destruct (Haxes [3; 2; 1; 0]) as (r & -> & Hr);
        [reflexivity|by_decide|by_decide|].
      cbn [mbind result_bind]. eauto.
  - intros Hout. rewrite decide_False by (by rewrite Hrange). reflexivity.
Qed.

Lemma transform_symm_returns_witness :
  let h := KptsHelper.__init__ Grids.identity3 Grids.grid2 in
  (KptsHelper.in_range 2 (1, 0, 1) ->
   exists r, transform_symm h Eris.ramp 1 0 1 = Ok (Some r)
             /\ length (shape r) = 4)
  /\ (~ KptsHelper.in_range 2 (1, 0, 1) ->
      transform_symm h Eris.ramp 1 0 1
      = Raise (IndexError "index is out of bounds")).
Proof.
  apply (transform_symm_returns Grids.identity3 Grids.grid2 Eris.ramp 1 0 1).
  reflexivity.
Defined.

(** X12: every case of [transform_symm] is its own inverse.  When the
    method returns a tensor, applying it to this tensor at the same three
    indices returns a tensor of the shape of the first argument with the
    same entry at every index [(i,j,k,l)]. *)
Theorem transform_symm_involution
    {A : Type} `{Conj A} (self : KptsHelper.t) (eri_kpt r : ndarray A)
    (kp kq kr : nat) :
  transform_symm self eri_kpt kp kq kr = Ok (Some r) ->
  exists r',
    transform_symm self r kp kq kr = Ok (Some r')
    /\ shape r' = shape eri_kpt
    /\ forall i j k l, item r' [i; j; k; l] = item eri_kpt [i; j; k; l].
Proof.
  unfold transform_symm.
  destruct (getitem_nd (KptsHelper._operation self) [kp; kq; kr])
    as [operation|e]; [|discriminate].
  cbn [mbind result_bind].
  assert (Htr : forall axes t,
            transpose eri_kpt axes = Ok t ->
            exists a b c d, shape eri_kpt = [a; b; c; d] \/ length axes <> 4).
  { intros axes t. unfold transpose. case_decide as Hd; [|discriminate].
    intros _. destruct Hd as (Hlen & _).
    destruct (decide (length axes = 4)) as [H4|H4];
      [|exists 0, 0, 0, 0; by right].
    rewrite H4 in Hlen.
    destruct (shape eri_kpt) as [|a [|b [|c [|d [|]]]]]; try discriminate.
    exists a, b, c, d. by left. }
  repeat case_decide; try discriminate.
  - intros [= <-]. exists eri_kpt. auto.
  - destruct (transpose eri_kpt [2; 3; 0; 1]) as [t|e] eqn:Et; [|discriminate].
    cbn [mbind result_bind]. intros [= <-].
    destruct (Htr _ _ Et) as (a & b & c & d & [Hs|Hn]); [|by destruct Hn].
    revert Et. unfold transpose. rewrite Hs. cbn [length].
    rewrite decide_True by (split_and!; [done|by_decide|by_decide]).
    intros [= <-]. cbn [shape length map nth].
    rewrite decide_True by (split_and!; [done|by_decide|by_decide]).
    cbn [mbind result_bind]. eexists. split; [reflexivity|].
    split; reflexivity.
  - destruct (transpose eri_kpt [1; 0; 3; 2]) as [t|e] eqn:Et; [|discriminate].
    cbn [mbind result_bind]. intros [= <-].
    destruct (Htr _ _ Et) as (a & b & c & d & [Hs|Hn]); [|by destruct Hn].
    revert Et. unfold transpose. rewrite Hs. cbn [length].
    rewrite decide_True by (split_and!; [done|by_decide|by_decide]).
    intros [= <-]. cbn [shape length map nth conj_array].
    rewrite decide_True by (split_and!; [done|by_decide|by_decide]).
    cbn [mbind result_bind]. eexists. split; [reflexivity|].
    split; [reflexivity|]. intros i j k l. cbn. apply conj_involutive.
  - destruct (transpose eri_kpt [3; 2; 1; 0]) as [t|e] eqn:Et; [|discriminate].
    cbn [mbind result_bind]. intros [= <-].
    destruct (Htr _ _ Et) as (a & b & c & d & [Hs|Hn]); [|by destruct Hn].
    revert Et. unfold transpose. rewrite Hs. cbn [length].
    rewrite decide_True by (split_and!; [done|by_decide|by_decide]).
    intros [= <-]. cbn [shape length map nth conj_array].
    rewrite decide_True by (split_and!; [done|by_decide|by_decide]).
    cbn [mbind result_bind]. eexists. split; [reflexivity|].
    split; [reflexivity|]. intros i j k l. cbn. apply conj_involutive.
Qed.

Lemma transform_symm_involution_witness :
  let h := KptsHelper.__init__ Grids.identity3 Grids.grid2 in
  let r := conj_array
             (NDArray [1; 2; 1; 3]
                (fun idx =>
                   item Eris.ramp
                     (map (fun m => nth (position m [1; 0; 3; 2]) idx 0)
                          (seq 0 4)))) in
  exists r',
    transform_symm h r 1 0 0 = Ok (Some r')
    /\ shape r' = shape Eris.ramp
    /\ forall i j k l, item r' [i; j; k; l] = item Eris.ramp [i; j; k; l].
Proof.
  cbn zeta.
  apply (transform_symm_involution
           (KptsHelper.__init__ Grids.identity3 Grids.grid2) Eris.ramp _ 1 0 0).
  vm_compute. reflexivity.
Defined.

(** X13: [loop_kkk] yields every triple of indices below [nkpts] exactly
    once, [nkpts**3] triples in all. *)
Theorem loop_kkk_enumerates (nkpts : nat) :
  length (loop_kkk nkpts) = nkpts * nkpts * nkpts
  /\ NoDup (loop_kkk nkpts)
  /\ forall kk kl km,
       (kk, kl, km) ∈ loop_kkk nkpts
       <-> kk < nkpts /\ kl < nkpts /\ km < nkpts.
Proof.
  unfold loop_kkk. cbn zeta. split; [|split].
  - rewrite (bind_length_const _ (nkpts * nkpts)), length_seq; [lia|].
    intros kk. rewrite (bind_length_const _ nkpts), length_seq; [lia|].
    intros kl. rewrite (bind_length_const _ 1), length_seq; [lia|done].
  - apply NoDup_bind; [| |apply NoDup_seq].
    + intros kk kk' t _ _ Ht Ht'.
      apply list_elem_of_bind in Ht as (kl & Ht & _).
      apply list_elem_of_bind in Ht as (km & Ht & _).
      apply list_elem_of_singleton in Ht.
      apply list_elem_of_bind in Ht' as (kl' & Ht' & _).
      apply list_elem_of_bind in Ht' as (km' & Ht' & _).
      apply list_elem_of_singleton in Ht'. congruence.
    + intros kk _. apply NoDup_bind; [| |apply NoDup_seq].
      * intros kl kl' t _ _ Ht Ht'.
        apply list_elem_of_bind in Ht as (km & Ht & _).
        apply list_elem_of_singleton in Ht.
        apply list_elem_of_bind in Ht' as (km' & Ht' & _).
        apply list_elem_of_singleton in Ht'. congruence.
      * intros kl _. apply NoDup_bind; [| |apply NoDup_seq].
        -- intros km km' t _ _ Ht Ht'.
           apply list_elem_of_singleton in Ht.
           apply list_elem_of_singleton in Ht'. congruence.
        -- intros km _. apply NoDup_singleton.
  - intros kk kl km. rewrite list_elem_of_bind. split.
    + intros (kk' & Ht & Hkk).
      apply list_elem_of_bind in Ht as (kl' & Ht & Hkl).
      apply list_elem_of_bind in Ht as (km' & Ht & Hkm).
      apply list_elem_of_singleton in Ht. simplify_eq.
      apply elem_of_seq in Hkk, Hkl, Hkm. lia.
    + intros (Hkk & Hkl & Hkm). exists kk. split; [|apply elem_of_seq; lia].
      apply list_elem_of_bind. exists kl. split; [|apply elem_of_seq; lia].
      apply list_elem_of_bind. exists km. split; [|apply elem_of_seq; lia].
      by apply list_elem_of_singleton.
Qed.

(** ** More on the nested-array codec *)

Section CodecLayout.
Import Codec CodecShapes.

(** X16: when [describe_nested] accepts data made of arrays and sequences,
    [nested_to_vector] without a destination returns the description of
    the data and the vector of the entries of its arrays from left to
    right, each array in row-major order, converted to the element type
    that [describe_nested] reports ([float64] when it reports none). *)
Theorem nested_to_vector_layout (data : nested) struct total dtype :
  well_formed data = true ->
  describe_nested data = Ok (struct, total, dtype) ->
  nested_to_vector data None 0
  = Ok (inl (Vector (default float64 dtype)
               (map (astype (default float64 dtype)) (flatten data)),
             structure_of data)).
Proof.
  intros Hwf Hd. unfold nested_to_vector. rewrite Hd.
  cbn [mbind result_bind].
  destruct (describe_nested_structure _ _ _ _ Hd) as [-> ->].
  unfold empty.
  pose proof (store_writes data Hwf (default float64 dtype) []
                (replicate (total_size data) (0%Q, 0%Q)) []) as Hs.
  rewrite !app_nil_r in Hs. cbn [app length] in Hs.
  rewrite Hs by apply length_replicate. reflexivity.
Qed.

Lemma nested_to_vector_layout_witness :
  nested_to_vector Samples.tested None 0
  = Ok (inl (Vector (default float64 (Some float64))
               (map (astype (default float64 (Some float64)))
                  (flatten Samples.tested)),
             structure_of Samples.tested)).
Proof.
  apply (nested_to_vector_layout Samples.tested
           (structure_of Samples.tested) 26 (Some float64)).
  - vm_compute. reflexivity.
  - vm_compute. reflexivity.
Defined.

(** X17: with a destination, [nested_to_vector] overwrites the
    [total_size] elements from [offset] on with the converted entries of
    the data, leaves the elements before and after them as they are, and
    returns the offset behind the last element written. *)
Theorem nested_to_vector_into_destination (data : nested) (t : dtype)
    (before slice after : list scalar) :
  well_formed data = true ->
  length slice = total_size data ->
  nested_to_vector data (Some (Vector t (before ++ slice ++ after)))
    (length before)
  = Ok (inr (Vector t (before ++ map (astype t) (flatten data) ++ after),
             length before + total_size data)).
Proof.
  intros Hwf Hlen. unfold nested_to_vector.
  by rewrite (store_writes data Hwf t before slice after Hlen).
Qed.

Lemma nested_to_vector_into_destination_witness :
  nested_to_vector Samples.float_int
    (Some (Vector float64 ([(7%Q, 0%Q)] ++ [(0%Q, 0%Q); (0%Q, 0%Q)]
                           ++ [(9%Q, 0%Q)])))
    (length [(7%Q, 0%Q)])
  = Ok (inr (Vector float64
               ([(7%Q, 0%Q)]
                ++ map (astype float64) (flatten Samples.float_int)
                ++ [(9%Q, 0%Q)]),
             length [(7%Q, 0%Q)] + total_size Samples.float_int)).
Proof.
  apply (nested_to_vector_into_destination Samples.float_int float64
           [(7%Q, 0%Q)] [(0%Q, 0%Q); (0%Q, 0%Q)] [(9%Q, 0%Q)]).
  - vm_compute. reflexivity.
  - vm_compute. reflexivity.
Defined.

(** X18: restoring into a destination from a non-empty list of
    descriptions never returns: the call for the first description raises,
    or its result, a pair, cannot be added to the offset.  Hence the
    description of a composite array whose data is a non-empty list is
    never restored. *)
Theorem vector_to_nested_composite_list_raises
    (v : vector) (element : structure) (items : list structure)
    (copy ensure_size_matches : bool) :
  (forall destination destination_indexes,
     exists e,
       vector_to_nested v (SSeq (element :: items)) copy ensure_size_matches
         (Some destination) destination_indexes = Raise e)
  /\ (forall shape t destination destination_indexes,
        exists e,
          vector_to_nested v (SComposite shape t (SSeq (element :: items)))
            copy ensure_size_matches destination destination_indexes
          = Raise e).
Proof.
  assert (Hlist : forall esm destination destination_indexes,
            exists e,
              vector_to_nested v (SSeq (element :: items)) copy esm
                (Some destination) destination_indexes = Raise e).
  { intros esm destination destination_indexes.
    cbn [vector_to_nested].
    destruct (ashape destination !! length destination_indexes);
      [|eauto].
    case_decide; [eauto|].
    destruct (vector_to_nested (slice_from v 0) element true false
                (Some destination) (destination_indexes ++ [0]));
      cbn [mbind result_bind]; eauto. }
  split; [apply Hlist|].
  intros shape t destination destination_indexes.
  assert (Hcopy : forall esm d idx,
            vector_to_nested v (SSeq (element :: items)) true esm (Some d) idx
            = vector_to_nested v (SSeq (element :: items)) copy esm (Some d) idx)
    by reflexivity.
  change (vector_to_nested v (SComposite shape t (SSeq (element :: items)))
            copy ensure_size_matches destination destination_indexes)
    with (target ←
            match destination with
            | Some destination =>
                if decide (shape <> drop (length destination_indexes)
                                         (ashape destination))
                then Raise (ValueError "Composite array shape mismatch")
                else if decide (t <> adtype destination)
                then Raise (ValueError "Dtype mismatch")
                else Ok (destination, destination_indexes)
            | None => Ok (zeros shape t, [])
            end;
          vector_to_nested v (SSeq (element :: items)) true
            ensure_size_matches (Some target.1) target.2).
  destruct destination as [d|]; cbn [mbind result_bind].
  - repeat case_decide; cbn [mbind result_bind]; eauto.
  - rewrite Hcopy. apply Hlist.
Qed.

(** X19: the element type that [describe_nested] returns is the one
    reported for the last item of the data: the element type of the last
    array when the last item is an array, none when it is an empty
    sequence, whatever the items before it are. *)
Theorem describe_nested_reports_last_dtype (data : nested) struct total dtype :
  describe_nested data = Ok (struct, total, dtype) ->
  dtype = reported_dtype data.
Proof.
  revert struct total dtype.
  induction data as [a|items IH|] using nested_induction;
    intros struct total dtype Hd.
  - simpl in Hd. by simplify_eq.
  - cbn [describe_nested] in Hd. cbn [reported_dtype].
    match type of Hd with
    | context [for_each ?f items ?init] =>
        set (body := f) in Hd;
        assert (Hloop : forall acc_s acc_t acc_d s' t' d',
                  for_each body items (acc_s, acc_t, acc_d) = Ok (s', t', d') ->
                  d' = fold_left (fun _ i => reported_dtype i) items acc_d)
    end.
    { clear Hd. induction IH as [|i items Hi _ IHitems];
        intros acc_s acc_t acc_d s' t' d' Hloop.
      - simpl in Hloop. by simplify_eq.
      - cbn [for_each] in Hloop.
        destruct (body (acc_s, acc_t, acc_d) i) as [[[s1 t1] d1]|e] eqn:Eb;
          [|discriminate Hloop].
        cbn [mbind result_bind] in Hloop.
        rewrite (IHitems _ _ _ _ _ _ Hloop). cbn [fold_left]. f_equal.
        subst body. cbn beta iota in Eb.
        destruct (describe_nested i) as [[[si ti] di]|e] eqn:Ei;
          [|discriminate Eb].
        rewrite <- (Hi _ _ _ eq_refl).
        cbn [mbind result_bind] in Eb.
        destruct acc_d, di; try case_decide; by simplify_eq. }
    destruct (for_each body items ([], 0, None)) as [[[s' t'] d']|e] eqn:El;
      [|discriminate Hd].
    cbn [mbind result_bind] in Hd. simplify_eq.
    apply (Hloop _ _ _ _ _ _ El).
  - discriminate Hd.
Qed.

Lemma describe_nested_reports_last_dtype_witness :
  Some int64 = reported_dtype Samples.float_empty_int.
Proof.
  apply (describe_nested_reports_last_dtype Samples.float_empty_int
           (structure_of Samples.float_empty_int) 2 (Some int64)).
  vm_compute. reflexivity.
Defined.

End CodecLayout.

Section CodecRestore.
Import Codec CodecShapes.

Lemma structure_induction (P : structure -> Prop) :
  (forall shape, P (SArray shape)) ->
  (forall shape t data, P data -> P (SComposite shape t data)) ->
  (forall items, Forall P items -> P (SSeq items)) ->
  P SNoType -> P SUnknownType -> P SOther ->
  forall struct, P struct.
Proof.
  intros Harray Hcomposite Hseq Hnotype Hunknown Hother. fix IH 1.
  intros [shape|shape t data|items| | |].
  - apply Harray.
  - apply Hcomposite, IH.
  - apply Hseq. induction items as [|i items IHitems]; constructor.
    + apply IH.
    + exact IHitems.
  - exact Hnotype.
  - exact Hunknown.
  - exact Hother.
Qed.

(** The loop of [vector_to_nested] over plain descriptions, on any
    vector. *)
Lemma vector_to_nested_plain_items (items : list structure) (v : vector)
    (copy : bool) :
  Forall (fun i => forall w,
            (structure_size i <= length (vdata w) ->
             exists d,
               vector_to_nested w i copy false None []
               = Ok (WithSize d (structure_size i))
               /\ restored (vdtype w) i (take (structure_size i) (vdata w)) d)
            /\ (length (vdata w) < structure_size i ->
                vector_to_nested w i copy false None []
                = Raise (ValueError "Additional vector elements are required")))
         items ->
  forall offset result,
    offset <= length (vdata v) ->
    let n := list_sum (map structure_size items) in
    let loop :=
      for_each
        (fun '(offset, result) i =>
           r ← vector_to_nested (slice_from v offset) i copy false None [];
           match r with
           | WithSize nested size => Ok (offset + size, result ++ [nested])
           | Only _ => Raise (TypeError "cannot unpack the result")
           end)
        items (offset, result) in
    (offset + n <= length (vdata v) ->
     exists ds,
       loop = Ok (offset + n, result ++ ds)
       /\ map structure_of ds = items
       /\ flat_map flatten ds = take n (drop offset (vdata v))
       /\ Forall (fun d => well_formed d = true) ds
       /\ Forall (fun t' => t' = vdtype v) (flat_map leaf_dtypes ds))
    /\ (length (vdata v) < offset + n ->
        loop = Raise (ValueError "Additional vector elements are required")).
Proof.
  intros IH. induction IH as [|i items Hi _ IHitems];
    intros offset result Hoff.
  - cbn zeta. simpl. split; [|lia]. intros _. exists [].
    rewrite Nat.add_0_r, app_nil_r. by repeat split.
  - cbn zeta.
    change (list_sum (map structure_size (i :: items)))
      with (structure_size i + list_sum (map structure_size items)).
    cbn [for_each].
    destruct (Hi (slice_from v offset)) as [Hok Hfail].
    cbn [slice_from vdata vdtype] in Hok, Hfail.
    rewrite length_drop in Hok, Hfail.
    destruct (decide (structure_size i <= length (vdata v) - offset))
      as [Hfit|Hshort].
    + destruct (Hok Hfit) as (d & Hcall & Hs & Hf & Hw & Ht).
      assert (Hstep :
        vector_to_nested (slice_from v offset) i copy false None []
        = Ok (WithSize d (structure_size i))) by exact Hcall.
      rewrite Hstep. cbn [mbind result_bind].
      destruct (IHitems (offset + structure_size i) (result ++ [d]))
        as [Hok' Hfail']; [lia|].
      cbn zeta in Hok', Hfail'. split.
      * intros Hlen. destruct Hok' as (ds & Hloop & Hss & Hff & Hww & Htt);
          [lia|].
        exists (d :: ds). rewrite Hloop. split.
        { rewrite <- app_assoc. do 2 f_equal. lia. }
        split; [by rewrite <- Hs, <- Hss|].
        split.
        { cbn [flat_map]. rewrite Hf, Hff.
          rewrite <- drop_drop, <- take_take_drop. reflexivity. }
        split; [by constructor|].
        cbn [flat_map]. apply Forall_app. by split.
      * intros Hlen. apply Hfail'. lia.
    + split; [lia|]. intros _.
      assert (Hstep :
        vector_to_nested (slice_from v offset) i copy false None []
        = Raise (ValueError "Additional vector elements are required"))
        by (apply Hfail; lia).
      rewrite Hstep. reflexivity.
Qed.

(** Restoring from any vector by a plain description, the number of
    elements used being returned with the value. *)
Lemma vector_to_nested_plain_reads (struct : structure) :
  plain struct = true ->
  forall v copy,
    (structure_size struct <= length (vdata v) ->
     exists d,
       vector_to_nested v struct copy false None []
       = Ok (WithSize d (structure_size struct))
       /\ restored (vdtype v) struct (take (structure_size struct) (vdata v)) d)
    /\ (length (vdata v) < structure_size struct ->
        vector_to_nested v struct copy false None []
        = Raise (ValueError "Additional vector elements are required")).
Proof.
  induction struct as [shape|shape t data _|items IH| | |]
    using structure_induction; intros Hp v copy; try discriminate Hp.
  - cbn [plain] in Hp. apply negb_true_iff, bool_decide_eq_false_1 in Hp.
    cbn [vector_to_nested structure_size andb]. split.
    + intros Hlen. rewrite bool_decide_eq_false_2 by lia.
      rewrite decide_False by exact Hp. eexists. split; [reflexivity|].
      split; [reflexivity|]. split; [reflexivity|]. split.
      * cbn [well_formed ashape entries]. unfold size. cbn [ashape].
        rewrite bool_decide_eq_false_2 by exact Hp.
        rewrite bool_decide_eq_true_2 by (rewrite length_take; lia).
        reflexivity.
      * cbn. by constructor.
    + intros Hlen. by rewrite bool_decide_eq_true_2 by lia.
  - cbn [plain] in Hp. apply forallb_Forall in Hp.
    assert (Hitems : Forall (fun i => forall w,
              (structure_size i <= length (vdata w) ->
               exists d,
                 vector_to_nested w i copy false None []
                 = Ok (WithSize d (structure_size i))
                 /\ restored (vdtype w) i (take (structure_size i) (vdata w)) d)
              /\ (length (vdata w) < structure_size i ->
                  vector_to_nested w i copy false None []
                  = Raise (ValueError "Additional vector elements are required")))
             items).
    { eapply Forall_impl; [apply Forall_and; split; [exact IH|exact Hp]|].
      intros i [Hi Hpi] w. by apply Hi. }
    destruct (vector_to_nested_plain_items items v copy Hitems 0 [])
      as [Hok Hfail]; [lia|].
    cbn zeta in Hok, Hfail. cbn [vector_to_nested structure_size]. split.
    + intros Hlen. destruct (Hok Hlen) as (ds & Hloop & Hs & Hf & Hw & Ht).
      rewrite Hloop. cbn [mbind result_bind app Nat.add].
      exists (Seq ds). split; [reflexivity|].
      split; [cbn [structure_of]; by rewrite Hs|].
      split; [exact Hf|]. split; [|exact Ht].
      cbn [well_formed]. by apply forallb_Forall.
    + intros Hlen. by rewrite Hfail by exact Hlen.
Qed.

(** Restoring with [ensure_size_matches] from a vector of the size of a
    plain description. *)
Lemma vector_to_nested_plain_all (struct : structure) (v : vector)
    (copy : bool) :
  plain struct = true ->
  length (vdata v) = structure_size struct ->
  exists d,
    vector_to_nested v struct copy true None [] = Ok (Only d)
    /\ restored (vdtype v) struct (vdata v) d.
Proof.
  intros Hp Hlen. destruct struct as [shape|shape t data|items| | |];
    try discriminate Hp.
  - destruct (vector_to_nested_plain_reads _ Hp v copy) as [Hok _].
    destruct Hok as (d & Hcall & Hr); [lia|].
    rewrite <- Hlen, firstn_all in Hr.
    cbn [plain] in Hp. apply negb_true_iff, bool_decide_eq_false_1 in Hp.
    cbn [vector_to_nested structure_size andb] in *.
    rewrite bool_decide_eq_false_2 in Hcall by lia.
    rewrite decide_False in Hcall by exact Hp.
    rewrite bool_decide_eq_true_2 by exact Hlen. cbn [negb].
    rewrite bool_decide_eq_false_2 by lia.
    rewrite decide_False by exact Hp.
    exists d. split; [|exact Hr]. by simplify_eq.
  - destruct (vector_to_nested_plain_reads _ Hp v copy) as [Hok _].
    destruct Hok as (d & Hcall & Hr); [lia|].
    rewrite <- Hlen, firstn_all in Hr.
    cbn [vector_to_nested structure_size] in *.
    match type of Hcall with
    | context [for_each ?f items ?init] =>
        destruct (for_each f items init) as [[offset result]|e] eqn:El;
          [|discriminate Hcall]
    end.
    cbn [mbind result_bind] in *. simplify_eq.
    rewrite decide_False by lia. eauto.
Qed.

Lemma map_fixed {A} (f : A -> A) (l : list A) :
  Forall (fun x => f x = x) l -> map f l = l.
Proof.
  induction 1 as [|x l Hx _ IHl]; [reflexivity|]. simpl. by rewrite Hx, IHl.
Qed.

Lemma typed_of_leaves (t : dtype) (d : nested) :
  well_formed d = true ->
  Forall (fun t' => t' = t) (leaf_dtypes d) ->
  Forall (fun x => astype t x = x) (flatten d) ->
  typed t d = true.
Proof.
  induction d as [a|items IH|] using nested_induction; intros Hwf Ht Hx.
  - cbn in *. rewrite Forall_singleton in Ht.
    rewrite bool_decide_eq_true_2 by exact Ht. cbn [andb].
    apply forallb_Forall. eapply Forall_impl; [exact Hx|].
    intros x Hfix. by apply bool_decide_eq_true_2.
  - apply well_formed_seq in Hwf. cbn [typed leaf_dtypes flatten] in *.
    apply forallb_Forall.
    induction IH as [|i items Hi _ IHitems]; [constructor|].
    apply Forall_cons in Hwf as [Hwi Hwf]. cbn [flat_map] in Ht, Hx.
    apply Forall_app in Ht as [Hti Ht]. apply Forall_app in Hx as [Hxi Hx].
    constructor; [by apply Hi|by apply IHitems].
  - discriminate Hwf.
Qed.

Lemma no_empty_sequence_structure (d : nested) :
  well_formed d = true ->
  no_empty_list (structure_of d) = true ->
  no_empty_sequence d = true.
Proof.
  induction d as [a|items IH|] using nested_induction; intros Hwf Hne.
  - reflexivity.
  - apply well_formed_seq in Hwf.
    cbn [no_empty_sequence no_empty_list structure_of] in *.
    apply andb_true_iff in Hne as [Hnil Hne]. apply andb_true_iff. split.
    + destruct items as [|i items'].
      * by rewrite bool_decide_eq_true_2 in Hnil.
      * by rewrite bool_decide_eq_false_2.
    + clear Hnil. apply forallb_Forall. apply forallb_Forall in Hne.
      induction IH as [|i items Hi _ IHitems]; [constructor|].
      apply Forall_cons in Hwf as [Hwi Hwf]. cbn [map] in Hne.
      apply Forall_cons in Hne as [Hni Hne].
      constructor; [by apply Hi|by apply IHitems].
  - reflexivity.
Qed.

(** X20: restoring with [ensure_size_matches] by a description made of
    array descriptions with at least one axis and of lists: from a vector
    with as many elements as the description stands for, the result has
    the described nesting and shapes, its arrays have the element type of
    the vector, and their entries from left to right are the elements of
    the vector; from a vector of any other size the call raises
    [ValueError]. *)
Theorem vector_to_nested_checks_size (struct : structure) (v : vector)
    (copy : bool) :
  plain struct = true ->
  (length (vdata v) = structure_size struct ->
   exists d,
     vector_to_nested v struct copy true None [] = Ok (Only d)
     /\ structure_of d = struct
     /\ flatten d = vdata v
     /\ Forall (fun t => t = vdtype v) (leaf_dtypes d))
  /\ (length (vdata v) <> structure_size struct ->
      exists msg,
        vector_to_nested v struct copy true None [] = Raise (ValueError msg)).
Proof.
  intros Hp. split.
  - intros Hlen.
    destruct (vector_to_nested_plain_all struct v copy Hp Hlen)
      as (d & Hcall & Hs & Hf & _ & Ht).
    eauto.
  - intros Hlen. destruct (vector_to_nested_plain_reads _ Hp v copy)
      as [Hok Hfail].
    destruct struct as [shape|shape t data|items| | |]; try discriminate Hp.
    + cbn [vector_to_nested structure_size] in *.
      rewrite bool_decide_eq_false_2 by exact Hlen. cbn [negb andb]. eauto.
    + cbn [vector_to_nested structure_size] in *.
      destruct (decide (length (vdata v)
                        < list_sum (map structure_size items))) as [Hlt|Hge].
      * match type of Hfail with
        | context [for_each ?f items ?init] =>
            destruct (for_each f items init) as [[offset result]|e] eqn:El
        end.
        -- specialize (Hfail Hlt). discriminate Hfail.
        -- cbn [mbind result_bind] in *. specialize (Hfail Hlt).
           simplify_eq. eauto.
      * destruct Hok as (d & Hcall & _); [lia|].
        match type of Hcall with
        | context [for_each ?f items ?init] =>
            destruct (for_each f items init) as [[offset result]|e] eqn:El;
              [|discriminate Hcall]
        end.
        cbn [mbind result_bind] in *. simplify_eq.
        rewrite decide_True by lia. eauto.
Qed.

Lemma vector_to_nested_checks_size_witness :
  let struct := SSeq [SArray [2]; SSeq [SArray [1; 1]]] in
  let v := Vector float64 (Samples.reals [4; 5; 6]%Z) in
  (length (vdata v) = structure_size struct ->
   exists d,
     vector_to_nested v struct true true None [] = Ok (Only d)
     /\ structure_of d = struct
     /\ flatten d = vdata v
     /\ Forall (fun t => t = vdtype v) (leaf_dtypes d))
  /\ (length (vdata v) <> structure_size struct ->
      exists msg,
        vector_to_nested v struct true true None [] = Raise (ValueError msg)).
Proof.
  apply (vector_to_nested_checks_size
           (SSeq [SArray [2]; SSeq [SArray [1; 1]]])
           (Vector float64 (Samples.reals [4; 5; 6]%Z)) true).
  reflexivity.
Defined.

(** X21: the round trip that starts from the vector.  For a description
    made of array descriptions with at least one axis and of non-empty
    lists, and a vector of its size that holds elements of its own element
    type, [vector_to_nested] returns data from which [nested_to_vector]
    returns the vector and the description. *)
Theorem vector_round_trip (struct : structure) (v : vector) (copy : bool) :
  plain struct = true ->
  no_empty_list struct = true ->
  length (vdata v) = structure_size struct ->
  Forall (fun x => astype (vdtype v) x = x) (vdata v) ->
  exists d,
    vector_to_nested v struct copy true None [] = Ok (Only d)
    /\ nested_to_vector d None 0 = Ok (inl (v, struct)).
Proof.
  intros Hp Hne Hlen Hfix.
  destruct (vector_to_nested_plain_all struct v copy Hp Hlen)
    as (d & Hcall & Hs & Hf & Hwf & Ht).
  exists d. split; [exact Hcall|].
  assert (Hd : describe_nested d
               = Ok (structure_of d, total_size d, Some (vdtype v))).
  { apply describe_nested_typed; [exact Hwf| |].
    - apply no_empty_sequence_structure; [exact Hwf|by rewrite Hs].
    - apply typed_of_leaves; [exact Hwf|exact Ht|by rewrite Hf]. }
  unfold nested_to_vector. rewrite Hd. cbn [mbind result_bind].
  unfold empty. change (default float64 (Some (vdtype v))) with (vdtype v).
  pose proof (store_writes d Hwf (vdtype v) []
                (replicate (total_size d) (0%Q, 0%Q)) []
                (length_replicate _ _)) as Hstore.
  cbn [app length] in Hstore. rewrite !app_nil_r in Hstore.
  rewrite Hstore. cbn [mbind result_bind fst]. rewrite Hs, Hf.
  rewrite (map_fixed _ _ Hfix). by destruct v.
Qed.

Lemma vector_round_trip_witness :
  let struct := SSeq [SArray [2]; SSeq [SArray [1; 1]]] in
  let v := Vector float64 (Samples.reals [4; 5; 6]%Z) in
  exists d,
    vector_to_nested v struct true true None [] = Ok (Only d)
    /\ nested_to_vector d None 0 = Ok (inl (v, struct)).
Proof.
  apply (vector_round_trip
           (SSeq [SArray [2]; SSeq [SArray [1; 1]]])
           (Vector float64 (Samples.reals [4; 5; 6]%Z)) true).
  - reflexivity.
  - reflexivity.
  - reflexivity.
  - unfold Samples.reals. cbn [map vdata vdtype].
    repeat (apply Forall_cons; split; [vm_compute; reflexivity|]).
    apply Forall_nil_2.
Defined.

End CodecRestore.

Lemma round_trip_without_empty_sequence_witness :
  Codec.round_trip Samples.tested = Ok (Codec.Only Samples.tested).
Proof.
  apply (round_trip_without_empty_sequence Samples.tested Codec.float64).
  - vm_compute. reflexivity.
  - vm_compute. reflexivity.
  - vm_compute. reflexivity.
Defined.

Lemma describe_nested_refuses_mixed_dtypes_witness :
  Codec.describe_nested Samples.float_int
  = Raise (ValueError "Several different numpy dtypes encountered").
Proof.
  apply (describe_nested_refuses_mixed_dtypes Samples.float_int
           Codec.float64 Codec.int64).
  - vm_compute. reflexivity.
  - vm_compute. reflexivity.
  - simpl. left.
  - simpl. right. left.
  - discriminate.
Defined.

(** ** More on [check_kpt_antiperm_symmetry] *)

(** The swap does not depend on the order of two indices of the same
    kind. *)
Lemma swap_items_comm_int (a : list nat) (i j : Z) :
  swap_items a (IntIndex i) (IntIndex j) = swap_items a (IntIndex j) (IntIndex i).
Proof.
  unfold swap_items, getitem, setitem_at.
  destruct (resolve_index (length a) (IntIndex i)) as [ki|ei] eqn:Ei,
    (resolve_index (length a) (IntIndex j)) as [kj|ej] eqn:Ej;
    cbn [mbind result_bind]; try reflexivity.
  - rewrite !length_insert, Ei, Ej. cbn [mbind result_bind]. f_equal.
    destruct (decide (ki = kj)) as [->|Hne]; [reflexivity|].
    by apply list_insert_insert_ne.
  - cbn in Ei, Ej. repeat case_match; by simplify_eq.
Qed.

Lemma swap_items_comm_float (a : list nat) (x y : Q) :
  swap_items a (FloatIndex x) (FloatIndex y)
  = swap_items a (FloatIndex y) (FloatIndex x).
Proof. reflexivity. Qed.

(** Every index that passes the two assertions is the position of an
    axis. *)
Lemma resolve_kpt_index (ndim : nat) (idx : Z) :
  (0 <= idx)%Z -> (2 * idx + 1 < Z.of_nat ndim)%Z ->
  resolve_index ndim (IntIndex idx) = Ok (Z.to_nat idx).
Proof.
  intros Hlo Hhi. unfold resolve_index.
  rewrite (proj2 (Z.ltb_ge idx 0)) by lia.
  rewrite (proj2 (Z.leb_le 0 idx)) by lia.
  rewrite (proj2 (Z.ltb_lt idx (Z.of_nat ndim))) by lia.
  reflexivity.
Qed.

(** X22: the exceptions of [check_kpt_antiperm_symmetry], for an array
    with any number of axes, [nparticles] being the quotient of that number
    plus one by four.  A negative index or an index that is not below
    [2*nparticles-1] raises [AssertionError]; otherwise more than three
    particles raise [NotImplementedError]; otherwise the swap of the
    k-point axes stays inside the list of the axes and the swap of the
    orbital axes raises [IndexError], the orbital indices being floats:
    the check returns for no array and no indices. *)
Theorem check_kpt_antiperm_symmetry_guards
    {F : Type} `{Arith F} `{Linalg F}
    (array : ndarray F) (idx1 idx2 : Z) (tolerance : F) :
  let ndim := length (shape array) in
  let nparticles := ((inject_Z (Z.of_nat ndim) + 1) / 4)%Q in
  let in_range idx :=
    (0 <= idx)%Z /\ (inject_Z idx < 2 * nparticles - 1)%Q in
  (~ (in_range idx1 /\ in_range idx2) ->
   check_kpt_antiperm_symmetry array idx1 idx2 tolerance
   = Raise (AssertionError ""))
  /\ (in_range idx1 -> in_range idx2 -> (3 < nparticles)%Q ->
      check_kpt_antiperm_symmetry array idx1 idx2 tolerance
      = Raise (NotImplementedError
                 "Currently set up for only up to 3 particle arrays."))
  /\ (in_range idx1 -> in_range idx2 -> (nparticles <= 3)%Q ->
      check_kpt_antiperm_symmetry array idx1 idx2 tolerance
      = Raise (IndexError "only integers, slices (`:`), ellipsis (`...`), numpy.newaxis (`None`) and integer or boolean arrays are valid indices")).
Proof.
  cbn zeta. set (ndim := length (shape array)).
  unfold check_kpt_antiperm_symmetry. fold ndim.
  split; [|split].
  - intros Hout.
    destruct (0 <=? idx1)%Z eqn:E1, (0 <=? idx2)%Z eqn:E2;
      cbn [andb negb]; try reflexivity.
    destruct (Qltb (inject_Z idx1) _) eqn:E3, (Qltb (inject_Z idx2) _) eqn:E4;
      cbn [andb negb]; try reflexivity.
    exfalso. apply Hout. apply Qltb_lt in E3, E4.
    apply Z.leb_le in E1, E2. tauto.
  - intros [Hlo1 Hhi1] [Hlo2 Hhi2] Hmany.
    rewrite (proj2 (Z.leb_le 0 idx1)), (proj2 (Z.leb_le 0 idx2)) by assumption.
    rewrite (proj2 (Qltb_lt _ _) Hhi1), (proj2 (Qltb_lt _ _) Hhi2).
    rewrite (proj2 (Qltb_lt _ _) Hmany). reflexivity.
  - intros [Hlo1 Hhi1] [Hlo2 Hhi2] Hfew.
    rewrite (proj2 (Z.leb_le 0 idx1)), (proj2 (Z.leb_le 0 idx2)) by assumption.
    rewrite (proj2 (Qltb_lt _ _) Hhi1), (proj2 (Qltb_lt _ _) Hhi2).
    assert (Hnp : Qltb 3%Q ((inject_Z (Z.of_nat ndim) + 1) / 4)%Q = false).
    { apply not_true_is_false. intros Hlt. apply Qltb_lt in Hlt.
      by apply Qlt_not_le in Hlt. }
    rewrite Hnp. cbn [andb negb].
    apply Qltb_lt in Hhi1, Hhi2. rewrite antiperm_bound in Hhi1, Hhi2.
    apply Z.ltb_lt in Hhi1, Hhi2.
    assert (Hswap : exists out,
              swap_items (seq 0 ndim) (IntIndex idx1) (IntIndex idx2) = Ok out).
    { unfold swap_items, getitem, setitem_at. rewrite length_seq.
      rewrite !resolve_kpt_index by assumption. cbn [mbind result_bind].
      rewrite length_insert, length_seq.
      rewrite !resolve_kpt_index by assumption. cbn [mbind result_bind].
      by eexists. }
    destruct Hswap as [out ->]. reflexivity.
Qed.

(** X23: the check does not depend on the order of the two indices: the
    guards are the same, the swap of the k-point axes gives the same list
    or raises the same exception, and so does the swap of the orbital
    axes. *)
Theorem check_kpt_antiperm_symmetry_comm
    {F : Type} `{Arith F} `{Linalg F}
    (array : ndarray F) (idx1 idx2 : Z) (tolerance : F) :
  check_kpt_antiperm_symmetry array idx1 idx2 tolerance
  = check_kpt_antiperm_symmetry array idx2 idx1 tolerance.
Proof.
  unfold check_kpt_antiperm_symmetry.
  rewrite (andb_comm (0 <=? idx1)%Z).
  destruct ((0 <=? idx2)%Z && (0 <=? idx1)%Z); [|reflexivity].
  cbn [negb].
  rewrite (andb_comm (Qltb (inject_Z idx1) _)).
  destruct (Qltb (inject_Z idx2) _ && Qltb (inject_Z idx1) _); [|reflexivity].
  cbn [negb].
  destruct (Qltb 3%Q _); [reflexivity|].
  rewrite (swap_items_comm_int _ idx1 idx2).
  destruct (swap_items _ (IntIndex idx2) (IntIndex idx1)) as [out|e];
    [|reflexivity].
  cbn [mbind result_bind].
  by rewrite (swap_items_comm_float out).
Qed.

(** ** More on [get_kconserv3] *)

(** A loop over [enumerate(l)] of which only the turn at [i0] changes the
    quantity [get]. *)
Lemma fold_enumerate_skip {X S V} (f : S -> nat * X -> S) (get : S -> V)
    (l : list X) (i0 : nat) (s : S) :
  (forall s c x, c <> i0 -> get (f s (c, x)) = get s) ->
  length l <= i0 ->
  get (fold_left f (enumerate l) s) = get s.
Proof.
  intros Hskip. induction l as [|x l IH] using rev_ind; intros Hlen.
  - reflexivity.
  - rewrite length_app in Hlen. simpl in Hlen.
    rewrite enumerate_snoc, fold_left_app. simpl.
    rewrite Hskip by lia. apply IH. lia.
Qed.

Lemma fold_enumerate_at {X S V} (f : S -> nat * X -> S) (get : S -> V)
    (l : list X) (i0 : nat) (x0 : X) (s : S) :
  (forall s c x, c <> i0 -> get (f s (c, x)) = get s) ->
  (forall s s' x, get s = get s' -> get (f s (i0, x)) = get (f s' (i0, x))) ->
  l !! i0 = Some x0 ->
  get (fold_left f (enumerate l) s) = get (f s (i0, x0)).
Proof.
  intros Hskip Hsame. induction l as [|x l IH] using rev_ind; intros Hl.
  - discriminate Hl.
  - rewrite enumerate_snoc, fold_left_app. simpl.
    destruct (decide (i0 = length l)) as [->|Hne].
    + rewrite lookup_app_r, Nat.sub_diag in Hl by lia. simpl in Hl.
      simplify_eq. apply Hsame.
      apply (fold_enumerate_skip f get l (length l)); [exact Hskip|lia].
    + rewrite Hskip by lia. apply IH.
      apply lookup_lt_Some in Hl as Hlt. rewrite length_app in Hlt.
      simpl in Hlt. rewrite lookup_app_l in Hl by lia. exact Hl.
Qed.

(** A loop [for c, x in enumerate(l): arr[mask(c, x)] = c]: the entry at
    [idx] ends as the last [c] whose mask selects it. *)
Lemma fold_setmask_none {X} (m : nat -> X -> list nat -> bool) (l : list X)
    (arr : ndarray nat) (idx : list nat) :
  (forall c x, l !! c = Some x -> m c x idx = false) ->
  item (fold_left (fun arr '(c, x) => setmask arr (m c x) c) (enumerate l) arr)
       idx
  = item arr idx.
Proof.
  induction l as [|x l IH] using rev_ind; intros Hnone.
  - reflexivity.
  - rewrite enumerate_snoc, fold_left_app. simpl.
    rewrite (Hnone (length l) x)
      by (rewrite lookup_app_r, Nat.sub_diag by lia; reflexivity).
    apply IH. intros c x' Hc. apply Hnone.
    apply lookup_app_l_Some. exact Hc.
Qed.

Lemma fold_setmask_last {X} (m : nat -> X -> list nat -> bool) (l : list X)
    (arr : ndarray nat) (idx : list nat) (c : nat) (x : X) :
  l !! c = Some x ->
  m c x idx = true ->
  (forall c' x', c < c' -> l !! c' = Some x' -> m c' x' idx = false) ->
  item (fold_left (fun arr '(c, x) => setmask arr (m c x) c) (enumerate l) arr)
       idx
  = c.
Proof.
  induction l as [|y l IH] using rev_ind; intros Hc Hm Hlater.
  - discriminate Hc.
  - rewrite enumerate_snoc, fold_left_app. simpl.
    destruct (decide (c = length l)) as [->|Hne].
    + rewrite lookup_app_r, Nat.sub_diag in Hc by lia. simpl in Hc.
      simplify_eq. by rewrite Hm.
    + apply lookup_lt_Some in Hc as Hlt. rewrite length_app in Hlt.
      simpl in Hlt. rewrite lookup_app_l in Hc by lia.
      rewrite (Hlater (length l) y);
        [|lia|rewrite lookup_app_r, Nat.sub_diag by lia; reflexivity].
      apply IH; [exact Hc|exact Hm|].
      intros c' x' Hlt' Hc'. apply (Hlater c' x' Hlt').
      apply lookup_app_l_Some. exact Hc'.
Qed.

(** Row-major positions. *)
Lemma ravel_from (idx shp : list nat) :
  Forall2 lt idx shp ->
  forall acc,
    fold_left (fun flat '(i, d) => flat * d + i) (zip idx shp) acc
    = acc * prod shp + ravel_multi_index idx shp
    /\ ravel_multi_index idx shp < prod shp.
Proof.
  unfold ravel_multi_index.
  induction 1 as [|i d idx shp Hid _ IH]; intros acc.
  - simpl. unfold prod. simpl. lia.
  - cbn [zip zip_with fold_left].
    destruct (IH (acc * d + i)) as [-> _].
    destruct (IH (0 * d + i)) as [-> Hlt].
    change (prod (d :: shp)) with (d * prod shp). split; [lia|]. nia.
Qed.

Lemma unravel_ravel (idx shp : list nat) :
  Forall2 lt idx shp ->
  unravel_index (ravel_multi_index idx shp) shp = idx.
Proof.
  induction 1 as [|i d idx shp Hid Hrest IH]; [reflexivity|].
  unfold ravel_multi_index. cbn [zip zip_with fold_left unravel_index].
  destruct (ravel_from idx shp Hrest (0 * d + i)) as [-> Hlt].
  replace (0 * d + i) with i by lia.
  rewrite Nat.div_add_l by lia. rewrite (Nat.div_small _ _ Hlt).
  rewrite Nat.add_0_r. f_equal.
  rewrite Nat.add_comm, Nat.Div0.mod_add, Nat.mod_small by exact Hlt.
  exact IH.
Qed.

Lemma fold_left_preserve {S E V} (g : S -> E -> S) (get : S -> V) (l : list E) :
  (forall s e, get (g s e) = get s) ->
  forall s, get (fold_left g l s) = get s.
Proof.
  intros Hg. induction l as [|e l IH]; intros s; [reflexivity|].
  simpl. by rewrite IH, Hg.
Qed.

Lemma fold_left_same {S E V} (g : S -> E -> S) (get : S -> V) (l : list E) :
  (forall s s' e, get s = get s' -> get (g s e) = get (g s' e)) ->
  forall s s', get s = get s' -> get (fold_left g l s) = get (fold_left g l s').
Proof.
  intros Hg. induction l as [|e l IH]; intros s s' Hs; [exact Hs|].
  simpl. by apply IH, Hg.
Qed.

Section KConserv3Entries.
Context {F : Type} `{Arith F}.
Import KConserv3 KConserv3Entries.

Lemma collect_rows (kpts : list (vec3 F)) (xs : list nat) :
  Forall (fun i => i < length kpts) xs ->
  collect (map (row kpts) xs) = Ok (map (kpt_at kpts) xs).
Proof.
  induction 1 as [|i xs Hi _ IH]; [reflexivity|]. cbn [map collect].
  rewrite IH. unfold row. destruct (lookup_lt_is_Some_2 kpts i Hi) as [kpt Hk].
  rewrite Hk. cbn [mbind result_bind].
  by rewrite (kpt_at_lookup _ _ _ Hk).
Qed.

Lemma select_indices (kpts : list (vec3 F)) (x : index_group) :
  group_in_range (length kpts) x ->
  select kpts x = Ok (map (kpt_at kpts) (indices x)).
Proof.
  destruct x as [i|xs]; cbn [group_in_range select indices map]; intros Hx.
  - unfold row. destruct (lookup_lt_is_Some_2 kpts i Hx) as [kpt Hk].
    rewrite Hk. cbn [mbind result_bind]. by rewrite (kpt_at_lookup _ _ _ Hk).
  - by apply collect_rows.
Qed.

Lemma size_indices (x : index_group) : size x = length (indices x).
Proof. by destruct x. Qed.

Lemma kpt_at_indices (kpts : list (vec3 F)) (xs : list nat) (i : nat) :
  i < length xs ->
  kpt_at (map (kpt_at kpts) xs) i = kpt_at kpts (nth i xs 0).
Proof.
  intros Hi. unfold kpt_at at 1.
  rewrite (nth_indep _ vzero (kpt_at kpts 0)) by (by rewrite length_map).
  apply (map_nth (kpt_at kpts)).
Qed.

Lemma expand_in_range (kijkab : list index_group) :
  forall idx,
    Forall2 lt idx (map size (filter (fun x => negb (is_int x)) kijkab)) ->
    Forall2 lt (expand kijkab idx) (map size kijkab).
Proof.
  induction kijkab as [|[v|xs] rest IH]; intros idx Hidx.
  - constructor.
  - rewrite filter_cons_False in Hidx by (simpl; auto).
    cbn [expand map size]. constructor; [lia|by apply IH].
  - rewrite filter_cons_True in Hidx by (simpl; auto).
    cbn [map] in Hidx. apply Forall2_cons_inv_r in Hidx
      as (i & idx' & Hi & Hidx' & ->).
    cbn [expand map]. constructor; [exact Hi|by apply IH].
Qed.

Lemma ravel_expand (kijkab : list index_group) :
  forall idx acc,
    Forall2 lt idx (map size (filter (fun x => negb (is_int x)) kijkab)) ->
    fold_left (fun flat '(i, d) => flat * d + i)
      (zip (expand kijkab idx) (map size kijkab)) acc
    = fold_left (fun flat '(i, d) => flat * d + i)
        (zip idx (map size (filter (fun x => negb (is_int x)) kijkab))) acc.
Proof.
  induction kijkab as [|[v|xs] rest IH]; intros idx acc Hidx.
  - simpl in Hidx. apply Forall2_nil_inv_r in Hidx as ->. reflexivity.
  - rewrite filter_cons_False in * by (simpl; auto).
    cbn [expand map size zip zip_with fold_left].
    rewrite IH by exact Hidx. f_equal. lia.
  - rewrite filter_cons_True in * by (simpl; auto).
    cbn [map] in Hidx. apply Forall2_cons_inv_r in Hidx
      as (i & idx' & Hi & Hidx' & ->).
    cbn [expand map zip zip_with fold_left]. by apply IH.
Qed.

(** The entry of the filled array at an index inside its shape is the one
    the loop over the candidates leaves there. *)
Lemma fill_entry a kpts kpts_i kpts_j kpts_k kpts_a kpts_b kconserv
    i j k a' b kpti kptj :
  kpts_i !! i = Some kpti ->
  kpts_j !! j = Some kptj ->
  item (fill a kpts kpts_i kpts_j kpts_k kpts_a kpts_b kconserv)
       [i; j; k; a'; b]
  = item (fold_left
            (fun kconserv '(c, kptc) =>
               setmask kconserv
                 (mask a kpts_k kpts_a kpts_b i j kpti kptj kptc) c)
            (enumerate kpts) kconserv)
         [i; j; k; a'; b].
Proof.
  intros Hi Hj. unfold fill.
  set (get := fun arr : ndarray nat => item arr [i; j; k; a'; b]).
  set (inner := fun (i0 j0 : nat) (x y : vec3 F) =>
         fun (kconserv : ndarray nat) '(c, kptc) =>
           setmask kconserv (mask a kpts_k kpts_a kpts_b i0 j0 x y kptc) c).
  set (middle := fun (i0 : nat) (x : vec3 F) =>
         fun (kconserv : ndarray nat) '(j0, y) =>
           fold_left (inner i0 j0 x y) (enumerate kpts) kconserv).
  set (outer := fun (kconserv : ndarray nat) '(i0, x) =>
         fold_left (middle i0 x) (enumerate kpts_j) kconserv).
  change (get (fold_left outer (enumerate kpts_i) kconserv)
          = get (fold_left (inner i j kpti kptj) (enumerate kpts) kconserv)).
  assert (Hinner_same : forall i0 j0 x y s s' e,
            get s = get s' -> get (inner i0 j0 x y s e) = get (inner i0 j0 x y s' e)).
  { intros i0 j0 x y s s' [c kptc] Hs. unfold get, inner in *.
    cbn [setmask item]. by rewrite Hs. }
  assert (Hinner_skip : forall i0 j0 x y s e,
            i0 <> i \/ j0 <> j -> get (inner i0 j0 x y s e) = get s).
  { intros i0 j0 x y s [c kptc] Hne. unfold get, inner.
    cbn [setmask item mask].
    destruct Hne as [Hne|Hne].
    - rewrite (bool_decide_eq_false_2 (i = i0)) by congruence. reflexivity.
    - rewrite (bool_decide_eq_false_2 (j = j0)) by congruence.
      by rewrite andb_false_r. }
  assert (Hmiddle_same : forall i0 x s s' e,
            get s = get s' -> get (middle i0 x s e) = get (middle i0 x s' e)).
  { intros i0 x s s' [j0 y] Hs. unfold middle.
    apply fold_left_same; [apply Hinner_same|exact Hs]. }
  assert (Hmiddle_skip : forall i0 x s c y,
            i0 <> i \/ c <> j -> get (middle i0 x s (c, y)) = get s).
  { intros i0 x s c y Hne. unfold middle.
    apply fold_left_preserve. intros s0 e. by apply Hinner_skip. }
  rewrite (fold_enumerate_at outer get kpts_i i kpti kconserv); [| | |exact Hi].
  - unfold outer.
    rewrite (fold_enumerate_at (middle i kpti) get kpts_j j kptj kconserv);
      [reflexivity| | |exact Hj].
    + intros s c y Hne. apply Hmiddle_skip. by right.
    + intros s s' y Hs. by apply Hmiddle_same.
  - intros s c x Hne. unfold outer. apply fold_left_preserve.
    intros s0 [j0 y]. apply Hmiddle_skip. by left.
  - intros s s' x Hs. unfold outer.
    apply fold_left_same; [|exact Hs].
    intros s0 s0' e. apply Hmiddle_same.
Qed.

Lemma mask_conserves3 a kpts (xi xj xk xa xb : list nat) i j k a' b c kptc :
  i < length xi -> j < length xj -> k < length xk -> a' < length xa ->
  b < length xb ->
  kpts !! c = Some kptc ->
  mask a (map (kpt_at kpts) xk) (map (kpt_at kpts) xa) (map (kpt_at kpts) xb)
    i j (kpt_at kpts (nth i xi 0)) (kpt_at kpts (nth j xj 0)) kptc
    [i; j; k; a'; b]
  = conserves3 a kpts (nth i xi 0) (nth j xj 0) (nth k xk 0) (nth a' xa 0)
      (nth b xb 0) c.
Proof.
  intros Hi Hj Hk Ha Hb Hc. unfold mask, conserves3, kv_kab.
  rewrite !length_map.
  rewrite !bool_decide_eq_true_2 by (reflexivity || assumption).
  cbn [andb]. rewrite !kpt_at_indices by assumption.
  by rewrite (kpt_at_lookup _ _ _ Hc).
Qed.

End KConserv3Entries.

(** X24: the entries of [get_kconserv3] for five index groups whose
    indices are all below [nkpts].  The entry at an index inside the shape
    of the result belongs to the k-point indices [ki], [kj], [kk], [ka],
    [kb] that the index selects in the five groups (the group itself where
    it is given as an integer).  When no candidate passes the test of
    momentum conservation for these five, the entry is [0]; otherwise it is
    the largest candidate that passes. *)
Theorem get_kconserv3_entries
    {F : Type} `{Arith F} (a : mat3 F) (kpts : list (vec3 F))
    (gi gj gk ga gb : KConserv3.index_group) :
  let kijkab := [gi; gj; gk; ga; gb] in
  Forall (KConserv3.group_in_range (length kpts)) kijkab ->
  exists kconserv,
    KConserv3.get_kconserv3 a kpts kijkab = Ok kconserv
    /\ forall idx,
         Forall2 lt idx (shape kconserv) ->
         exists i j k a' b,
           KConserv3Entries.expand kijkab idx = [i; j; k; a'; b]
           /\ let test :=
                KConserv3Entries.conserves3 a kpts
                  (nth i (KConserv3Entries.indices gi) 0)
                  (nth j (KConserv3Entries.indices gj) 0)
                  (nth k (KConserv3Entries.indices gk) 0)
                  (nth a' (KConserv3Entries.indices ga) 0)
                  (nth b (KConserv3Entries.indices gb) 0) in
              ((forall c, c < length kpts -> test c = false) ->
               item kconserv idx = 0)
              /\ (forall c, c < length kpts -> test c = true ->
                    (forall c', c < c' < length kpts -> test c' = false) ->
                    item kconserv idx = c).
Proof.
  cbn zeta. intros Hrange.
  pose proof Hrange as Hr.
  apply Forall_cons in Hr as [Hgi Hr]. apply Forall_cons in Hr as [Hgj Hr].
  apply Forall_cons in Hr as [Hgk Hr]. apply Forall_cons in Hr as [Hga Hr].
  apply Forall_cons in Hr as [Hgb _].
  unfold KConserv3.get_kconserv3. cbn [map collect].
  rewrite !select_indices by assumption. cbn [mbind result_bind].
  set (kijkab := [gi; gj; gk; ga; gb]).
  pose proof (new_shape_sizes kijkab []) as Hnew. rewrite app_nil_r in Hnew.
  change [KConserv3.size gi; KConserv3.size gj; KConserv3.size gk;
          KConserv3.size ga; KConserv3.size gb]
    with (map KConserv3.size kijkab).
  rewrite Hnew. unfold reshape. rewrite fill_shape. cbn [shape zeros].
  rewrite decide_True by (symmetry; apply prod_sizes_not_int).
  eexists. split; [reflexivity|]. cbn [shape item]. intros idx Hidx.
  pose proof (expand_in_range kijkab idx Hidx) as Hfull.
  assert (Hpos : ravel_multi_index idx
                   (map KConserv3.size
                      (filter (fun x => negb (KConserv3.is_int x)) kijkab))
                 = ravel_multi_index (KConserv3Entries.expand kijkab idx)
                     (map KConserv3.size kijkab)).
  { unfold ravel_multi_index. symmetry. by apply ravel_expand. }
  rewrite Hpos, (unravel_ravel _ _ Hfull).
  destruct (KConserv3Entries.expand kijkab idx)
    as [|i [|j [|k [|a' [|b [|]]]]]] eqn:Eidx;
    try (apply Forall2_length in Hfull; discriminate Hfull).
  subst kijkab. cbn [map] in Hfull.
  apply Forall2_cons_1 in Hfull as [Hi Hfull].
  apply Forall2_cons_1 in Hfull as [Hj Hfull].
  apply Forall2_cons_1 in Hfull as [Hk Hfull].
  apply Forall2_cons_1 in Hfull as [Ha Hfull].
  apply Forall2_cons_1 in Hfull as [Hb _].
  rewrite size_indices in Hi, Hj, Hk, Ha, Hb.
  exists i, j, k, a', b. split; [reflexivity|]. cbn zeta.
  assert (Hli : map (kpt_at kpts) (KConserv3Entries.indices gi) !! i
                = Some (kpt_at kpts (nth i (KConserv3Entries.indices gi) 0))).
  { change (map ?f ?l) with (f <$> l). rewrite list_lookup_fmap.
    destruct (lookup_lt_is_Some_2 _ i Hi) as [x Hx].
    by rewrite Hx, (nth_lookup_Some _ _ _ _ Hx). }
  assert (Hlj : map (kpt_at kpts) (KConserv3Entries.indices gj) !! j
                = Some (kpt_at kpts (nth j (KConserv3Entries.indices gj) 0))).
  { change (map ?f ?l) with (f <$> l). rewrite list_lookup_fmap.
    destruct (lookup_lt_is_Some_2 _ j Hj) as [x Hx].
    by rewrite Hx, (nth_lookup_Some _ _ _ _ Hx). }
  rewrite (fill_entry _ _ _ _ _ _ _ _ _ _ _ _ _ _ _ Hli Hlj).
  split.
  - intros Hnone. rewrite fold_setmask_none; [reflexivity|].
    intros c kptc Hc.
    rewrite (mask_conserves3 a kpts _ _ _ _ _ i j k a' b c kptc)
      by assumption.
    apply Hnone. by apply lookup_lt_Some in Hc.
  - intros c Hc Htest Hlater.
    destruct (lookup_lt_is_Some_2 kpts c Hc) as [kptc Hkc].
    apply (fold_setmask_last _ kpts _ _ c kptc Hkc).
    + by rewrite (mask_conserves3 a kpts _ _ _ _ _ i j k a' b c kptc)
        by assumption.
    + intros c' kptc' Hlt Hc'.
      rewrite (mask_conserves3 a kpts _ _ _ _ _ i j k a' b c' kptc')
        by assumption.
      apply Hlater. split; [exact Hlt|]. by apply lookup_lt_Some in Hc'.
Qed.

Lemma get_kconserv3_entries_witness :
  let r := KConserv3.Indices [0; 1] in
  let kijkab := [r; r; KConserv3.Int 1; r; r] in
  exists kconserv,
    KConserv3.get_kconserv3 Grids.identity3 Grids.grid2 kijkab = Ok kconserv
    /\ forall idx,
         Forall2 lt idx (shape kconserv) ->
         exists i j k a' b,
           KConserv3Entries.expand kijkab idx = [i; j; k; a'; b]
           /\ let test :=
                KConserv3Entries.conserves3 Grids.identity3 Grids.grid2
                  (nth i [0; 1] 0) (nth j [0; 1] 0) (nth k [1] 0)
                  (nth a' [0; 1] 0) (nth b [0; 1] 0) in
              ((forall c, c < 2 -> test c = false) -> item kconserv idx = 0)
              /\ (forall c, c < 2 -> test c = true ->
                    (forall c', c < c' < 2 -> test c' = false) ->
                    item kconserv idx = c).
Proof.
  apply (get_kconserv3_entries Grids.identity3 Grids.grid2
           (KConserv3.Indices [0; 1]) (KConserv3.Indices [0; 1])
           (KConserv3.Int 1)
           (KConserv3.Indices [0; 1]) (KConserv3.Indices [0; 1])).
  repeat constructor.
Defined.

Section KConserv3Errors.
Context {F : Type} `{Arith F}.
Import KConserv3.

Lemma row_result (kpts : list (vec3 F)) (i : nat) :
  (i < length kpts /\ exists kpt, row kpts i = Ok kpt)
  \/ (~ i < length kpts
      /\ row kpts i = Raise (IndexError "index is out of bounds")).
Proof.
  unfold row. destruct (kpts !! i) as [kpt|] eqn:Ei.
  - left. split; [by apply lookup_lt_Some in Ei|by exists kpt].
  - right. split; [|reflexivity]. apply lookup_ge_None in Ei. lia.
Qed.

Lemma select_result (kpts : list (vec3 F)) (x : index_group) :
  (group_in_range (length kpts) x /\ exists rows, select kpts x = Ok rows)
  \/ (~ group_in_range (length kpts) x
      /\ select kpts x = Raise (IndexError "index is out of bounds")).
Proof.
  destruct x as [i|xs]; cbn [group_in_range select].
  - destruct (row_result kpts i) as [[Hi [kpt ->]]|[Hi ->]].
    + left. split; [exact Hi|]. by eexists.
    + right. by split.
  - induction xs as [|i xs IH]; cbn [map collect].
    + left. split; [constructor|by eexists].
    + destruct (row_result kpts i) as [[Hi [kpt ->]]|[Hi ->]].
      * cbn [mbind result_bind].
        destruct IH as [[Hxs [rows ->]]|[Hxs ->]].
        -- left. split; [by constructor|by eexists].
        -- right. split; [|reflexivity]. intros Hall.
           apply Forall_cons in Hall as [_ Hall]. by apply Hxs.
      * right. split; [|reflexivity]. intros Hall.
        apply Forall_cons in Hall as [Hlt _]. by apply Hi.
Qed.

Lemma collect_select_result (kpts : list (vec3 F)) (kijkab : list index_group) :
  (Forall (group_in_range (length kpts)) kijkab
   /\ exists selected, collect (map (select kpts) kijkab) = Ok selected
                       /\ length selected = length kijkab)
  \/ (~ Forall (group_in_range (length kpts)) kijkab
      /\ collect (map (select kpts) kijkab)
         = Raise (IndexError "index is out of bounds")).
Proof.
  induction kijkab as [|x rest IH]; cbn [map collect].
  - left. split; [constructor|by exists []].
  - destruct (select_result kpts x) as [[Hx [rows ->]]|[Hx ->]].
    + cbn [mbind result_bind].
      destruct IH as [[Hrest (selected & -> & Hlen)]|[Hrest ->]].
      * left. split; [by constructor|]. eexists. split; [reflexivity|].
        simpl. by rewrite Hlen.
      * right. split; [|reflexivity]. intros Hall.
        apply Forall_cons in Hall as [_ Hall]. by apply Hrest.
    + right. split; [|reflexivity]. intros Hall.
      apply Forall_cons in Hall as [Hin _]. by apply Hx.
Qed.

End KConserv3Errors.

(** X25: the exceptions of [get_kconserv3].  When an index of one of the
    groups is not below [nkpts], the call raises [IndexError]; when all
    are and the groups are not five, unpacking the selected k-points
    raises [ValueError]; with five groups of indices below [nkpts] the
    call returns. *)
Theorem get_kconserv3_exceptions
    {F : Type} `{Arith F} (a : mat3 F) (kpts : list (vec3 F))
    (kijkab : list KConserv3.index_group) :
  (~ Forall (KConserv3.group_in_range (length kpts)) kijkab ->
   KConserv3.get_kconserv3 a kpts kijkab
   = Raise (IndexError "index is out of bounds"))
  /\ (Forall (KConserv3.group_in_range (length kpts)) kijkab ->
      length kijkab <> 5 ->
      KConserv3.get_kconserv3 a kpts kijkab
      = Raise (ValueError "wrong number of values to unpack"))
  /\ (Forall (KConserv3.group_in_range (length kpts)) kijkab ->
      length kijkab = 5 ->
      exists kconserv, KConserv3.get_kconserv3 a kpts kijkab = Ok kconserv).
Proof.
  unfold KConserv3.get_kconserv3.
  destruct (collect_select_result kpts kijkab)
    as [[Hin (selected & -> & Hlen)]|[Hout ->]].
  - cbn [mbind result_bind]. split; [intros Hout; by destruct Hout|].
    split.
    + intros _ Hne. rewrite <- Hlen in Hne.
      by destruct selected as [|? [|? [|? [|? [|? [|]]]]]].
    + intros _ H5. rewrite H5 in Hlen.
      destruct selected as [|? [|? [|? [|? [|? [|]]]]]]; try discriminate Hlen.
      pose proof (new_shape_sizes kijkab []) as Hnew.
      rewrite app_nil_r in Hnew. rewrite Hnew. unfold reshape.
      rewrite fill_shape. cbn [shape zeros].
      rewrite decide_True by (symmetry; apply prod_sizes_not_int).
      by eexists.
  - split; [reflexivity|]. split; intros Hin; by destruct Hout.
Qed.

(** ** The symmetry of [get_kconserv] in exact arithmetic *)







(** ** The order of the keys of [symm_map] *)

Lemma StronglySorted_seq (j n : nat) : StronglySorted lt (seq j n).
Proof.
  revert j. induction n as [|n IH]; intros j; [constructor|].
  simpl. constructor; [apply IH|].
  apply Forall_forall. intros k Hk. apply elem_of_seq in Hk. lia.
Qed.

Lemma StronglySorted_flat_map {A B} (RA : relation A) (RB : relation B)
    (f : A -> list B) (l : list A) :
  StronglySorted RA l ->
  (forall x, x ∈ l -> StronglySorted RB (f x)) ->
  (forall x y a b, x ∈ l -> y ∈ l -> RA x y -> a ∈ f x -> b ∈ f y -> RB a b) ->
  StronglySorted RB (flat_map f l).
Proof.
  induction 1 as [|x l Hl IH Hx]; intros Hf Hcross; [constructor|].
  simpl. apply StronglySorted_app. split; [|split].
  - intros a b Ha Hb. apply list_elem_of_In, in_flat_map in Hb as (y & Hy & Hb).
    apply list_elem_of_In in Hy, Hb.
    apply (Hcross x y); [by left|by right| |exact Ha|exact Hb].
    rewrite Forall_forall in Hx. by apply Hx.
  - apply Hf. by left.
  - apply IH.
    + intros y Hy. apply Hf. by right.
    + intros y z a b Hy Hz. apply Hcross; by right.
Qed.

Lemma cartesian_prod_sorted (n : nat) :
  StronglySorted lex_lt (KptsHelper.cartesian_prod n).
Proof.
  unfold KptsHelper.cartesian_prod.
  apply (StronglySorted_flat_map lt); [apply StronglySorted_seq| |].
  - intros p _.
    apply (StronglySorted_flat_map lt); [apply StronglySorted_seq| |].
    + intros q _. change (map ?f ?l) with (f <$> l).
      apply (StronglySorted_fmap _ lt); [|apply StronglySorted_seq].
      intros r r' Hr. simpl. lia.
    + intros q q' s t _ _ Hq Hs Ht.
      apply list_elem_of_fmap in Hs as (r & -> & _).
      apply list_elem_of_fmap in Ht as (r' & -> & _). simpl. lia.
  - intros p p' s t _ _ Hp Hs Ht.
    apply list_elem_of_In, in_flat_map in Hs as (q & _ & Hs).
    apply in_map_iff in Hs as (r & <- & _).
    apply list_elem_of_In, in_flat_map in Ht as (q' & _ & Ht).
    apply in_map_iff in Ht as (r' & <- & _). simpl. lia.
Qed.

Section KeysFirst.
Import KptsHelper.
Variables (kc : ndarray nat) (n : nat).
Hypothesis Hclosed : orbit_closed kc n.

Lemma keys_first_visit done st t ts :
  cartesian_prod n = done ++ t :: ts ->
  loop_inv kc n done st ->
  keys_first kc st ->
  keys_first kc (visit kc st t).
Proof.
  intros Hall (Hcompl & Hmem & _ & Hdone & _) Hfirst.
  assert (Ht : in_range n t).
  { apply cartesian_prod_spec. rewrite Hall. apply elem_of_app. right.
    by left. }
  destruct (item (completed st) (index t)) eqn:Ec.
  - by rewrite (visit_completed _ _ _ Ec).
  - assert (Hk : t ∉ OrderedDict.keys (loop_symm_map st)).
    { intros Hin.
      assert (item (completed st) (index t) = true)
        by (apply Hcompl; exists t; split; [exact Hin|apply orbit_self]).
      congruence. }
    destruct (visit_fresh kc st t Ec Hk) as (Hmap & _).
    intros key u Hkey Hu. rewrite Hmap in Hkey.
    unfold OrderedDict.keys in Hkey. rewrite map_app in Hkey.
    apply elem_of_app in Hkey as [Hkey|Hkey]; [by apply Hfirst|].
    apply list_elem_of_singleton in Hkey as ->.
    pose proof (orbit_in_range _ _ Hclosed t u Ht Hu) as Hur.
    apply cartesian_prod_spec in Hur. rewrite Hall in Hur.
    apply elem_of_app in Hur as [Hur|Hur].
    + exfalso. apply Hdone, Hcompl in Hur as (key & Hkey & Hukey).
      assert (Hr : in_range n key).
      { apply list_elem_of_fmap in Hkey as ([key' members] & -> & Hin).
        by destruct (Hmem _ _ Hin). }
      assert (item (completed st) (index t) = true); [|congruence].
      apply Hcompl. exists key. split; [exact Hkey|].
      apply (orbit_perm _ _ Hclosed key u Hr Hukey).
      apply (orbit_perm _ _ Hclosed t u Ht Hu), orbit_self.
    + apply elem_of_cons in Hur as [->|Hur]; [by left|]. right.
      pose proof (cartesian_prod_sorted n) as Hsorted. rewrite Hall in Hsorted.
      apply StronglySorted_app in Hsorted as (_ & _ & Hsorted).
      apply StronglySorted_cons in Hsorted as [Hlt _].
      rewrite Forall_forall in Hlt. by apply Hlt.
Qed.

Lemma keys_first_fold ts : forall done st,
  cartesian_prod n = done ++ ts ->
  loop_inv kc n done st ->
  keys_first kc st ->
  keys_first kc (fold_left (visit kc) ts st).
Proof.
  induction ts as [|t ts IH]; intros done st Hall Hinv Hfirst; simpl.
  - exact Hfirst.
  - apply (IH (done ++ [t])).
    + by rewrite <- app_assoc.
    + apply (loop_inv_visit _ _ Hclosed); [|exact Hinv].
      apply cartesian_prod_spec. rewrite Hall. apply elem_of_app. right.
      by left.
    + by apply (keys_first_visit done st t ts).
Qed.

End KeysFirst.

Section KeysIncreasing.
Import KptsHelper.
Variables (kc : ndarray nat).

Lemma keys_increasing_visit done st t :
  StronglySorted lex_lt (done ++ [t]) ->
  keys_increasing done st ->
  keys_increasing (done ++ [t]) (visit kc st t).
Proof.
  intros Hsorted [Hkeys Hsub].
  apply StronglySorted_app in Hsorted as (Hlt & _ & _).
  destruct (item (completed st) (index t)) eqn:Ec.
  - rewrite (visit_completed _ _ _ Ec).
    split; [exact Hkeys|]. intros key Hkey. apply elem_of_app. left.
    by apply Hsub.
  - assert (Hk : t ∉ OrderedDict.keys (loop_symm_map st)).
    { intros Hin.
      assert (Hself : lex_lt t t) by (apply Hlt; [by apply Hsub|by left]).
      destruct t as [[p q] r]. unfold lex_lt in Hself. lia. }
    destruct (visit_fresh kc st t Ec Hk) as (Hmap & _).
    unfold keys_increasing. rewrite Hmap. unfold OrderedDict.keys in *.
    rewrite map_app. cbn [map fst]. split.
    + apply StronglySorted_app. split; [|split].
      * intros key t' Hkey Ht'. apply list_elem_of_singleton in Ht' as ->.
        apply Hlt; [by apply Hsub|by left].
      * exact Hkeys.
      * repeat constructor.
    + intros key Hkey. apply elem_of_app in Hkey as [Hkey|Hkey].
      * apply elem_of_app. left. by apply Hsub.
      * apply elem_of_app. by right.
Qed.

Lemma keys_increasing_fold ts : forall done st,
  StronglySorted lex_lt (done ++ ts) ->
  keys_increasing done st ->
  keys_increasing (done ++ ts) (fold_left (visit kc) ts st).
Proof.
  induction ts as [|t ts IH]; intros done st Hsorted Hinv; simpl.
  - by rewrite app_nil_r.
  - rewrite (cons_middle t done ts), app_assoc in Hsorted |- *.
    apply IH; [exact Hsorted|]. apply keys_increasing_visit; [|exact Hinv].
    by apply StronglySorted_app in Hsorted as (_ & Hs & _).
Qed.

End KeysIncreasing.

(** X27: when the conservation array is orbit-closed, the key of every
    member list of [symm_map] is the first of its members in the order in
    which the triples are visited: every member is the key or comes after
    it in the lexicographic order. *)
Theorem symm_map_key_is_first
    {F : Type} `{Arith F} (a : mat3 F) (kpts : list (vec3 F)) :
  let nkpts := length kpts in
  let h := KptsHelper.__init__ a kpts in
  KptsHelper.orbit_closed (KptsHelper.kconserv h) nkpts ->
  forall key members u,
    (key, members) ∈ KptsHelper.symm_map h ->
    u ∈ members ->
    u = key \/ lex_lt key u.
Proof.
  cbn zeta. unfold KptsHelper.__init__, KptsHelper.build.
  cbn [KptsHelper.symm_map KptsHelper.kconserv].
  intros Hclosed key members u Hin Hu.
  pose proof (run_loop_inv _ _ Hclosed) as (_ & Hmem & _).
  assert (Hfirst : keys_first (get_kconserv a kpts)
            (fold_left (KptsHelper.visit (get_kconserv a kpts))
               (KptsHelper.cartesian_prod (length kpts))
               (KptsHelper.LoopState
                  (zeros_bool [length kpts; length kpts; length kpts])
                  (zeros [length kpts; length kpts; length kpts]) []))).
  { apply (keys_first_fold _ _ Hclosed _ []).
    - reflexivity.
    - apply loop_inv_init.
    - intros key' u' Hkey'. by apply elem_of_nil in Hkey'. }
  destruct (Hmem _ _ Hin) as [-> _].
  apply Hfirst; [|exact Hu].
  apply list_elem_of_fmap. by exists (key, KptsHelper.orbit (get_kconserv a kpts) key).
Qed.

Lemma symm_map_key_is_first_witness :
  (1, 1, 0) = (0, 0, 1) \/ lex_lt (0, 0, 1) (1, 1, 0).
Proof.
  apply (symm_map_key_is_first Grids.identity3 Grids.grid2
           ltac:(apply orbit_closedb_sound; vm_compute; reflexivity)
           (0, 0, 1) [(0, 0, 1); (1, 1, 0); (0, 0, 1); (1, 1, 0)] (1, 1, 0)).
  - apply list_elem_of_In. vm_compute. right. left. reflexivity.
  - right. left.
Defined.

(** X28: for every lattice and every list of k-points, the keys of
    [symm_map] are in strictly increasing lexicographic order: iterating
    over [symm_map] visits the member lists in the order of their keys. *)
Theorem symm_map_keys_increasing
    {F : Type} `{Arith F} (a : mat3 F) (kpts : list (vec3 F)) :
  StronglySorted lex_lt
    (OrderedDict.keys (KptsHelper.symm_map (KptsHelper.__init__ a kpts))).
Proof.
  unfold KptsHelper.__init__, KptsHelper.build. cbn [KptsHelper.symm_map].
  pose proof (keys_increasing_fold (get_kconserv a kpts)
                (KptsHelper.cartesian_prod (length kpts)) []
                (KptsHelper.LoopState
                   (zeros_bool [length kpts; length kpts; length kpts])
                   (zeros [length kpts; length kpts; length kpts]) []))
    as Hfold.
  cbn [app] in Hfold. apply Hfold.
  - apply cartesian_prod_sorted.
  - split; [constructor|]. intros key Hkey. by apply elem_of_nil in Hkey.
Qed.

(** ** [unique] on points that are apart *)

Section UniqueSeparated.
Context {F : Type} `{Arith F}.
Variable kpts : list (vec3 F).
Hypothesis Hrefl :
  forall x, x ∈ kpts -> fltb (Unique.l1_distance x x) KPT_DIFF_TOL = true.
Hypothesis Hapart :
  forall i j x y, i <> j -> kpts !! i = Some x -> kpts !! j = Some y ->
    fltb (Unique.l1_distance x y) KPT_DIFF_TOL = false.

Lemma idx_separated m x j :
  kpts !! m = Some x ->
  Unique.idx kpts x [j] = bool_decide (j = m).
Proof.
  intros Hx. unfold Unique.idx.
  destruct (decide (j < length kpts)) as [Hj|Hj].
  - rewrite bool_decide_eq_true_2 by exact Hj. cbn [andb].
    destruct (lookup_lt_is_Some_2 kpts j Hj) as [y Hy].
    rewrite (kpt_at_lookup _ _ _ Hy).
    destruct (decide (j = m)) as [->|Hne].
    + simplify_eq. rewrite bool_decide_eq_true_2 by reflexivity.
      apply Hrefl. eapply list_elem_of_lookup_2. exact Hx.
    + rewrite bool_decide_eq_false_2 by exact Hne.
      apply (Hapart m j); [congruence|exact Hx|exact Hy].
  - rewrite bool_decide_eq_false_2 by exact Hj. cbn [andb].
    apply lookup_lt_Some in Hx. by rewrite bool_decide_eq_false_2 by lia.
Qed.

Lemma unique_inv_separated_prefix m :
  m <= length kpts ->
  unique_inv_separated kpts m
    (fold_left (Unique.step kpts) (take m (enumerate kpts)) (Unique.init kpts)).
Proof.
  induction m as [|m IH]; intros Hm.
  - unfold unique_inv_separated. rewrite take_0.
    cbn [take fold_left Unique.init Unique.uniq_kpts Unique.uniq_index
         Unique.n Unique.seen Unique.uniq_inverse seq zeros zeros_bool item].
    split; [reflexivity|]. split; [reflexivity|]. split; [reflexivity|].
    split.
    + intros j. split; [intros Hf; discriminate Hf|lia].
    + intros j Hj. lia.
  - destruct (lookup_lt_is_Some_2 kpts m ltac:(lia)) as [x Hx].
    rewrite (enumerate_take_S _ _ _ Hx), fold_left_app.
    destruct (IH ltac:(lia)) as (Hk & Hi & Hn & Hseen & Hinv).
    set (st := fold_left (Unique.step kpts) (take m (enumerate kpts))
                 (Unique.init kpts)) in *.
    cbn [fold_left Unique.step].
    assert (Hnew : item (Unique.seen st) [m] = false).
    { destruct (item (Unique.seen st) [m]) eqn:Es; [|reflexivity].
      apply Hseen in Es. lia. }
    rewrite Hnew. unfold unique_inv_separated.
    cbn [Unique.uniq_kpts Unique.uniq_index Unique.n Unique.seen
         Unique.uniq_inverse setmask item].
    split; [by rewrite Hk, (take_S_r _ _ _ Hx)|].
    split; [by rewrite Hi, seq_S|].
    split; [by rewrite Hn|].
    split.
    + intros j. rewrite (idx_separated m x j Hx). case_bool_decide.
      * subst j. split; [lia|reflexivity].
      * rewrite Hseen. lia.
    + intros j Hj. rewrite (idx_separated m x j Hx). case_bool_decide.
      * subst j. exact Hn.
      * apply Hinv. lia.
Qed.

End UniqueSeparated.

(** X29: [unique] leaves a list of separate points as it is.  When every
    point is within the tolerance of itself and no two points at different
    positions are within the tolerance of each other, the representatives
    are the points, the first indices are [0, 1, ..., nkpts-1], and the
    inverse map sends every position to itself. *)
Theorem unique_of_separated_points
    {F : Type} `{Arith F} (kpts : list (vec3 F)) :
  (forall x, x ∈ kpts -> fltb (Unique.l1_distance x x) KPT_DIFF_TOL = true) ->
  (forall i j x y, i <> j -> kpts !! i = Some x -> kpts !! j = Some y ->
     fltb (Unique.l1_distance x y) KPT_DIFF_TOL = false) ->
  let '(unique_kpts, uniq_index, inverse_map) := Unique.unique kpts in
  unique_kpts = kpts
  /\ uniq_index = seq 0 (length kpts)
  /\ forall i, i < length kpts -> item inverse_map [i] = i.
Proof.
  intros Hrefl Hapart. unfold Unique.unique.
  pose proof (unique_inv_separated_prefix kpts Hrefl Hapart (length kpts)
                (le_n _)) as (Hk & Hi & _ & _ & Hinv).
  rewrite firstn_all2 in Hk, Hi, Hinv
    by (unfold enumerate; rewrite length_imap; lia).
  rewrite firstn_all in Hk. by repeat split.
Qed.

Lemma unique_of_separated_points_witness :
  let '(unique_kpts, uniq_index, inverse_map) := Unique.unique Grids.grid2 in
  unique_kpts = Grids.grid2
  /\ uniq_index = seq 0 (length Grids.grid2)
  /\ forall i, i < length Grids.grid2 -> item inverse_map [i] = i.
Proof.
  apply (unique_of_separated_points Grids.grid2).
  - intros x _. apply Q_l1_distance_refl.
  - intros [|[|i]] [|[|j]] x y Hne Hx Hy; try done;
      cbn in Hx, Hy; simplify_eq; vm_compute; reflexivity.
Defined.
